(** * bmfont: bitmap font descriptors and text layout

    A shallow embedding of the Go package [bmfont] (descriptor parser,
    font loading and the text layout / draw engine), followed by the
    properties established about it.

    Conventions of the embedding:
    - Go's [int] is a 64-bit two's complement integer, [rune] is [int32];
      both are carried as [Z] and every arithmetic operation of the source
      is written with its wrap-around ([Go.int_add], [Go.rune_of_int]).
    - Go strings are byte sequences: they are Rocq [string]s (one [ascii]
      per byte); [for i, r := range s] decodes UTF-8 ([utf8.range_string]).
    - Go maps are stdpp [gmap]s; the zero value returned by a missing key
      is written out at every lookup.
    - Methods with a pointer receiver that mutate it take the receiver as
      an argument and return the new receiver. *)

From Stdlib Require Import ZArith String Ascii List Lia DecimalString.
From stdpp Require Import base option list gmap strings.

#[local] Open Scope Z_scope.

(* ===================================================================== *)
(** * Part I: the embedding                                               *)
(* ===================================================================== *)

(** ** Go's predeclared numeric types *)

Module Go.

(** Two's complement wrap-around of [z] to a signed integer of [bits]
    bits. *)
Definition wrap (bits : Z) (z : Z) : Z :=
  (z + 2 ^ (bits - 1)) mod 2 ^ bits - 2 ^ (bits - 1).

Definition int_min : Z := - 2 ^ 63.
Definition int_max : Z := 2 ^ 63 - 1.

(** [a + b] and [a - b] on [int]. *)
Definition int_add (a b : Z) : Z := wrap 64 (a + b).
Definition int_sub (a b : Z) : Z := wrap 64 (a - b).

(** The conversion [rune(n)] of an [int]. *)
Definition rune_of_int (n : Z) : Z := wrap 32 n.

(** The bytes of a string, as numbers in [0, 256). *)
Definition byte (a : ascii) : Z := Z.of_N (N_of_ascii a).
Definition bytes (s : string) : list Z := map byte (list_ascii_of_string s).

Definition of_byte (b : Z) : ascii := ascii_of_N (Z.to_N b).
Definition of_bytes (l : list Z) : string :=
  string_of_list_ascii (map of_byte l).

(** An [int] in decimal, as [%d] prints it. *)
Definition itoa (n : Z) : string := NilZero.string_of_int (Z.to_int n).

End Go.

(** ** Package unicode/utf8 *)

Module utf8.

Definition RuneError : Z := 0xFFFD.
Definition RuneSelf : Z := 0x80.
Definition MaxRune : Z := 0x10FFFF.

(** The table [first] together with [acceptRanges]: for a leading byte,
    the length of the sequence it starts and the range accepted for the
    second byte; [None] for ASCII bytes and for invalid leading bytes. *)
Definition first (b : Z) : option (nat * Z * Z) :=
  if b <? 0xC2 then None
  else if b <? 0xE0 then Some (2%nat, 0x80, 0xBF)
  else if b =? 0xE0 then Some (3%nat, 0xA0, 0xBF)
  else if b =? 0xED then Some (3%nat, 0x80, 0x9F)
  else if b <? 0xF0 then Some (3%nat, 0x80, 0xBF)
  else if b =? 0xF0 then Some (4%nat, 0x90, 0xBF)
  else if b <? 0xF4 then Some (4%nat, 0x80, 0xBF)
  else if b =? 0xF4 then Some (4%nat, 0x80, 0x8F)
  else None.

Definition between (lo hi b : Z) : bool := (lo <=? b) && (b <=? hi).

(** [DecodeRune] / [DecodeRuneInString]: the first code point of [p] and
    its width in bytes; [(RuneError, 0)] on empty input and
    [(RuneError, 1)] on an invalid encoding. *)
Definition DecodeRune (p : list Z) : Z * nat :=
  match p with
  | [] => (RuneError, 0%nat)
  | s0 :: p1 =>
    match first s0 with
    | None => if s0 <? RuneSelf then (s0, 1%nat) else (RuneError, 1%nat)
    | Some (sz, lo, hi) =>
      match sz, p1 with
      | 2%nat, s1 :: _ =>
        if between lo hi s1
        then (Z.lor (Z.shiftl (Z.land s0 0x1F) 6) (Z.land s1 0x3F), 2%nat)
        else (RuneError, 1%nat)
      | 3%nat, s1 :: s2 :: _ =>
        if between lo hi s1 && between 0x80 0xBF s2
        then (Z.lor (Z.shiftl (Z.land s0 0x0F) 12)
               (Z.lor (Z.shiftl (Z.land s1 0x3F) 6) (Z.land s2 0x3F)),
              3%nat)
        else (RuneError, 1%nat)
      | 4%nat, s1 :: s2 :: s3 :: _ =>
        if between lo hi s1 && between 0x80 0xBF s2 && between 0x80 0xBF s3
        then (Z.lor (Z.shiftl (Z.land s0 0x07) 18)
               (Z.lor (Z.shiftl (Z.land s1 0x3F) 12)
                 (Z.lor (Z.shiftl (Z.land s2 0x3F) 6) (Z.land s3 0x3F))),
              4%nat)
        else (RuneError, 1%nat)
      | _, _ => (RuneError, 1%nat)
      end
    end
  end.

(** The sequence of code points of a byte string, each with the index
    of its first byte and its width.  A code point is decoded at every
    position that is not inside the previous one: [skip] counts the
    bytes still belonging to the code point decoded last. *)
Fixpoint runes_from (skip : nat) (i : Z) (p : list Z) : list (Z * Z * nat) :=
  match p with
  | [] => []
  | _ :: p' =>
    match skip with
    | S k => runes_from k (i + 1) p'
    | O => let '(r, n) := DecodeRune p in
           (i, r, n) :: runes_from (Nat.pred n) (i + 1) p'
    end
  end.

(** [for i, r := range s]: the pairs of byte index and code point, in
    order. *)
Definition range_string (s : string) : list (Z * Z) :=
  map (fun irn => (irn.1.1, irn.1.2)) (runes_from 0 0 (Go.bytes s)).

(** [func ValidRune(r rune) bool] *)
Definition ValidRune (r : Z) : bool :=
  ((0 <=? r) && (r <? 0xD800)) || ((0xDFFF <? r) && (r <=? MaxRune)).

(** [func EncodeRune(p []byte, r rune) int]: the bytes written. *)
Definition EncodeRune (r : Z) : list Z :=
  let three (r : Z) :=
    [Z.lor 0xE0 (Z.shiftr r 12);
     Z.lor 0x80 (Z.land (Z.shiftr r 6) 0x3F);
     Z.lor 0x80 (Z.land r 0x3F)] in
  if (0 <=? r) && (r <=? 0x7F) then [r]
  else if (0 <=? r) && (r <=? 0x7FF)
  then [Z.lor 0xC0 (Z.shiftr r 6); Z.lor 0x80 (Z.land r 0x3F)]
  else if negb (ValidRune r) then three RuneError
  else if r <=? 0xFFFF then three r
  else [Z.lor 0xF0 (Z.shiftr r 18);
        Z.lor 0x80 (Z.land (Z.shiftr r 12) 0x3F);
        Z.lor 0x80 (Z.land (Z.shiftr r 6) 0x3F);
        Z.lor 0x80 (Z.land r 0x3F)].

(** [func ValidString(s string) bool]: no position decodes to the error
    of width 1. *)
Definition ValidString (p : list Z) : bool :=
  forallb (fun irn => negb ((irn.1.2 =? RuneError) && (irn.2 =? 1)%nat))
          (runes_from 0 0 p).

(** [func RuneStart(b byte) bool] *)
Definition RuneStart (b : Z) : bool := negb (Z.land b 0xC0 =? 0x80).

(** [func DecodeLastRuneInString(s string) (rune, int)], on the bytes of
    [s] in reverse order.  The start of the last code point is looked
    for among the three bytes before the last one. *)
Definition DecodeLastRune (rp : list Z) : Z * nat :=
  match rp with
  | [] => (RuneError, 0%nat)
  | b :: rest =>
    if b <? RuneSelf then (b, 1%nat)
    else
      let try (j : nat) : Z * nat :=
        let '(r, size) := DecodeRune (rev (firstn (S j) rest) ++ [b]) in
        if (size =? S (S j))%nat then (r, size) else (RuneError, 1%nat) in
      match rest with
      | b1 :: rest1 =>
        if RuneStart b1 then try 0%nat
        else match rest1 with
        | b2 :: rest2 =>
          if RuneStart b2 then try 1%nat
          else match rest2 with
          | b3 :: _ =>
            if RuneStart b3 then try 2%nat else (RuneError, 1%nat)
          | [] => (RuneError, 1%nat)
          end
        | [] => (RuneError, 1%nat)
        end
      | [] => (RuneError, 1%nat)
      end
  end.

End utf8.

(** ** Package image: points and rectangles *)

Module image.

Record Point : Type := mkPoint { X : Z; Y : Z }.

Definition Pt (x y : Z) : Point := mkPoint x y.

(** [p.Add(q)] *)
Definition Add (p q : Point) : Point :=
  mkPoint (Go.int_add (X p) (X q)) (Go.int_add (Y p) (Y q)).

Record Rectangle : Type := mkRectangle { Min : Point; Max : Point }.

(** The zero rectangle [image.Rectangle{}] and the zero point. *)
Definition ZP : Point := mkPoint 0 0.
Definition ZR : Rectangle := mkRectangle ZP ZP.

(** [r.Empty()] *)
Definition Empty (r : Rectangle) : bool :=
  (X (Min r) >=? X (Max r)) || (Y (Min r) >=? Y (Max r)).

(** [r.Union(s)]: the smallest rectangle containing both; an empty
    operand is ignored. *)
Definition Union (r s : Rectangle) : Rectangle :=
  if Empty r then s
  else if Empty s then r
  else
    let minx := if X (Min r) >? X (Min s) then X (Min s) else X (Min r) in
    let miny := if Y (Min r) >? Y (Min s) then Y (Min s) else Y (Min r) in
    let maxx := if X (Max r) <? X (Max s) then X (Max s) else X (Max r) in
    let maxy := if Y (Max r) <? Y (Max s) then Y (Max s) else Y (Max r) in
    mkRectangle (mkPoint minx miny) (mkPoint maxx maxy).

(** [func (r Rectangle) Add(p Point) Rectangle]: [r] moved by [p]. *)
Definition RectAdd (r : Rectangle) (p : Point) : Rectangle :=
  mkRectangle
    (mkPoint (Go.int_add (X (Min r)) (X p)) (Go.int_add (Y (Min r)) (Y p)))
    (mkPoint (Go.int_add (X (Max r)) (X p)) (Go.int_add (Y (Max r)) (Y p))).

(** [func (r Rectangle) In(s Rectangle) bool]: every point of [r] is in
    [s]. *)
Definition In (r s : Rectangle) : bool :=
  if Empty r then true
  else (X (Min s) <=? X (Min r)) && (X (Max r) <=? X (Max s))
       && (Y (Min s) <=? Y (Min r)) && (Y (Max r) <=? Y (Max s)).

(** [func (r Rectangle) Size() Point]: the width and the height. *)
Definition Size (r : Rectangle) : Point :=
  mkPoint (Go.int_sub (X (Max r)) (X (Min r)))
          (Go.int_sub (Y (Max r)) (Y (Min r))).

End image.

#[global] Instance Point_eq_dec : EqDecision image.Point.
Proof. solve_decision. Defined.
#[global] Instance Rectangle_eq_dec : EqDecision image.Rectangle.
Proof. solve_decision. Defined.

(** ** Package unicode: character classes

    The classes are written out for ASCII; above ASCII they are the range
    tables of the Unicode database, which the embedding takes as given
    ([Tables]).  [IsSpace] is a closed list and is written out in full. *)

Module unicode.

Record Tables : Type := mkTables {
  letter : Z -> bool;
  digit : Z -> bool;
  print : Z -> bool
}.

Definition MaxASCII : Z := 0x7F.

Definition IsLetter (T : Tables) (r : Z) : bool :=
  if r <? 0 then false
  else if r <=? MaxASCII
  then utf8.between 65 90 r || utf8.between 97 122 r
  else letter T r.

Definition IsDigit (T : Tables) (r : Z) : bool :=
  if r <? 0 then false
  else if r <=? MaxASCII then utf8.between 48 57 r
  else digit T r.

Definition IsPrint (T : Tables) (r : Z) : bool :=
  if r <? 0 then false
  else if r <=? MaxASCII then utf8.between 0x20 0x7E r
  else print T r.

Definition IsSpace (r : Z) : bool :=
  utf8.between 0x09 0x0D r || (r =? 0x20) || (r =? 0x85) || (r =? 0xA0)
  || (r =? 0x1680) || utf8.between 0x2000 0x200A r
  || (r =? 0x2028) || (r =? 0x2029) || (r =? 0x202F) || (r =? 0x205F)
  || (r =? 0x3000).

End unicode.

(** ** Package strconv: [Unquote], [Atoi] and [Quote] *)

Module strconv.

Definition dquote : Z := 34.
Definition squote : Z := 39.
Definition backquote : Z := 96.
Definition backslash : Z := 92.

Definition contains (s : list Z) (c : Z) : bool := existsb (Z.eqb c) s.

(** [func unhex(b byte) (v rune, ok bool)] *)
Definition unhex (b : Z) : option Z :=
  if utf8.between 48 57 b then Some (b - 48)
  else if utf8.between 97 102 b then Some (b - 97 + 10)
  else if utf8.between 65 70 b then Some (b - 65 + 10)
  else None.

(** The loop [v = v<<4 | x] over [n] hexadecimal digits, on [int32]. *)
Fixpoint hexValue (n : nat) (s : list Z) (v : Z) : option (Z * list Z) :=
  match n with
  | O => Some (v, s)
  | S n' =>
    match s with
    | [] => None
    | b :: s' =>
      match unhex b with
      | None => None
      | Some x => hexValue n' s' (Go.wrap 32 (Z.lor (Z.shiftl v 4) x))
      end
    end
  end.

(** [func UnquoteChar(s string, quote byte)
     (value rune, multibyte bool, tail string, err error)];
    [None] is [ErrSyntax]. *)
Definition UnquoteChar (s : list Z) (quote : Z)
    : option (Z * bool * list Z) :=
  match s with
  | [] => None
  | c :: s1 =>
    if (c =? quote) && ((quote =? squote) || (quote =? dquote)) then None
    else if c >=? utf8.RuneSelf then
      let '(r, size) := utf8.DecodeRune s in Some (r, true, skipn size s)
    else if negb (c =? backslash) then Some (c, false, s1)
    else
      match s1 with
      | [] => None
      | c :: s =>
        if c =? 97 then Some (7, false, s)
        else if c =? 98 then Some (8, false, s)
        else if c =? 102 then Some (12, false, s)
        else if c =? 110 then Some (10, false, s)
        else if c =? 114 then Some (13, false, s)
        else if c =? 116 then Some (9, false, s)
        else if c =? 118 then Some (11, false, s)
        else if (c =? 120) || (c =? 117) || (c =? 85) then
          let n := if c =? 120 then 2%nat
                   else if c =? 117 then 4%nat else 8%nat in
          match hexValue n s 0 with
          | None => None
          | Some (v, s) =>
            if c =? 120 then Some (v, false, s)
            else if utf8.ValidRune v then Some (v, true, s)
            else None
          end
        else if utf8.between 48 55 c then
          match s with
          | d1 :: d2 :: s =>
            if utf8.between 48 55 d1 && utf8.between 48 55 d2 then
              let v := Z.lor (Z.shiftl
                         (Z.lor (Z.shiftl (c - 48) 3) (d1 - 48)) 3)
                         (d2 - 48) in
              if v >? 255 then None else Some (v, false, s)
            else None
          | _ => None
          end
        else if c =? backslash then Some (backslash, false, s)
        else if (c =? squote) || (c =? dquote) then
          if c =? quote then Some (c, false, s) else None
        else None
      end
  end.

(** The decoding loop of [Unquote]. *)
Fixpoint unquoteLoop (n : nat) (s : list Z) (quote : Z) (buf : list Z)
    : option (list Z) :=
  match s with
  | [] => Some buf
  | _ :: _ =>
    match n with
    | O => None
    | S n' =>
      match UnquoteChar s quote with
      | None => None
      | Some (c, multibyte, ss) =>
        let buf :=
          if (c <? utf8.RuneSelf) || negb multibyte
          then buf ++ [Z.land c 255]
          else buf ++ utf8.EncodeRune c in
        if (quote =? squote) && negb (length ss =? 0)%nat then None
        else unquoteLoop n' ss quote buf
      end
    end
  end.

(** [func Unquote(s string) (string, error)]; [None] is [ErrSyntax]. *)
Definition Unquote (str : string) : option string :=
  let s := Go.bytes str in
  match s with
  | quote :: rest =>
    match rev rest with
    | last :: rmid =>
      let s := rev rmid in
      if negb (quote =? last) then None
      else if quote =? backquote then
        if contains s backquote then None
        else if contains s 13
        then Some (Go.of_bytes (filter (fun b => negb (b =? 13)) s))
        else Some (Go.of_bytes s)
      else if negb (quote =? dquote) && negb (quote =? squote) then None
      else if contains s 10 then None
      else if negb (contains s backslash) && negb (contains s quote)
              && (if quote =? dquote then utf8.ValidString s
                  else let '(r, size) := utf8.DecodeRune s in
                       (size =? length s)%nat
                       && (negb (r =? utf8.RuneError)
                           || negb (size =? 1)%nat))
      then Some (Go.of_bytes s)
      else option_map Go.of_bytes (unquoteLoop (length s) s quote [])
    | [] => None
    end
  | [] => None
  end.

(** [ParseUint(s, 10, 64)]: the value, which is [maxUint64] when the
    number is out of range; [None] is a syntax error. *)
Definition maxUint64 : Z := 2 ^ 64 - 1.
Definition cutoff10 : Z := maxUint64 / 10 + 1.

Fixpoint parseUintLoop (s : list Z) (n : Z) : option Z :=
  match s with
  | [] => Some n
  | c :: s' =>
    if utf8.between 48 57 c then
      if n >=? cutoff10 then Some maxUint64
      else
        let n1 := n * 10 + (c - 48) in
        if n1 >? maxUint64 then Some maxUint64
        else parseUintLoop s' n1
    else None
  end.

Definition ParseUint10 (s : list Z) : option Z :=
  match s with
  | [] => None
  | _ :: _ => parseUintLoop s 0
  end.

(** [ParseInt(s, 10, 0)]: the value returned, and whether [err] is nil. *)
Definition ParseInt10 (s : list Z) : Z * bool :=
  match s with
  | [] => (0, false)
  | c :: s' =>
    let neg := c =? 45 in
    let s := if (c =? 43) || (c =? 45) then s' else s in
    match ParseUint10 s with
    | None => (0, false)
    | Some un =>
      let cutoff := 2 ^ 63 in
      if negb neg && (un >=? cutoff) then (cutoff - 1, false)
      else if neg && (un >? cutoff) then (- cutoff, false)
      else (if neg then - un else un, true)
    end
  end.

(** The digit loop of the fast path of [Atoi]. *)
Fixpoint atoiDigits (s : list Z) (n : Z) : option Z :=
  match s with
  | [] => Some n
  | c :: s' =>
    if utf8.between 48 57 c then atoiDigits s' (n * 10 + (c - 48))
    else None
  end.

(** [func Atoi(s string) (int, error)] with [intSize = 64]: the value
    returned, and whether [err] is nil. *)
Definition Atoi (str : string) : Z * bool :=
  let s0 := Go.bytes str in
  let sLen := length s0 in
  if ((0 <? sLen) && (sLen <? 19))%nat then
    match s0 with
    | [] => (0, false)
    | c :: s' =>
      let s := if (c =? 45) || (c =? 43) then s' else s0 in
      match s with
      | [] => (0, false)
      | _ :: _ =>
        match atoiDigits s 0 with
        | None => (0, false)
        | Some n => (if c =? 45 then - n else n, true)
        end
      end
    end
  else ParseInt10 s0.

Definition lowerhex (v : Z) : Z :=
  if v <? 10 then 48 + v else 97 + (v - 10).

(** The digits [lowerhex[r>>s & 0xF]] for [s] from [4 * (k - 1)] down
    to 0. *)
Fixpoint hexDigits (k : nat) (r : Z) : list Z :=
  match k with
  | O => []
  | S k' =>
    lowerhex (Z.land (Z.shiftr r (4 * Z.of_nat k')) 0xF) :: hexDigits k' r
  end.

(** [appendEscapedRune(buf, r, quote, false, false)], without [buf]. *)
Definition escapedRune (T : unicode.Tables) (r quote : Z) : list Z :=
  if (r =? quote) || (r =? backslash) then [backslash; r]
  else if unicode.IsPrint T r then utf8.EncodeRune r
  else if r =? 7 then [backslash; 97]
  else if r =? 8 then [backslash; 98]
  else if r =? 12 then [backslash; 102]
  else if r =? 10 then [backslash; 110]
  else if r =? 13 then [backslash; 114]
  else if r =? 9 then [backslash; 116]
  else if r =? 11 then [backslash; 118]
  else if (r <? 32) || (r =? 0x7F)
  then [backslash; 120] ++ hexDigits 2 (Z.land r 255)
  else if negb (utf8.ValidRune r)
  then [backslash; 117] ++ hexDigits 4 utf8.RuneError
  else if r <? 0x10000 then [backslash; 117] ++ hexDigits 4 r
  else [backslash; 85] ++ hexDigits 8 r.

(** [Quote(string(r))] for a code point [r] that [string(r)] encodes as
    itself, which is every valid code point. *)
Definition QuoteRune (T : unicode.Tables) (r : Z) : string :=
  Go.of_bytes ([dquote] ++ escapedRune T r dquote ++ [dquote]).

End strconv.

(** ** Package strings: [Split] and [TrimSpace] *)

Module strings.

(** [Split(s, sep)] for a separator of one byte: the pieces of [s]
    between the occurrences of [sep]; one piece more than there are
    separators. *)
Fixpoint splitBytes (sep : Z) (s : list Z) (cur : list Z)
    : list (list Z) :=
  match s with
  | [] => [cur]
  | c :: s' =>
    if c =? sep then cur :: splitBytes sep s' []
    else splitBytes sep s' (cur ++ [c])
  end.

Definition Split (s : string) (sep : Z) : list string :=
  map Go.of_bytes (splitBytes sep (Go.bytes s) []).

(** [TrimLeftFunc(s, unicode.IsSpace)], code point by code point. *)
Fixpoint trimLeft (skip : nat) (p : list Z) : list Z :=
  match p with
  | [] => []
  | _ :: p' =>
    match skip with
    | S k => trimLeft k p'
    | O =>
      let '(r, n) := utf8.DecodeRune p in
      if unicode.IsSpace r then trimLeft (Nat.pred n) p' else p
    end
  end.

(** [TrimRightFunc(s, unicode.IsSpace)] on the reversed bytes, decoding
    from the end with [DecodeLastRuneInString]. *)
Fixpoint trimRightRev (skip : nat) (rp : list Z) : list Z :=
  match rp with
  | [] => []
  | _ :: rp' =>
    match skip with
    | S k => trimRightRev k rp'
    | O =>
      let '(r, n) := utf8.DecodeLastRune rp in
      if unicode.IsSpace r then trimRightRev (Nat.pred n) rp' else rp
    end
  end.

(** [func TrimSpace(s string) string].  The source has a fast path for
    ASCII that hands over to [TrimFunc(s, unicode.IsSpace)] at the first
    byte that is not ASCII; the result is that of [TrimFunc]. *)
Definition TrimSpace (s : string) : string :=
  Go.of_bytes (rev (trimRightRev 0 (rev (trimLeft 0 (Go.bytes s))))).

End strings.

(** ** Package text/scanner, as [tagsParser.parse] configures it

    A model of the standard library's scanner (Go 1.13 and later) over an
    input that is wholly in memory.  Buffer refills are abstracted:
    [srcPos], [tokPos] and [tokEnd] are offsets from the start of the
    input, so that the token text is the slice of the input between
    [tokPos] and [tokEnd].  The scanner's own error reports only increment
    [ErrorCount] and call the [Error] callback; [parse] installs a callback
    that does nothing and never reads the count, so they are left out. *)

Module scanner.

(** Token kinds, and the mode bits [1 << -tok]. *)
Definition EOF : Z := -1.
Definition Ident : Z := -2.
Definition Int : Z := -3.
Definition Float : Z := -4.
Definition Char : Z := -5.
Definition String : Z := -6.
Definition RawString : Z := -7.
Definition Comment : Z := -8.

Definition ScanIdents : Z := Z.shiftl 1 2.
Definition ScanInts : Z := Z.shiftl 1 3.
Definition ScanFloats : Z := Z.shiftl 1 4.
Definition ScanChars : Z := Z.shiftl 1 5.
Definition ScanStrings : Z := Z.shiftl 1 6.
Definition ScanRawStrings : Z := Z.shiftl 1 7.
Definition ScanComments : Z := Z.shiftl 1 8.
Definition SkipComments : Z := Z.shiftl 1 9.

Definition GoTokens : Z :=
  Z.lor ScanIdents (Z.lor ScanFloats (Z.lor ScanChars (Z.lor ScanStrings
    (Z.lor ScanRawStrings (Z.lor ScanComments SkipComments))))).

(** [GoWhitespace = 1<<'\t' | 1<<'\n' | 1<<'\r' | 1<<' '] *)
Definition GoWhitespace : Z :=
  Z.lor (Z.shiftl 1 9) (Z.lor (Z.shiftl 1 10)
    (Z.lor (Z.shiftl 1 13) (Z.shiftl 1 32))).

Record Position : Type := mkPosition {
  Filename : string;
  Offset : Z;
  Line : Z;
  Column : Z
}.

(** The reading state: what [next] works on. *)
Record Reader : Type := mkReader {
  src : list Z;        (* the bytes not read yet *)
  srcPos : Z;          (* offset of the first of them *)
  line : Z;
  column : Z;
  lastLineLen : Z;
  lastCharLen : Z
}.

Record Scanner : Type := mkScanner {
  srcBuf : list Z;     (* the whole input *)
  rd : Reader;
  tokPos : Z;
  tokEnd : Z;
  ch : Z;              (* character before the current [srcPos] *)
  Mode : Z;
  Whitespace : Z;
  Pos : Position       (* the embedded [Position] of the last token *)
}.

Definition set_rd (s : Scanner) (r : Reader) : Scanner :=
  mkScanner (srcBuf s) r (tokPos s) (tokEnd s) (ch s) (Mode s)
            (Whitespace s) (Pos s).
Definition set_tokPos (s : Scanner) (v : Z) : Scanner :=
  mkScanner (srcBuf s) (rd s) v (tokEnd s) (ch s) (Mode s)
            (Whitespace s) (Pos s).
Definition set_tokEnd (s : Scanner) (v : Z) : Scanner :=
  mkScanner (srcBuf s) (rd s) (tokPos s) v (ch s) (Mode s)
            (Whitespace s) (Pos s).
Definition set_ch (s : Scanner) (v : Z) : Scanner :=
  mkScanner (srcBuf s) (rd s) (tokPos s) (tokEnd s) v (Mode s)
            (Whitespace s) (Pos s).
Definition set_Whitespace (s : Scanner) (v : Z) : Scanner :=
  mkScanner (srcBuf s) (rd s) (tokPos s) (tokEnd s) (ch s) (Mode s)
            v (Pos s).
Definition set_Pos (s : Scanner) (v : Position) : Scanner :=
  mkScanner (srcBuf s) (rd s) (tokPos s) (tokEnd s) (ch s) (Mode s)
            (Whitespace s) v.
Definition set_Line (s : Scanner) (v : Z) : Scanner :=
  set_Pos s (mkPosition (Filename (Pos s)) (Offset (Pos s)) v
                        (Column (Pos s))).
Definition set_Filename (s : Scanner) (v : string) : Scanner :=
  set_Pos s (mkPosition v (Offset (Pos s)) (Line (Pos s))
                        (Column (Pos s))).

(** [func (s *Scanner) Init(src io.Reader) *Scanner], on a scanner that
    is the zero value; [input] is everything the reader delivers. *)
Definition Init (input : string) : Scanner :=
  mkScanner (Go.bytes input)
            (mkReader (Go.bytes input) 0 1 0 0 0)
            (-1) 0 (-2) GoTokens GoWhitespace
            (mkPosition EmptyString 0 0 0).

(** [func (s *Scanner) next() rune] on the reading state. *)
Definition read (r : Reader) : Z * Reader :=
  match src r with
  | [] =>
    (EOF,
     mkReader [] (srcPos r) (line r)
              (if lastCharLen r >? 0 then column r + 1 else column r)
              (lastLineLen r) 0)
  | _ :: _ =>
    let '(c, width) := utf8.DecodeRune (src r) in
    let w := Z.of_nat width in
    let col := column r + 1 in
    (c,
     if c =? 10
     then mkReader (skipn width (src r)) (srcPos r + w)
                   (line r + 1) 0 col w
     else mkReader (skipn width (src r)) (srcPos r + w)
                   (line r) col (lastLineLen r) w)
  end.

Definition next (s : Scanner) : Z * Scanner :=
  let '(c, r) := read (rd s) in (c, set_rd s r).

(** Enough iterations for any loop that calls [next] once per round and
    stops at [EOF]. *)
Definition fuel (s : Scanner) : nat := S (length (src (rd s))).

(** What is left to read when [c] is the character read last: twice the
    number of bytes not read yet, and one more while [c] is not [EOF].
    Every [next] after a character other than [EOF] makes it smaller. *)
Definition remaining (s : Scanner) (c : Z) : nat :=
  2 * length (src (rd s)) + (if c =? EOF then 0 else 1).

(** [for cond(ch) { ch = s.next() }] *)
Fixpoint nextWhile (n : nat) (cond : Z -> bool) (s : Scanner) (c : Z)
    : Z * Scanner :=
  match n with
  | O => (c, s)
  | S n' =>
    if cond c
    then let '(c', s') := next s in nextWhile n' cond s' c'
    else (c, s)
  end.

(** [func (s *Scanner) Peek() rune] *)
Definition Peek (s : Scanner) : Z * Scanner :=
  if ch s =? -2 then
    let '(c, s1) := next s in
    if c =? 0xFEFF
    then let '(c', s2) := next s1 in (c', set_ch s2 c')
    else (c, set_ch s1 c)
  else (ch s, s).

(** [func (s *Scanner) Next() rune] *)
Definition Next (s : Scanner) : Z * Scanner :=
  let s := set_Line (set_tokPos s (-1)) 0 in
  let '(c, s) := Peek s in
  if c =? EOF then (c, s)
  else let '(c', s') := next s in (c, set_ch s' c').

Section Classes.
Variable T : unicode.Tables.

Definition lower (c : Z) : Z := Z.lor 32 c.
Definition isDecimal (c : Z) : bool := utf8.between 48 57 c.
Definition isHex (c : Z) : bool :=
  utf8.between 48 57 c || utf8.between 97 102 (lower c).

Definition digitVal (c : Z) : Z :=
  if utf8.between 48 57 c then c - 48
  else if utf8.between 97 102 (lower c) then lower c - 97 + 10
  else 16.

(** [func (s *Scanner) isIdentRune(ch rune, i int) bool] with
    [IsIdentRune] unset; [later] stands for [i > 0]. *)
Definition isIdentRune (c : Z) (later : bool) : bool :=
  (c =? 95) || unicode.IsLetter T c || (unicode.IsDigit T c && later).

Definition isWhitespace (s : Scanner) (c : Z) : bool :=
  (0 <=? c) && (c <? 64) && Z.testbit (Whitespace s) c.

(** [func (s *Scanner) scanIdentifier() rune] *)
Definition scanIdentifier (s : Scanner) : Z * Scanner :=
  let '(c, s) := next s in
  nextWhile (fuel s) (fun c => isIdentRune c true) s c.

(** [func (s *Scanner) digits(ch0 rune, base int, invalid *rune)]; the
    separator flags and the invalid digit only feed error reports. *)
Definition digits (s : Scanner) (c0 : Z) (base : Z) : Z * Scanner :=
  if base <=? 10
  then nextWhile (fuel s) (fun c => isDecimal c || (c =? 95)) s c0
  else nextWhile (fuel s) (fun c => isHex c || (c =? 95)) s c0.

(** [func (s *Scanner) scanNumber(ch rune, seenDot bool) (rune, rune)] *)
Definition scanNumber (s : Scanner) (c : Z) (seenDot : bool)
    : Z * Z * Scanner :=
  let floats := negb (Z.land (Mode s) ScanFloats =? 0) in
  (* integer part *)
  let '(tok, base, seenDot, c, s) :=
    if seenDot then (0, 10, true, c, s)
    else
      let '(base, c, s) :=
        if c =? 48 then
          let '(c, s) := next s in
          if lower c =? 120 then
            let '(c, s) := next s in (16, c, s)
          else if lower c =? 111 then
            let '(c, s) := next s in (8, c, s)
          else if lower c =? 98 then
            let '(c, s) := next s in (2, c, s)
          else (8, c, s)
        else (10, c, s) in
      let '(c, s) := digits s c base in
      if (c =? 46) && floats
      then let '(c, s) := next s in (Int, base, true, c, s)
      else (Int, base, false, c, s) in
  (* fractional part *)
  let '(tok, c, s) :=
    if (seenDot : bool)
    then let '(c, s) := digits s c base in (Float, c, s)
    else (tok, c, s) in
  (* exponent *)
  let e := lower c in
  if ((e =? 101) || (e =? 112)) && floats then
    let '(c, s) := next s in
    let '(c, s) :=
      if (c =? 43) || (c =? 45) then next s else (c, s) in
    let '(c, s) := digits s c 10 in
    (Float, c, s)
  else (tok, c, s).

(** [func (s *Scanner) scanDigits(ch rune, base, n int) rune] *)
Fixpoint scanDigits (n : nat) (s : Scanner) (c : Z) (base : Z)
    : Z * Scanner :=
  match n with
  | O => (c, s)
  | S n' =>
    if digitVal c <? base
    then let '(c, s) := next s in scanDigits n' s c base
    else (c, s)
  end.

(** [func (s *Scanner) scanEscape(quote rune) rune] *)
Definition scanEscape (s : Scanner) (quote : Z) : Z * Scanner :=
  let '(c, s) := next s in
  if (c =? 97) || (c =? 98) || (c =? 102) || (c =? 110) || (c =? 114)
     || (c =? 116) || (c =? 118) || (c =? 92) || (c =? quote)
  then next s
  else if utf8.between 48 55 c then scanDigits 3 s c 8
  else if c =? 120 then let '(c, s) := next s in scanDigits 2 s c 16
  else if c =? 117 then let '(c, s) := next s in scanDigits 4 s c 16
  else if c =? 85 then let '(c, s) := next s in scanDigits 8 s c 16
  else (c, s).

(** The loop of [scanString]; [cnt] is its result [n]. *)
Fixpoint scanStringLoop (k : nat) (s : Scanner) (quote c : Z) (cnt : Z)
    : Z * Scanner :=
  match k with
  | O => (cnt, s)
  | S k' =>
    if c =? quote then (cnt, s)
    else if (c =? 10) || (c <? 0) then (cnt, s)
    else
      let '(c, s) :=
        if c =? 92 then scanEscape s quote else next s in
      scanStringLoop k' s quote c (cnt + 1)
  end.

(** [func (s *Scanner) scanString(quote rune) (n int)] *)
Definition scanString (s : Scanner) (quote : Z) : Z * Scanner :=
  let '(c, s) := next s in
  scanStringLoop (fuel s) s quote c 0.

(** [func (s *Scanner) scanRawString()] *)
Definition scanRawString (s : Scanner) : Scanner :=
  let '(c, s) := next s in
  (nextWhile (fuel s) (fun c => negb (c =? 96) && negb (c <? 0)) s c).2.

(** [func (s *Scanner) scanChar()] *)
Definition scanChar (s : Scanner) : Scanner := (scanString s 39).2.

(** The loop of the general comment case of [scanComment]. *)
Fixpoint scanCommentLoop (k : nat) (s : Scanner) (c : Z) : Z * Scanner :=
  match k with
  | O => (c, s)
  | S k' =>
    if c <? 0 then (c, s)
    else
      let c0 := c in
      let '(c, s) := next s in
      if (c0 =? 42) && (c =? 47) then next s
      else scanCommentLoop k' s c
  end.

(** [func (s *Scanner) scanComment(ch rune) rune] *)
Definition scanComment (s : Scanner) (c : Z) : Z * Scanner :=
  if c =? 47 then
    let '(c, s) := next s in
    nextWhile (fuel s) (fun c => negb (c =? 10) && (c >=? 0)) s c
  else
    let '(c, s) := next s in
    scanCommentLoop (fuel s) s c.

(** What the token switch of [Scan] decides: a token, or a skipped
    comment after which scanning starts over ([goto redo]). *)
Inductive scanned : Type :=
| Token (tok c : Z) (s : Scanner)
| Redo (c : Z) (s : Scanner).

Definition has (s : Scanner) (bit : Z) : bool :=
  negb (Z.land (Mode s) bit =? 0).

(** The body of [Scan] from the label [redo] to the end of the token
    switch. *)
Definition scanToken (s : Scanner) (c : Z) : scanned :=
  (* skip white space *)
  let '(c, s) := nextWhile (fuel s) (isWhitespace s) s c in
  (* start collecting token text, set token position *)
  let tp := srcPos (rd s) - lastCharLen (rd s) in
  let s := set_tokPos s tp in
  let s :=
    if column (rd s) >? 0
    then set_Pos s (mkPosition (Filename (Pos s)) tp
                      (line (rd s)) (column (rd s)))
    else set_Pos s (mkPosition (Filename (Pos s)) tp
                      (line (rd s) - 1) (lastLineLen (rd s))) in
  (* determine token value *)
  if isIdentRune c false then
    if has s ScanIdents
    then let '(c, s) := scanIdentifier s in Token Ident c s
    else let '(c', s) := next s in Token c c' s
  else if isDecimal c then
    if has s (Z.lor ScanInts ScanFloats)
    then let '(tok, c, s) := scanNumber s c false in Token tok c s
    else let '(c', s) := next s in Token c c' s
  else if c =? EOF then Token c c s
  else if c =? 34 then
    if has s ScanStrings
    then let '(c', s) := next (scanString s 34).2 in Token String c' s
    else let '(c', s) := next s in Token c c' s
  else if c =? 39 then
    if has s ScanChars
    then let '(c', s) := next (scanChar s) in Token Char c' s
    else let '(c', s) := next s in Token c c' s
  else if c =? 46 then
    let '(c', s) := next s in
    if isDecimal c' && has s ScanFloats
    then let '(tok, c', s) := scanNumber s c' true in Token tok c' s
    else Token c c' s
  else if c =? 47 then
    let '(c', s) := next s in
    if ((c' =? 47) || (c' =? 42)) && has s ScanComments then
      if has s SkipComments
      then let s := set_tokPos s (-1) in
           let '(c', s) := scanComment s c' in Redo c' s
      else let '(c', s) := scanComment s c' in Token Comment c' s
    else Token c c' s
  else if c =? 96 then
    if has s ScanRawStrings
    then let '(c', s) := next (scanRawString s) in Token RawString c' s
    else let '(c', s) := next s in Token c c' s
  else let '(c', s) := next s in Token c c' s.

(** End of the token text, and the look-ahead character. *)
Definition finish (tok c : Z) (s : Scanner) : Z * Scanner :=
  (tok, set_ch (set_tokEnd s (srcPos (rd s) - lastCharLen (rd s))) c).

Fixpoint scanLoop (k : nat) (s : Scanner) (c : Z) : Z * Scanner :=
  match scanToken s c with
  | Token tok c s => finish tok c s
  | Redo c s =>
    match k with
    | O => finish EOF c s
    | S k' => scanLoop k' s c
    end
  end.

(** [func (s *Scanner) Scan() rune] *)
Definition Scan (s : Scanner) : Z * Scanner :=
  let '(c, s) := Peek s in
  let s := set_Line (set_tokPos s (-1)) 0 in
  scanLoop (fuel s) s c.

End Classes.

(** [func (s *Scanner) TokenText() string] *)
Definition TokenText (s : Scanner) : string :=
  if tokPos s <? 0 then EmptyString
  else
    let tokEnd := if tokEnd s <? tokPos s then tokPos s else tokEnd s in
    Go.of_bytes (firstn (Z.to_nat (tokEnd - tokPos s))
                   (skipn (Z.to_nat (tokPos s)) (srcBuf s))).

(** [func (pos Position) String() string] *)
Definition PositionString (pos : Position) : string :=
  let s := if String.eqb (Filename pos) EmptyString
           then "???"%string else Filename pos in
  if Line pos >? 0
  then s +:+ ":" +:+ Go.itoa (Line pos) +:+ ":" +:+ Go.itoa (Column pos)
  else s.

(** [func TokenString(tok rune) string]: the name of a token kind, or
    the character [tok] printed with [%q]. *)
Definition TokenString (T : unicode.Tables) (tok : Z) : string :=
  if tok =? EOF then "EOF"
  else if tok =? Ident then "Ident"
  else if tok =? Int then "Int"
  else if tok =? Float then "Float"
  else if tok =? Char then "Char"
  else if tok =? String then "String"
  else if tok =? RawString then "RawString"
  else if tok =? Comment then "Comment"
  else strconv.QuoteRune T
         (if utf8.ValidRune tok then tok else utf8.RuneError).

End scanner.

(** ** descriptor.go: the font descriptor *)

Module Padding.
Record t : Type := mk { Up : Z; Right : Z; Down : Z; Left : Z }.
End Padding.

Module Spacing.
Record t : Type := mk { Horizontal : Z; Vertical : Z }.
End Spacing.

Module Info.
Record t : Type := mk {
  Face : string;
  Size : Z;
  Bold : bool;
  Italic : bool;
  Charset : string;
  Unicode : bool;
  StretchH : Z;
  Smooth : bool;
  AA : Z;
  Padding : Padding.t;
  Spacing : Spacing.t;
  Outline : Z
}.
(** The zero value of the struct. *)
Definition zero : t :=
  mk EmptyString 0 false false EmptyString false 0 false 0
     (Padding.mk 0 0 0 0) (Spacing.mk 0 0) 0.
End Info.

(** [type ChannelInfo int] with its constants. *)
Module ChannelInfo.
Definition t : Type := Z.
Definition Glyph : t := 0.
Definition Outline : t := 1.
Definition GlyphAndOutline : t := 2.
Definition Zero : t := 3.
Definition One : t := 4.
End ChannelInfo.

(** [type Channel int] with its constants. *)
Module Channel.
Definition t : Type := Z.
Definition Blue : t := 1.
Definition Green : t := 2.
Definition Red : t := 4.
Definition Alpha : t := 8.
Definition All : t := 15.
End Channel.

Module Common.
Record t : Type := mk {
  LineHeight : Z;
  Base : Z;
  ScaleW : Z;
  ScaleH : Z;
  Packed : bool;
  AlphaChannel : ChannelInfo.t;
  RedChannel : ChannelInfo.t;
  GreenChannel : ChannelInfo.t;
  BlueChannel : ChannelInfo.t
}.
Definition zero : t := mk 0 0 0 0 false 0 0 0 0.
(** [func (c *Common) Scale() image.Point]; the source reads [ScaleH]
    for both coordinates. *)
Definition Scale (c : t) : image.Point := image.Pt (ScaleH c) (ScaleH c).
End Common.

Module Page.
Record t : Type := mk { ID : Z; File : string }.
End Page.

Module Char.
Record t : Type := mk {
  ID : Z;
  X : Z;
  Y : Z;
  Width : Z;
  Height : Z;
  XOffset : Z;
  YOffset : Z;
  XAdvance : Z;
  Page : Z;
  Channel : Channel.t
}.
Definition Pos (c : t) : image.Point := image.Pt (X c) (Y c).
Definition Size (c : t) : image.Point := image.Pt (Width c) (Height c).
Definition Bounds (c : t) : image.Rectangle :=
  image.mkRectangle (Pos c) (image.Add (Pos c) (Size c)).
Definition Offset (c : t) : image.Point := image.Pt (XOffset c) (YOffset c).
End Char.

Module CharPair.
Record t : Type := mk { First : Z; Second : Z }.
End CharPair.

#[global] Instance CharPair_eq_dec : EqDecision CharPair.t.
Proof. solve_decision. Defined.
#[global] Instance CharPair_countable : Countable CharPair.t.
Proof.
  refine (inj_countable'
            (fun p => (CharPair.First p, CharPair.Second p))
            (fun q => CharPair.mk q.1 q.2) _).
  intros []; reflexivity.
Defined.

Module Kerning.
Record t : Type := mk { Amount : Z }.
End Kerning.

Module Descriptor.
Record t : Type := mk {
  Info : Info.t;
  Common : Common.t;
  Pages : gmap Z Page.t;
  Chars : gmap Z Char.t;
  Kerning : gmap CharPair.t Kerning.t
}.
End Descriptor.

(** ** errorlist.go *)

(** Go's [error] values as they occur in the package: the result of
    [errors.New], an [errorList], and the errors of the collaborators
    (opening, decoding and closing files), known by their message. *)
#[local] Unset Elimination Schemes.
Inductive error : Type :=
| errors_New (text : string)
| errorList_error (list : list error)
| external_error (text : string).
#[local] Set Elimination Schemes.

Module errorList.

(** [type errorList []error] *)
Definition t : Type := list error.

(** [func (list errorList) Err() error]; [None] is the nil error. *)
Definition Err (list : t) : option error :=
  if (length list =? 0)%nat then None else Some (errorList_error list).

(** The method [Error() string] of each kind of error; for an
    [errorList] it is [func (list errorList) Error() string]. *)
Fixpoint Error (e : error) : string :=
  match e with
  | errors_New text => text
  | errorList_error list =>
    match list with
    | [] => "no errors"
    | e0 :: _ => Error e0
    end
  | external_error text => text
  end.

End errorList.

(** ** parse.go: the tag parser *)

Module tag.

(** [type tag struct { name string; attrs map[string]string }] *)
Record t : Type := mk { name : string; attrs : gmap string string }.

(** [func (t *tag) stringAttr(name string) string] *)
Definition stringAttr (t : t) (name : string) : string :=
  default EmptyString (attrs t !! name).

(** [func (t *tag) intAttr(name string) int] *)
Definition intAttr (t : t) (name : string) : Z :=
  (strconv.Atoi (stringAttr t name)).1.

(** [func (t *tag) boolAttr(name string) bool] *)
Definition boolAttr (t : t) (name : string) : bool :=
  negb (intAttr t name =? 0).

(** The loop of [intListAttr]: [values[i] = value] for the parts in
    turn, until [i == len(values)]. *)
Fixpoint fillValues (values : list Z) (i : nat) (parts : list string)
    : list Z :=
  match parts with
  | [] => values
  | part :: rest =>
    if (i =? length values)%nat then values
    else fillValues
           (<[i := (strconv.Atoi (strings.TrimSpace part)).1]> values)
           (S i) rest
  end.

(** [func (t *tag) intListAttr(name string, n int) []int] *)
Definition intListAttr (t : t) (name : string) (n : nat) : list Z :=
  fillValues (replicate n 0) 0 (strings.Split (stringAttr t name) 44).

End tag.

Module tagsParser.

(** [type tagsParser struct] *)
Record t : Type := mk {
  errors : errorList.t;
  scanner : scanner.Scanner;
  pos : scanner.Position;
  tok : Z;
  lit : string
}.

Definition set_tok (p : t) (v : Z) : t :=
  mk (errors p) (scanner p) (pos p) v (lit p).
Definition set_scanner (p : t) (s : scanner.Scanner) : t :=
  mk (errors p) s (pos p) (tok p) (lit p).

(** The type [error], under a name that the method [error] below does
    not hide. *)
#[local] Abbreviation error_value := error (only parsing).

(** [func newError(pos scanner.Position, msg string) error] *)
Definition newError (pos : scanner.Position) (msg : string) : error :=
  errors_New (scanner.PositionString pos +:+ ": " +:+ msg).

(** [func (p *tagsParser) error(err error)] *)
Definition error (p : t) (err : error) : t :=
  mk (errors p ++ [err]) (scanner p) (pos p) (tok p) (lit p).

(** The message [`"="`] that [parse] passes to [expect]. *)
Definition quoted_equals : string :=
  Go.of_bytes [34; 61; 34].

(** What is left to parse: every [next] after a token other than [EOF]
    makes it smaller. *)
Definition measure (p : t) : nat :=
  2 * scanner.remaining (scanner p) (scanner.ch (scanner p))
  + (if tok p =? scanner.EOF then 0 else 1).

Section Parser.
Variable T : unicode.Tables.

(** [func (p *tagsParser) next()] *)
Definition next (p : t) : t :=
  let '(tok, s) := scanner.Scan T (scanner p) in
  mk (errors p) s (scanner.Pos s) tok (scanner.TokenText s).

(** [func (p *tagsParser) errorExpected(msg string)] *)
Definition errorExpected (p : t) (msg : string) : t :=
  error p (newError (pos p)
             ("expected " +:+ msg +:+ ", found "
              +:+ scanner.TokenString T (tok p))).

(** [func (p *tagsParser) expect(tok rune, msg string)] *)
Definition expect (p : t) (tok' : Z) (msg : string) : t :=
  next (if negb (tok p =? tok') then errorExpected p msg else p).

(** [func (p *tagsParser) parseIntList() string]; [sb] is the
    builder.  [None]: the loop did not end within [n] rounds. *)
Fixpoint parseIntList (n : nat) (p : t) (sb : string)
    : option (string * t) :=
  if (tok p =? scanner.Int) || (tok p =? 44) || (tok p =? 45) then
    match n with
    | O => None
    | S n' => parseIntList n' (next p) (sb +:+ lit p)
    end
  else Some (sb, p).

(** The inner loop of [parse]: the attributes of one line. *)
Fixpoint parseAttrs (n : nat) (p : t) (attrs : gmap string string)
    : option (t * gmap string string) :=
  if negb (tok p =? 10) && negb (tok p =? scanner.EOF) then
    match n with
    | O => None
    | S n' =>
      let attrName := lit p in
      let p := expect p scanner.Ident "attribute name" in
      let p := expect p 61 quoted_equals in
      if tok p =? scanner.String then
        match strconv.Unquote (lit p) with
        | None =>
          (* end this line, rest is garbage *)
          parseAttrs n' (set_tok p 10) attrs
        | Some value =>
          let '(c, s) := scanner.Peek (scanner p) in
          let '(value, s) :=
            if c =? 34
            then (* workaround for [letter=] followed by three quotes *)
                 (value +:+ Go.of_bytes [34], (scanner.Next s).2)
            else (value, s) in
          let p := next (set_scanner p s) in
          parseAttrs n' p (<[attrName := value]> attrs)
        end
      else if (tok p =? scanner.Int) || (tok p =? 45) then
        match parseIntList n' p EmptyString with
        | None => None
        | Some (value, p) => parseAttrs n' p (<[attrName := value]> attrs)
        end
      else
        let p := errorExpected p "string or integer attribute value" in
        parseAttrs n' p (<[attrName := EmptyString]> attrs)
    end
  else Some (p, attrs).

(** The outer loop of [parse]: one tag per round. *)
Fixpoint parseTags (n : nat) (p : t) (tags : list tag.t)
    : option (list tag.t * t) :=
  if negb (tok p =? scanner.EOF) then
    match n with
    | O => None
    | S n' =>
      let tagName := lit p in
      let p := expect p scanner.Ident "tag name" in
      match parseAttrs n' p ∅ with
      | None => None
      | Some (p, attrs) =>
        parseTags n' (next p) (tags ++ [tag.mk tagName attrs])
      end
    end
  else Some (tags, p).

(** The parser after the four lines of set-up of [parse] and its
    first [p.next()]. *)
Definition start (filename : string) (r : string) : t :=
  let s := scanner.Init r in
  let s := scanner.set_Filename s filename in
  let s := scanner.set_Whitespace s
             (Z.lxor (scanner.Whitespace s) (Z.shiftl 1 10)) in
  next (mk [] s (scanner.mkPosition EmptyString 0 0 0) 0 EmptyString).

(** A number of rounds that no input exhausts
    ([parse_terminates] below). *)
Definition rounds (r : string) : nat := 4 * String.length r + 8.

(** [parse] with the final state of the parser; [None] only if the
    loops were not done after [rounds r] rounds. *)
Definition run (filename : string) (r : string)
    : option (list tag.t * t) :=
  parseTags (rounds r) (start filename r) [].

(** [func (p *tagsParser) parse(filename string, r io.Reader)
     ([]tag, error)], for a parser that is the zero value and a reader
    that delivers [r]. *)
Definition parse (filename : string) (r : string)
    : option (list tag.t * option error_value) :=
  match run filename r with
  | None => None
  | Some (tags, p) => Some (tags, errorList.Err (errors p))
  end.

End Parser.

End tagsParser.

(** [type ControlData struct]: the name of [Descriptor] in parse.go; the
    two structs have the same fields. *)
Definition ControlData : Type := Descriptor.t.

(** [func paddingFrom(values []int) Padding] *)
Definition paddingFrom (values : list Z) : Padding.t :=
  Padding.mk (values !!! 0%nat) (values !!! 1%nat)
             (values !!! 2%nat) (values !!! 3%nat).

(** [func spacingFrom(values []int) Spacing] *)
Definition spacingFrom (values : list Z) : Spacing.t :=
  Spacing.mk (values !!! 0%nat) (values !!! 1%nat).

(** The body of the loop of [parseControlData]: the [switch tag.name]. *)
Definition buildTag (font : ControlData) (t : tag.t) : ControlData :=
  let name := tag.name t in
  if String.eqb name "info" then
    Descriptor.mk
      (Info.mk (tag.stringAttr t "face")
               (tag.intAttr t "size")
               (tag.boolAttr t "bold")
               (tag.boolAttr t "italic")
               (tag.stringAttr t "charset")
               (tag.boolAttr t "unicode")
               (tag.intAttr t "stretchH")
               (tag.boolAttr t "smooth")
               (tag.intAttr t "aa")
               (paddingFrom (tag.intListAttr t "padding" 4))
               (spacingFrom (tag.intListAttr t "spacing" 2))
               (tag.intAttr t "outline"))
      (Descriptor.Common font) (Descriptor.Pages font)
      (Descriptor.Chars font) (Descriptor.Kerning font)
  else if String.eqb name "common" then
    Descriptor.mk
      (Descriptor.Info font)
      (Common.mk (tag.intAttr t "lineHeight")
                 (tag.intAttr t "base")
                 (tag.intAttr t "scaleW")
                 (tag.intAttr t "scaleH")
                 (tag.boolAttr t "packed")
                 (tag.intAttr t "alphaChnl")
                 (tag.intAttr t "redChnl")
                 (tag.intAttr t "greenChnl")
                 (tag.intAttr t "blueChnl"))
      (Descriptor.Pages font) (Descriptor.Chars font)
      (Descriptor.Kerning font)
  else if String.eqb name "page" then
    let id := tag.intAttr t "id" in
    Descriptor.mk
      (Descriptor.Info font) (Descriptor.Common font)
      (<[id := Page.mk id (tag.stringAttr t "file")]> (Descriptor.Pages font))
      (Descriptor.Chars font) (Descriptor.Kerning font)
  else if String.eqb name "char" then
    let id := Go.rune_of_int (tag.intAttr t "id") in
    Descriptor.mk
      (Descriptor.Info font) (Descriptor.Common font)
      (Descriptor.Pages font)
      (<[id := Char.mk id
                 (tag.intAttr t "x")
                 (tag.intAttr t "y")
                 (tag.intAttr t "width")
                 (tag.intAttr t "height")
                 (tag.intAttr t "xoffset")
                 (tag.intAttr t "yoffset")
                 (tag.intAttr t "xadvance")
                 0 0]> (Descriptor.Chars font))
      (Descriptor.Kerning font)
  else if String.eqb name "kerning" then
    let pair := CharPair.mk (Go.rune_of_int (tag.intAttr t "first"))
                            (Go.rune_of_int (tag.intAttr t "second")) in
    Descriptor.mk
      (Descriptor.Info font) (Descriptor.Common font)
      (Descriptor.Pages font) (Descriptor.Chars font)
      (<[pair := Kerning.mk (tag.intAttr t "amount")]>
         (Descriptor.Kerning font))
  else font.

(** The [ControlData] that [parseControlData] starts from: zero [Info]
    and [Common], empty maps. *)
Definition emptyControlData : ControlData :=
  Descriptor.mk Info.zero Common.zero ∅ ∅ ∅.

Definition buildTags (tags : list tag.t) : ControlData :=
  fold_left buildTag tags emptyControlData.

(** The tag names that the [switch] of [parseControlData] has a case
    for. *)
Definition known_tag (t : tag.t) : bool :=
  String.eqb (tag.name t) "info" || String.eqb (tag.name t) "common"
  || String.eqb (tag.name t) "page" || String.eqb (tag.name t) "char"
  || String.eqb (tag.name t) "kerning".

(** The values of [int] and of [rune]. *)
Definition is_int (z : Z) : Prop := Go.int_min <= z <= Go.int_max.
Definition is_rune (z : Z) : Prop := - 2 ^ 31 <= z < 2 ^ 31.

(** A descriptor whose tables are keyed by the ids of their entries:
    a page and a glyph stand under their own [ID], and the keys have the
    types of the maps. *)
Definition keyed_by_id (d : Descriptor.t) : Prop :=
  map_Forall (fun k p => Page.ID p = k /\ is_int k) (Descriptor.Pages d)
  /\ map_Forall (fun k c => Char.ID c = k /\ is_rune k) (Descriptor.Chars d)
  /\ map_Forall (fun k _ => is_rune (CharPair.First k)
                            /\ is_rune (CharPair.Second k))
                (Descriptor.Kerning d).

(** A table of glyphs whose widths and heights are [int]s, as they are
    in every Go value. *)
Definition int_sizes (chars : gmap Z Char.t) : Prop :=
  map_Forall (fun _ c => is_int (Char.Width c) /\ is_int (Char.Height c))
             chars.

(** A descriptor all of whose glyphs have the zero [Page] and the zero
    [Channel]. *)
Definition on_page_0 (d : Descriptor.t) : Prop :=
  map_Forall (fun _ c => Char.Page c = 0 /\ Char.Channel c = 0)
             (Descriptor.Chars d).

Section Build.
Variable T : unicode.Tables.

(** [func parseControlData(filename string, r io.Reader)], which
    returns a [*ControlData] and an [error]: the pair returned, [None] being nil in
    either component.  The outer [option] is [None] only if the parser
    did not finish ([tagsParser.parse]). *)
Definition parseControlData (filename : string) (r : string)
    : option (option ControlData * option error) :=
  match tagsParser.parse T filename r with
  | None => None
  | Some (tags, err) =>
    match err with
    | Some e => Some (None, Some e)
    | None => Some (Some (buildTags tags), None)
    end
  end.

(** [func ReadControlData(r io.Reader)] *)
Definition ReadControlData (r : string) :=
  parseControlData "bmfont" r.

(** Modelled from the spec: [parseDescriptor], which [ReadDescriptor]
    and [LoadDescriptor] call, is not among the sources.  Section 4.2 of
    the specification describes the builder tag by tag as
    [parseControlData] of parse.go implements it, with [Descriptor] for
    [ControlData]. *)
Definition parseDescriptor (filename : string) (r : string)
    : option (option Descriptor.t * option error) :=
  parseControlData filename r.

(** [func ReadDescriptor(r io.Reader)] *)
Definition ReadDescriptor (r : string) := parseDescriptor "bmfont" r.

End Build.

(** ** bitmapfont.go: the text layout / draw engine *)

Module BitmapFont.
Record t (Image : Type) : Type := mk {
  Descriptor : Descriptor.t;
  PageSheets : gmap Z Image
}.
Arguments mk {Image} _ _.
Arguments Descriptor {Image} _.
Arguments PageSheets {Image} _.
End BitmapFont.

(** [type drawer interface { Draw(r, src, sp) }].  A sheet is an
    [image.Image] interface value: [None] is the nil interface that a
    lookup of a missing page index yields. *)
Class drawer (Image D : Type) : Type :=
  Draw : D -> image.Rectangle -> option Image -> image.Point -> D.
#[global] Hint Mode drawer - ! : typeclass_instances.

(** [type boundsMeasurer struct { bounds image.Rectangle }] *)
Record boundsMeasurer : Type := mkBoundsMeasurer { bounds : image.Rectangle }.

#[global] Instance boundsMeasurer_Draw {Image} : drawer Image boundsMeasurer :=
  fun m r src sp => mkBoundsMeasurer (image.Union (bounds m) r).

(** [type imageDrawer struct { draw.Image }]: the destination surface.
    [draw.Draw(dst, r, src, sp, draw.Over)] is the compositing primitive of
    the standard library, taken as the operation [draw_Over]. *)
Record imageDrawer (Surface : Type) : Type := mkImageDrawer { surface : Surface }.
Arguments mkImageDrawer {Surface} _.
Arguments surface {Surface} _.

Section Engine.
Context {Image : Type}.

Definition question_mark : Z := 63.
Definition newline : Z := 10.

(** [func (f *BitmapFont) char(r rune) (c Char, ok bool)] *)
Definition char (f : BitmapFont.t Image) (r : Z) : option Char.t :=
  match Descriptor.Chars (BitmapFont.Descriptor f) !! r with
  | Some c => Some c
  | None => Descriptor.Chars (BitmapFont.Descriptor f) !! question_mark
  end.

(** The variables of [drawText] that live across iterations. *)
Record loopState (D : Type) : Type := mkLoop {
  cursor : image.Point;
  prev : Z;
  dst : D
}.
Arguments mkLoop {D} _ _ _.
Arguments cursor {D} _.
Arguments prev {D} _.
Arguments dst {D} _.

(** The destination rectangle [dr] of the glyph [ch] for the cursor
    [c]. *)
Definition destRect (d : Descriptor.t) (c : image.Point) (ch : Char.t)
    : image.Rectangle :=
  let min := image.Pt
    (Go.int_add (image.X c) (Char.XOffset ch))
    (Go.int_add (Go.int_sub (image.Y c) (Common.Base (Descriptor.Common d)))
                (Char.YOffset ch)) in
  image.mkRectangle min (image.Add min (Char.Size ch)).

(** [cursor.X] after the glyph [ch] of the code point [r] at byte index
    [i]: the advance, and for [i > 0] the kerning of the pair
    [(prev, r)]. *)
Definition advance (d : Descriptor.t) (i prev r : Z) (x : Z) (ch : Char.t)
    : Z :=
  let x := Go.int_add x (Char.XAdvance ch) in
  if i >? 0 then
    match Descriptor.Kerning d !! CharPair.mk prev r with
    | Some kerning => Go.int_add x (Kerning.Amount kerning)
    | None => x
    end
  else x.

(** One iteration of the loop of [drawText], for the code point [r] at
    byte index [i]. *)
Definition drawStep {D} `{!drawer Image D} (f : BitmapFont.t Image)
    (pos : image.Point) (st : loopState D) (ir : Z * Z) : loopState D :=
  let '(i, r) := ir in
  let d := BitmapFont.Descriptor f in
  if r =? newline then
    mkLoop (image.mkPoint (image.X pos)
              (Go.int_add (image.Y (cursor st))
                 (Common.LineHeight (Descriptor.Common d))))
           (prev st) (dst st)
  else
    match char f r with
    | None => st
    | Some ch =>
      let sheet := BitmapFont.PageSheets f !! Char.Page ch in
      let dr := destRect d (cursor st) ch in
      let dst' := Draw (dst st) dr sheet (Char.Pos ch) in
      mkLoop (image.mkPoint
                (advance d i (prev st) r (image.X (cursor st)) ch)
                (image.Y (cursor st)))
             r dst'
    end.

(** The loop of [drawText] with all of its final state. *)
Definition drawLoop {D} `{!drawer Image D} (f : BitmapFont.t Image)
    (d0 : D) (pos : image.Point) (text : string) : loopState D :=
  fold_left (drawStep f pos) (utf8.range_string text) (mkLoop pos 0 d0).

(** [func (f *BitmapFont) drawText(dst drawer, pos image.Point, text string)];
    the result is the drawer after the calls made on it. *)
Definition drawText {D} `{!drawer Image D} (f : BitmapFont.t Image)
    (d0 : D) (pos : image.Point) (text : string) : D :=
  dst (drawLoop f d0 pos text).

(** [func (f *BitmapFont) MeasureText(text string) image.Rectangle] *)
Definition MeasureText (f : BitmapFont.t Image) (text : string)
    : image.Rectangle :=
  bounds (drawText f (mkBoundsMeasurer image.ZR) image.ZP text).

(** A drawer that records the arguments of every [Draw] call, in order. *)
Record drawCall : Type := mkCall {
  call_r : image.Rectangle;
  call_src : option Image;
  call_sp : image.Point
}.

#[global] Instance recorder_Draw : drawer Image (list drawCall) :=
  fun log r src sp => log ++ [mkCall r src sp].

Definition drawCalls (f : BitmapFont.t Image) (pos : image.Point)
    (text : string) : list drawCall :=
  drawText f ([] : list drawCall) pos text.

(** The effect on a drawer of a sequence of recorded calls. *)
Definition replay {D} `{!drawer Image D} (calls : list drawCall) (d0 : D)
    : D :=
  fold_left (fun d c => Draw d (call_r c) (call_src c) (call_sp c))
            calls d0.

Section Surface.
Context {Surface : Type}.
Variable draw_Over :
  Surface -> image.Rectangle -> option Image -> image.Point -> Surface.

(** [func (dst imageDrawer) Draw(r, src, sp)] *)
#[local] Instance imageDrawer_Draw : drawer Image (imageDrawer Surface) :=
  fun d r src sp => mkImageDrawer (draw_Over (surface d) r src sp).

(** [func (f *BitmapFont) DrawText(dst draw.Image, pos, text)]; the
    result is the destination image after the call. *)
Definition DrawText (f : BitmapFont.t Image) (dst0 : Surface)
    (pos : image.Point) (text : string) : Surface :=
  surface (drawText f (mkImageDrawer dst0) pos text).
End Surface.

End Engine.

Arguments mkLoop {D} _ _ _.
Arguments cursor {D} _.
Arguments prev {D} _.
Arguments dst {D} _.
Arguments mkCall {Image} _ _ _.
Arguments call_r {Image} _.
Arguments call_src {Image} _.
Arguments call_sp {Image} _.
Arguments drawCall : clear implicits.

(** Whether the loop of [drawText] draws the code point [r]: it is not
    a newline, and [char] finds a glyph for it or the fallback. *)
Definition drawn {Image} (f : BitmapFont.t Image) (r : Z) : bool :=
  negb (r =? newline)
  && match char f r with Some _ => true | None => false end.

(** The last code point among [rs] that is drawn, and [p0] when there
    is none. *)
Definition lastDrawn {Image} (f : BitmapFont.t Image) (p0 : Z)
    (rs : list (Z * Z)) : Z :=
  default p0 (last (List.filter (drawn f) (map snd rs))).

(** The glyphs that a text is drawn with, in order: one for every code
    point that is not a newline and has a glyph or the fallback. *)
Definition glyphs {Image} (f : BitmapFont.t Image) (text : string)
    : list Char.t :=
  omap (fun ir : Z * Z => if ir.2 =? newline then None else char f ir.2)
       (utf8.range_string text).

(** The number of newlines of a text, and the sum of the advances of
    the glyphs that it is drawn with. *)
Definition newlines (text : string) : Z :=
  Z.of_nat (length (List.filter (fun ir : Z * Z => ir.2 =? newline)
                      (utf8.range_string text))).

Definition advances {Image} (f : BitmapFont.t Image) (text : string) : Z :=
  fold_right Z.add 0 (map Char.XAdvance (glyphs f text)).

(** A recorded call with its rectangle moved by [p]. *)
Definition moveCall {Image} (p : image.Point) (c : drawCall Image)
    : drawCall Image :=
  mkCall (image.RectAdd (call_r c) p) (call_src c) (call_sp c).

(** A state of the recording loop moved by [p]: the cursor and every
    recorded rectangle. *)
Definition moveState {Image} (p : image.Point)
    (st : loopState (list (drawCall Image)))
    : loopState (list (drawCall Image)) :=
  mkLoop (image.Add (cursor st) p) (prev st) (map (moveCall p) (dst st)).

(** ** The earlier [BitmapFont] of the repository (the first of the
    unnamed sources): [DrawText] with the loop and the call of
    [draw.Draw] in one function *)

Module Legacy.

(** [type BitmapFont struct { Ctl *ControlData; Sheets map[int]image.Image }] *)
Record BitmapFont (Image : Type) : Type := mkBitmapFont {
  Ctl : ControlData;
  Sheets : gmap Z Image
}.
Arguments mkBitmapFont {Image} _ _.
Arguments Ctl {Image} _.
Arguments Sheets {Image} _.

Section Legacy.
Context {Image Surface : Type}.
Variable draw_Over :
  Surface -> image.Rectangle -> option Image -> image.Point -> Surface.

(** [func (f *BitmapFont) char(r rune) (c Char, ok bool)] *)
Definition char (f : BitmapFont Image) (r : Z) : option Char.t :=
  match Descriptor.Chars (Ctl f) !! r with
  | Some c => Some c
  | None => Descriptor.Chars (Ctl f) !! 63
  end.

(** One iteration of the loop of [DrawText]: the cursor, the previous
    code point and the destination image after it. *)
Definition step (f : BitmapFont Image) (pos : image.Point)
    (st : image.Point * Z * Surface) (ir : Z * Z)
    : image.Point * Z * Surface :=
  let '(cursor, prev, dst) := st in
  let '(i, r) := ir in
  if r =? 10 then
    (image.mkPoint (image.X pos)
       (Go.int_add (image.Y cursor)
          (Common.LineHeight (Descriptor.Common (Ctl f)))),
     prev, dst)
  else
    match char f r with
    | None => st
    | Some ch =>
      let sheet := Sheets f !! Char.Page ch in
      let min := image.Pt
        (Go.int_add (image.X cursor) (Char.XOffset ch))
        (Go.int_add
           (Go.int_sub (image.Y cursor)
              (Common.Base (Descriptor.Common (Ctl f))))
           (Char.YOffset ch)) in
      let dr := image.mkRectangle min (image.Add min (Char.Size ch)) in
      let dst := draw_Over dst dr sheet (Char.Pos ch) in
      let x := Go.int_add (image.X cursor) (Char.XAdvance ch) in
      let x :=
        if i >? 0 then
          match Descriptor.Kerning (Ctl f) !! CharPair.mk prev r with
          | Some kerning => Go.int_add x (Kerning.Amount kerning)
          | None => x
          end
        else x in
      (image.mkPoint x (image.Y cursor), r, dst)
    end.

(** [func (f *BitmapFont) DrawText(dst draw.Image, pos image.Point,
    text string)]: the destination image after the call. *)
Definition DrawText (f : BitmapFont Image) (dst : Surface)
    (pos : image.Point) (text : string) : Surface :=
  (fold_left (step f pos) (utf8.range_string text) (pos, 0, dst)).2.

End Legacy.

End Legacy.

(** ** bitmapfont.go: loading the page sheets *)

(** An [io.ReadCloser] as a sheet reader returns it: the bytes it
    delivers, and the error of its [Close], if any. *)
Record ReadCloser : Type := mkReadCloser {
  content : string;
  closeError : option error
}.

(** [type SheetReaderFunc func(filename string) (io.ReadCloser, error)]:
    a reader, or an error. *)
Definition SheetReaderFunc : Type := string -> ReadCloser + error.

(** [func closeChecked(c io.Closer, err *error)]: the new [*err]. *)
Definition closeChecked (c : ReadCloser) (err : option error)
    : option error :=
  match closeError c, err with
  | Some cErr, None => Some cErr
  | _, _ => err
  end.

(** The file of an entry of the page table. *)
Definition file_of (entry : Z * Page.t) : string := Page.File entry.2.

Section Loading.
Context {Image : Type}.

(** [image.Decode] of the standard library: an image, or an error. *)
Variable image_Decode : string -> Image + error.

(** [func (f SheetReaderFunc) read(filename string)
     (img image.Image, err error)]: the pair returned. *)
Definition SheetReaderFunc_read (f : SheetReaderFunc) (filename : string)
    : option Image * option error :=
  match f filename with
  | inr err => (None, Some err)
  | inl r =>
    let '(sheet, err) :=
      match image_Decode (content r) with
      | inl img => (Some img, None)
      | inr e => (None, Some e)
      end in
    (sheet, closeChecked r err)
  end.

(** The loop [for i, page := range desc.Pages] of [Read], over the
    entries of the map in the order [pages] in which the iteration
    delivers them.  [log] collects the file names that [sheets] is
    called with.  A nil image that comes without an error is not stored
    ([image_Decode] never delivers one). *)
Fixpoint readPages (sheets : SheetReaderFunc) (pages : list (Z * Page.t))
    (PageSheets : gmap Z Image) (log : list string)
    : (gmap Z Image + error) * list string :=
  match pages with
  | [] => (inl PageSheets, log)
  | (i, page) :: rest =>
    let log := log ++ [Page.File page] in
    match SheetReaderFunc_read sheets (Page.File page) with
    | (_, Some err) => (inr err, log)
    | (Some sheet, None) =>
      readPages sheets rest (<[i := sheet]> PageSheets) log
    | (None, None) => readPages sheets rest PageSheets log
    end
  end.

(** The sheet that [read] returns for the file of a page. *)
Definition pageSheet (sheets : SheetReaderFunc) (page : Page.t)
    : option Image :=
  (SheetReaderFunc_read sheets (Page.File page)).1.

(** Go leaves the order open in which [range] delivers the entries of a
    map: an iteration order is any enumeration of the entries. *)
Definition iteration_order (m : gmap Z Page.t) (l : list (Z * Page.t))
    : Prop :=
  l ≡ₚ map_to_list m.

(** [func Read(r io.Reader, sheets SheetReaderFunc)
     (f *BitmapFont, err error)], given the descriptor that
    [ReadDescriptor(r)] returned and the order [pages] of the iteration
    over its pages: the pair returned, and the file names that [sheets]
    was called with, in order. *)
Definition ReadFrom (desc : option Descriptor.t * option error)
    (sheets : SheetReaderFunc) (pages : list (Z * Page.t))
    : (option (BitmapFont.t Image) * option error) * list string :=
  match desc with
  | (_, Some err) => ((None, Some err), [])
  | (None, None) =>
    (* does not occur: [parseDescriptor] returns a descriptor whenever
       it returns no error *)
    ((None, None), [])
  | (Some desc, None) =>
    match readPages sheets pages ∅ [] with
    | (inr err, log) => ((None, Some err), log)
    | (inl PageSheets, log) =>
      ((Some (BitmapFont.mk desc PageSheets), None), log)
    end
  end.

(** The runs of [Read]: a result and a sequence of calls of [sheets]
    are possible for the input [r] if some iteration order of the page
    table leads to them. *)
Definition Read (T : unicode.Tables) (r : string) (sheets : SheetReaderFunc)
    (res : option (BitmapFont.t Image) * option error)
    (calls : list string) : Prop :=
  exists d pages,
    ReadDescriptor T r = Some d /\
    match d.1 with
    | Some desc => iteration_order (Descriptor.Pages desc) pages
    | None => pages = []
    end /\
    ReadFrom d sheets pages = (res, calls).

End Loading.

(** ** Loading from files: [Load], [LoadDescriptor], [LoadControlData]

    The file system and the package path/filepath are collaborators of
    the package.  [os.Open] is taken as a function from paths to open
    files or errors (the files do not change while a font is loaded);
    [filepath.Base], the directory that [filepath.Split] returns, and
    [filepath.Join] are taken as functions on paths. *)

Section Files.
Context {Image : Type}.
Variable image_Decode : string -> Image + error.
Variable os_Open : string -> ReadCloser + error.
Variable filepath_Base : string -> string.
Variable filepath_Split_dir : string -> string.
Variable filepath_Join : string -> string -> string.
Variable T : unicode.Tables.

(** [func LoadControlData(path string)] of parse.go, which returns a
    [*ControlData] and an [error].  The file is closed by
    [defer file.Close()]: the error of closing it is dropped. *)
Definition LoadControlData (path : string)
    : option (option ControlData * option error) :=
  match os_Open path with
  | inr err => Some (None, Some err)
  | inl file => parseControlData T (filepath_Base path) (content file)
  end.

(** [func LoadDescriptor(path string) (d *Descriptor, err error)].  The
    file is closed by [defer closeChecked(f, &err)], which runs after
    the results have been set and may set [err]. *)
Definition LoadDescriptor (path : string)
    : option (option Descriptor.t * option error) :=
  match os_Open path with
  | inr err => Some (None, Some err)
  | inl f =>
    match parseDescriptor T (filepath_Base path) (content f) with
    | None => None
    | Some (d, err) => Some (d, closeChecked f err)
    end
  end.

(** [func fileSheets(directory string) SheetReaderFunc] *)
Definition fileSheets (directory : string) : SheetReaderFunc :=
  fun filename =>
    match os_Open (filepath_Join directory filename) with
    | inr err => inr err
    | inl f => inl f
    end.

(** [func Load(path string) (f *BitmapFont, err error)]: the pairs that
    a run can return.  [defer closeChecked(file, &err)] runs after
    [Read] has set both results. *)
Definition Load (path : string)
    (res : option (BitmapFont.t Image) * option error) : Prop :=
  match os_Open path with
  | inr err => res = (None, Some err)
  | inl file =>
    exists res0 calls,
      Read image_Decode T (content file)
           (fileSheets (filepath_Split_dir path)) res0 calls
      /\ res = (res0.1, closeChecked file res0.2)
  end.

End Files.

(** ** Descriptor text that is well formed

    The text of a descriptor as it is written line by line: a tag name,
    then the attributes, each a space, a name, the sign [=] and a value,
    then a newline.  Names are made of ASCII letters, digits and
    underscores and do not start with a digit.  A value is a string in
    double quotes without escapes, or a list of numbers: numbers in
    decimal digits, signs [-] and commas without white space, starting
    with a number or a sign.  Texts are sequences of bytes. *)

Definition letter_byte (b : Z) : bool :=
  utf8.between 65 90 b || utf8.between 97 122 b || (b =? 95).
Definition digit_byte (b : Z) : bool := utf8.between 48 57 b.
(** A printable byte of ASCII other than the double quote and the
    backslash. *)
Definition plain_byte (b : Z) : bool :=
  utf8.between 32 126 b && negb (b =? 34) && negb (b =? 92).

Definition name_bytes (w : list Z) : bool :=
  match w with
  | [] => false
  | c :: w' =>
    letter_byte c && forallb (fun b => letter_byte b || digit_byte b) w'
  end.
Definition number_bytes (w : list Z) : bool :=
  match w with
  | [] => false
  | _ :: _ => forallb digit_byte w
  end.

(** The tokens of a list of numbers. *)
Inductive intToken : Type :=
| Num (digits : list Z)
| Minus
| Comma.

Definition tokenText (t : intToken) : list Z :=
  match t with
  | Num digits => digits
  | Minus => [45]
  | Comma => [44]
  end.

Definition tokenKind (t : intToken) : Z :=
  match t with
  | Num _ => scanner.Int
  | Minus => 45
  | Comma => 44
  end.

(** Numbers have digits, and no two numbers stand side by side. *)
Fixpoint int_tokens_ok (ts : list intToken) : bool :=
  match ts with
  | [] => true
  | Num digits :: ts' =>
    number_bytes digits
    && match ts' with Num _ :: _ => false | _ => true end
    && int_tokens_ok ts'
  | _ :: ts' => int_tokens_ok ts'
  end.

Inductive value : Type :=
| Str (content : list Z)
| Ints (tokens : list intToken).

Definition value_ok (v : value) : bool :=
  match v with
  | Str content => forallb plain_byte content
  | Ints tokens =>
    match tokens with
    | [] | Comma :: _ => false
    | _ => int_tokens_ok tokens
    end
  end.

Definition valueText (v : value) : list Z :=
  match v with
  | Str content => [34] ++ content ++ [34]
  | Ints tokens => concat (map tokenText tokens)
  end.

(** The value that [parse] stores: the content of the string, and the
    text of the list of numbers. *)
Definition valueOf (v : value) : string :=
  match v with
  | Str content => Go.of_bytes content
  | Ints tokens => Go.of_bytes (concat (map tokenText tokens))
  end.

(** A line: the name of the tag and its attributes, in order. *)
Definition line : Type := list Z * list (list Z * value).

Definition well_formed (l : line) : bool :=
  name_bytes l.1
  && forallb (fun kv : list Z * value => name_bytes kv.1 && value_ok kv.2)
             l.2.

Definition attrText (kv : list Z * value) : list Z :=
  [32] ++ kv.1 ++ [61] ++ valueText kv.2.
Definition lineText (l : line) : list Z :=
  l.1 ++ concat (map attrText l.2) ++ [10].
Definition linesText (ls : list line) : list Z := concat (map lineText ls).

(** The attributes of a line as [parse] collects them, and its tag. *)
Definition setAttr (attrs : gmap string string) (kv : list Z * value)
    : gmap string string :=
  <[Go.of_bytes kv.1 := valueOf kv.2]> attrs.
Definition tagOf (l : line) : tag.t :=
  tag.mk (Go.of_bytes l.1) (fold_left setAttr l.2 ∅).

(** The scanner as [parse] sets it up, between two tokens: it has read
    [done] and the character after it, which it holds as its look-ahead
    character; [post] starts with that character.  At the end of the
    input, [post] is empty and the look-ahead character is [EOF]. *)
Definition parse_Whitespace : Z :=
  Z.lxor scanner.GoWhitespace (Z.shiftl 1 10).

Definition ahead (s : scanner.Scanner) (done post : list Z) : Prop :=
  scanner.srcBuf s = done ++ post
  /\ scanner.Mode s = scanner.GoTokens
  /\ scanner.Whitespace s = parse_Whitespace
  /\ match post with
     | [] =>
       scanner.ch s = scanner.EOF
       /\ scanner.src (scanner.rd s) = []
       /\ scanner.srcPos (scanner.rd s) = Z.of_nat (length done)
       /\ scanner.lastCharLen (scanner.rd s) = 0
     | c :: rest =>
       scanner.ch s = c
       /\ scanner.src (scanner.rd s) = rest
       /\ scanner.srcPos (scanner.rd s) = Z.of_nat (length done) + 1
       /\ scanner.lastCharLen (scanner.rd s) = 1
     end.

(** The parser in front of the attributes [kvs] of a line, with [more]
    behind the line: its token is the name of the first attribute, or the
    newline of the line when there is no attribute left, and its scanner
    is behind that token. *)
Definition before_attrs (p : tagsParser.t) (done : list Z)
    (kvs : list (list Z * value)) (more : list Z) : Prop :=
  match kvs with
  | [] =>
    tagsParser.tok p = 10 /\ ahead (tagsParser.scanner p) done more
  | kv :: kvs' =>
    tagsParser.tok p = scanner.Ident
    /\ tagsParser.lit p = Go.of_bytes kv.1
    /\ ahead (tagsParser.scanner p) done
         ([61] ++ valueText kv.2 ++ concat (map attrText kvs') ++ 10 :: more)
  end.

(** The parser in a list of numbers, at the token [t] with the tokens
    [ts] and then [rest] behind it. *)
Definition at_int_token (p : tagsParser.t) (done : list Z) (t : intToken)
    (ts : list intToken) (rest : list Z) : Prop :=
  tagsParser.tok p = tokenKind t
  /\ tagsParser.lit p = Go.of_bytes (tokenText t)
  /\ ahead (tagsParser.scanner p) done (concat (map tokenText ts) ++ rest).

(** The parser in front of the lines [ls]: its token is the name of the
    tag of the first line, or [EOF] when there is no line left. *)
Definition before_lines (p : tagsParser.t) (done : list Z)
    (ls : list line) : Prop :=
  match ls with
  | [] => tagsParser.tok p = scanner.EOF
  | l :: ls' =>
    tagsParser.tok p = scanner.Ident
    /\ tagsParser.lit p = Go.of_bytes l.1
    /\ ahead (tagsParser.scanner p) done
         (concat (map attrText l.2) ++ 10 :: linesText ls')
  end.

(** ** Sample fonts and inputs for the examples *)

Module Sample.

(** Glyphs: 'A' with xadvance 10, 'V' with xadvance 8, and '?'. *)
Definition chA : Char.t := Char.mk 65 0 0 7 9 1 2 10 0 0.
Definition chV : Char.t := Char.mk 86 7 0 6 9 3 2 8 0 0.
Definition chQ : Char.t := Char.mk 63 13 0 5 9 1 2 6 0 0.

Definition common : Common.t := Common.mk 20 16 256 256 false 0 0 0 0.

(** 'A' and 'V' with the kerning pair (A,V) of amount -2; no '?'. *)
Definition descAV : Descriptor.t :=
  Descriptor.mk Info.zero common
    (<[0 := Page.mk 0 "sheet.png"]> ∅)
    (<[65 := chA]> (<[86 := chV]> ∅))
    (<[CharPair.mk 65 86 := Kerning.mk (-2)]> ∅).

(** The same with the fallback glyph '?'. *)
Definition descAVQ : Descriptor.t :=
  Descriptor.mk Info.zero common
    (<[0 := Page.mk 0 "sheet.png"]> ∅)
    (<[63 := chQ]> (<[65 := chA]> (<[86 := chV]> ∅)))
    (<[CharPair.mk 65 86 := Kerning.mk (-2)]> ∅).

(** Fonts whose one sheet is the image [tt]. *)
Definition fontAV : BitmapFont.t unit :=
  BitmapFont.mk descAV (<[0 := tt]> ∅).
Definition fontAVQ : BitmapFont.t unit :=
  BitmapFont.mk descAVQ (<[0 := tt]> ∅).

(** Character tables that know no letter, digit or printable character
    above ASCII; the sample inputs are ASCII. *)
Definition tables : unicode.Tables :=
  unicode.mkTables (fun _ => false) (fun _ => false) (fun _ => false).

Definition dq : string := Go.of_bytes [34].
Definition nl : string := Go.of_bytes [10].

(** The line [page id 3], alone and followed by a well-formed line. *)
Definition no_equals : string := "page id 3".
Definition no_equals_then_page : string :=
  "page id 3" +:+ nl +:+ "page id=4 file=" +:+ dq +:+ "a.png" +:+ dq +:+ nl.

(** A [char] line whose [letter] is a double quote, written as three
    double quotes: at the end of the input, and followed by another
    attribute and a second line. *)
Definition quote_letter : string :=
  "char id=34 letter=" +:+ dq +:+ dq +:+ dq.
Definition quote_letter_then_more : string :=
  "char id=34 letter=" +:+ dq +:+ dq +:+ dq +:+ " x=5" +:+ nl
  +:+ "char id=35 x=7" +:+ nl.

(** A quoted value with the escape sequence backslash-q, which
    [strconv.Unquote] rejects: as the last attribute of the input, and
    followed by another attribute and a second line.  And a quoted value
    whose closing quote is missing. *)
Definition bad_string : string :=
  dq +:+ Go.of_bytes [92; 113] +:+ dq.
Definition bad_escape_last : string :=
  "info size=3 face=" +:+ bad_string.
Definition bad_escape_then_more : string :=
  "info size=3 face=" +:+ bad_string +:+ " bold=1" +:+ nl
  +:+ "char id=1" +:+ nl.
Definition unterminated_then_more : string :=
  "info size=3 face=" +:+ dq +:+ "abc bold=1" +:+ nl
  +:+ "char id=1" +:+ nl.

(** Two lines with errors around a well-formed one. *)
Definition errors_on_two_lines : string :=
  "page id 3" +:+ nl +:+ "char id=65 x=1" +:+ nl +:+ "kerning first=" +:+ nl.

(** A [char] line with [page] and [chnl] attributes, and the descriptor
    that [parseControlData] builds from it. *)
Definition char_on_page_1 : string :=
  "char id=65 x=1 y=2 width=3 height=4 xoffset=0 yoffset=0 xadvance=5"
  +:+ " page=1 chnl=15" +:+ nl.
Definition desc_char_on_page_1 : Descriptor.t :=
  match parseControlData tables "bmfont" char_on_page_1 with
  | Some (Some d, _) => d
  | _ => emptyControlData
  end.


(** A descriptor with the pages 0 and 1, a sheet reader that opens every
    file without error, one that fails on the file of page 0, and a
    decoder that accepts everything. *)
Definition two_pages : string :=
  "page id=0 file=" +:+ dq +:+ "a.png" +:+ dq +:+ nl
  +:+ "page id=1 file=" +:+ dq +:+ "b.png" +:+ dq +:+ nl.
Definition open_any : SheetReaderFunc :=
  fun filename => inl (mkReadCloser filename None).
Definition open_but_a : SheetReaderFunc :=
  fun filename =>
    if String.eqb filename "a.png"
    then inr (external_error "open a.png: no such file or directory")
    else inl (mkReadCloser filename None).
Definition decode_any : string -> unit + error := fun _ => inl tt.

(** The descriptor of [two_pages], and the font that loading it with
    [open_any] and [decode_any] gives. *)
Definition two_pages_desc : Descriptor.t :=
  match ReadDescriptor tables two_pages with
  | Some (Some d, _) => d
  | _ => emptyControlData
  end.
Definition two_pages_font : BitmapFont.t unit :=
  BitmapFont.mk two_pages_desc (<[0 := tt]> (<[1 := tt]> ∅)).
Definition two_pages_result : option (BitmapFont.t unit) * option error :=
  (Some two_pages_font, None).

(** A file system with the descriptor [two_pages] in [font.fnt], whose
    closing fails, and with every other file readable; paths are file
    names. *)
Definition close_failed : error := external_error "close font.fnt: failed".
Definition open_font : string -> ReadCloser + error :=
  fun path =>
    if String.eqb path "font.fnt"
    then inl (mkReadCloser two_pages (Some close_failed))
    else inl (mkReadCloser path None).
Definition base_id : string -> string := fun path => path.
Definition dir_empty : string -> string := fun _ => EmptyString.
Definition join_second : string -> string -> string := fun _ name => name.

(** 'A' and 'V' without kerning pairs. *)
Definition no_kerning : Descriptor.t :=
  Descriptor.mk Info.zero common
    (<[0 := Page.mk 0 "sheet.png"]> ∅)
    (<[65 := chA]> (<[86 := chV]> ∅))
    ∅.

(** Four well-formed lines:
    [info face=(Arial Bold) size=-32 padding=0,1,2,3] with the face in
    double quotes, [common lineHeight=20 base=16], a line without
    attributes, and [char id=65 x=1 xoffset=-2 xadvance=10]. *)
Definition four_lines : list line :=
  [(Go.bytes "info",
    [(Go.bytes "face", Str (Go.bytes "Arial Bold"));
     (Go.bytes "size", Ints [Minus; Num (Go.bytes "32")]);
     (Go.bytes "padding",
      Ints [Num (Go.bytes "0"); Comma; Num (Go.bytes "1"); Comma;
            Num (Go.bytes "2"); Comma; Num (Go.bytes "3")])]);
   (Go.bytes "common", [(Go.bytes "lineHeight", Ints [Num (Go.bytes "20")]);
                        (Go.bytes "base", Ints [Num (Go.bytes "16")])]);
   (Go.bytes "kerning", []);
   (Go.bytes "char", [(Go.bytes "id", Ints [Num (Go.bytes "65")]);
                      (Go.bytes "x", Ints [Num (Go.bytes "1")]);
                      (Go.bytes "xoffset", Ints [Minus; Num (Go.bytes "2")]);
                      (Go.bytes "xadvance", Ints [Num (Go.bytes "10")])])].

(** The text [AZ], a newline, [V]: a letter without a glyph before the
    newline. *)
Definition skipped_letter : string := "AZ" +:+ nl +:+ "V".

End Sample.

(* ===================================================================== *)
(** * Part II: properties                                                 *)
(* ===================================================================== *)


(** ** Go integers *)

Section GoIntFacts.

Lemma wrap_small (z : Z) :
  Go.int_min <= z <= Go.int_max -> Go.wrap 64 z = z.
Proof.
  unfold Go.wrap, Go.int_min, Go.int_max. intros H.
  rewrite Z.mod_small by lia. lia.
Qed.

Lemma int_add_exact (a b : Z) :
  Go.int_min <= a + b <= Go.int_max -> Go.int_add a b = a + b.
Proof. apply wrap_small. Qed.

(** Two sums that differ by less than [2^64] stay different after
    wrap-around. *)
Lemma int_add_neq (a b c : Z) :
  a <> b -> - 2 ^ 64 < a - b < 2 ^ 64 ->
  Go.int_add a c <> Go.int_add b c.
Proof.
  unfold Go.int_add, Go.wrap. intros Hne Hd Heq.
  assert (Hm : (a + c + 2 ^ (64 - 1)) mod 2 ^ 64
               = (b + c + 2 ^ (64 - 1)) mod 2 ^ 64) by lia.
  apply Z.cong_iff_0 in Hm.
  replace (a + c + 2 ^ (64 - 1) - (b + c + 2 ^ (64 - 1))) with (a - b)
    in Hm by ring.
  destruct (Z.lt_trichotomy (a - b) 0) as [Hlt | [H0 | Hgt]].
  - rewrite <- (Z.mod_unique_pos (a - b) (2 ^ 64) (-1) (a - b + 2 ^ 64))
      in Hm; lia.
  - lia.
  - rewrite Z.mod_small in Hm; lia.
Qed.

End GoIntFacts.

(** ** The layout engine *)

Section EngineFacts.
Context {Image : Type}.
Implicit Types (f : BitmapFont.t Image) (pos : image.Point).

Lemma drawStep_newline {D} `{!drawer Image D} f pos
    (st : loopState D) (i : Z) :
  drawStep f pos st (i, newline)
  = mkLoop (image.mkPoint (image.X pos)
              (Go.int_add (image.Y (cursor st))
                 (Common.LineHeight
                    (Descriptor.Common (BitmapFont.Descriptor f)))))
           (prev st) (dst st).
Proof. reflexivity. Qed.

Lemma drawStep_skip {D} `{!drawer Image D} f pos
    (st : loopState D) (i r : Z) :
  r <> newline -> char f r = None -> drawStep f pos st (i, r) = st.
Proof.
  intros Hr Hc. unfold drawStep.
  destruct (Z.eqb_spec r newline); [contradiction |]. rewrite Hc.
  reflexivity.
Qed.

Lemma drawStep_glyph {D} `{!drawer Image D} f pos
    (st : loopState D) (i r : Z) (ch : Char.t) :
  r <> newline -> char f r = Some ch ->
  drawStep f pos st (i, r)
  = mkLoop
      (image.mkPoint
         (advance (BitmapFont.Descriptor f) i (prev st) r
            (image.X (cursor st)) ch)
         (image.Y (cursor st)))
      r
      (Draw (dst st) (destRect (BitmapFont.Descriptor f) (cursor st) ch)
         (BitmapFont.PageSheets f !! Char.Page ch) (Char.Pos ch)).
Proof.
  intros Hr Hc. unfold drawStep.
  destruct (Z.eqb_spec r newline); [contradiction |]. rewrite Hc.
  reflexivity.
Qed.

Lemma char_present f (r : Z) (ch : Char.t) :
  Descriptor.Chars (BitmapFont.Descriptor f) !! r = Some ch ->
  char f r = Some ch.
Proof. intros H. unfold char. rewrite H. reflexivity. Qed.

Lemma char_fallback f (r : Z) :
  Descriptor.Chars (BitmapFont.Descriptor f) !! r = None ->
  char f r = Descriptor.Chars (BitmapFont.Descriptor f) !! question_mark.
Proof. intros H. unfold char. rewrite H. reflexivity. Qed.

Lemma replay_record {D} `{!drawer Image D} (d0 : D)
    (log : list (drawCall Image)) r src sp :
  replay (Draw log r src sp) d0 = Draw (replay log d0) r src sp.
Proof.
  change (Draw log r src sp) with (log ++ [mkCall r src sp]).
  unfold replay. rewrite fold_left_app. reflexivity.
Qed.

(** A drawer sees the calls that the recording drawer logs, in the same
    order, and the cursor and the previous code point evolve alike:
    one round of the loop. *)
Lemma drawStep_replay {D} `{!drawer Image D} f pos (d0 : D)
    (st : loopState (list (drawCall Image))) (ir : Z * Z) :
  drawStep f pos (mkLoop (cursor st) (prev st) (replay (dst st) d0)) ir
  = let st' := drawStep f pos st ir in
    mkLoop (cursor st') (prev st') (replay (dst st') d0).
Proof.
  destruct ir as [i r]. unfold drawStep. simpl.
  destruct (r =? newline); [reflexivity |].
  destruct (char f r) as [ch |]; [| reflexivity].
  simpl. f_equal. symmetry. apply replay_record.
Qed.

Lemma drawSteps_replay {D} `{!drawer Image D} f pos (d0 : D)
    (rs : list (Z * Z)) (st : loopState (list (drawCall Image))) :
  fold_left (drawStep f pos) rs
    (mkLoop (cursor st) (prev st) (replay (dst st) d0))
  = let st' := fold_left (drawStep f pos) rs st in
    mkLoop (cursor st') (prev st') (replay (dst st') d0).
Proof.
  revert st. induction rs as [| ir rs IH]; intros st; [reflexivity |].
  simpl fold_left. rewrite drawStep_replay. apply IH.
Qed.

(** [drawText] on any drawer is the replay of the calls that
    [drawCalls] lists. *)
Lemma drawText_replay {D} `{!drawer Image D} f (d0 : D) pos text :
  drawText f d0 pos text = replay (drawCalls f pos text) d0.
Proof.
  unfold drawCalls, drawText, drawLoop.
  pose proof (drawSteps_replay f pos d0 (utf8.range_string text)
                (mkLoop pos 0 [])) as H.
  simpl in H. unfold replay at 1 in H. simpl in H. rewrite H. reflexivity.
Qed.

(** The cursor and the previous code point do not depend on the
    drawer. *)
Lemma drawLoop_cursor {D} `{!drawer Image D} f (d0 : D) pos text :
  cursor (drawLoop f d0 pos text)
  = cursor (drawLoop f ([] : list (drawCall Image)) pos text)
  /\ prev (drawLoop f d0 pos text)
     = prev (drawLoop f ([] : list (drawCall Image)) pos text).
Proof.
  unfold drawLoop.
  pose proof (drawSteps_replay f pos d0 (utf8.range_string text)
                (mkLoop pos 0 [])) as H.
  simpl in H. unfold replay at 1 in H. simpl in H. rewrite H. auto.
Qed.

End EngineFacts.

(** ** Claims about the layout engine *)

Section EngineClaims.
Context {Image : Type}.
Implicit Types (f : BitmapFont.t Image) (pos : image.Point).

Lemma range_AV : utf8.range_string "AV" = [(0, 65); (1, 86)].
Proof. reflexivity. Qed.

Lemma range_Z : utf8.range_string "Z" = [(0, 90)].
Proof. reflexivity. Qed.

Lemma range_question : utf8.range_string "?" = [(0, 63)].
Proof. reflexivity. Qed.

Lemma bounds_replay (calls : list (drawCall Image)) (m : boundsMeasurer) :
  bounds (replay calls m)
  = fold_left image.Union (map call_r calls) (bounds m).
Proof.
  revert m. induction calls as [| c calls IH]; intros m; [reflexivity |].
  unfold replay in *. simpl. rewrite IH. reflexivity.
Qed.

Lemma surface_replay {Surface} (draw_Over :
    Surface -> image.Rectangle -> option Image -> image.Point -> Surface)
    (calls : list (drawCall Image)) (d : imageDrawer Surface) :
  surface (replay (drawer0 := imageDrawer_Draw draw_Over) calls d)
  = fold_left (fun s c => draw_Over s (call_r c) (call_src c) (call_sp c))
              calls (surface d).
Proof.
  revert d. induction calls as [| c calls IH]; intros d; [reflexivity |].
  unfold replay in *. simpl. rewrite IH. reflexivity.
Qed.

(** C2.  For every font and every text, [MeasureText] returns the
    union (by [Rectangle.Union], starting from the zero rectangle) of
    the destination rectangles that [DrawText] at position (0,0) hands
    to its sink, in order; [DrawText] composites exactly those calls
    onto the destination.  Both are [drawText] with another drawer;
    [MeasureText] has no destination to act on. *)
Theorem MeasureText_is_union_of_DrawText_rectangles {Surface}
    (draw_Over :
       Surface -> image.Rectangle -> option Image -> image.Point -> Surface)
    f (dst0 : Surface) (text : string) :
  MeasureText f text
  = fold_left image.Union
      (map call_r (drawCalls f image.ZP text)) image.ZR
  /\ DrawText draw_Over f dst0 image.ZP text
     = fold_left
         (fun s c => draw_Over s (call_r c) (call_src c) (call_sp c))
         (drawCalls f image.ZP text) dst0.
Proof.
  split.
  - unfold MeasureText. rewrite drawText_replay, bounds_replay.
    reflexivity.
  - unfold DrawText. rewrite drawText_replay, surface_replay.
    reflexivity.
Qed.

(** C1.  What the code does for the text "AV" when 'A' has xadvance 10,
    'V' has xadvance 8 and the pair (A,V) has kerning -2, drawn from
    x = 0: the rectangle of 'V' starts at [10 + V.xoffset], which is not
    [8 + V.xoffset]; the kerning amount of the pair reaches the cursor
    only after 'V' has been placed. *)
Theorem kerning_of_pair_added_after_second_glyph
    f (chA chV : Char.t) (y : Z) :
  Descriptor.Chars (BitmapFont.Descriptor f) !! 65 = Some chA ->
  Descriptor.Chars (BitmapFont.Descriptor f) !! 86 = Some chV ->
  Char.XAdvance chA = 10 ->
  Char.XAdvance chV = 8 ->
  Descriptor.Kerning (BitmapFont.Descriptor f) !! CharPair.mk 65 86
    = Some (Kerning.mk (-2)) ->
  exists cA cV,
    drawCalls f (image.Pt 0 y) "AV" = [cA; cV]
    /\ image.X (image.Min (call_r cV)) = Go.int_add 10 (Char.XOffset chV)
    /\ image.X (image.Min (call_r cV)) <> Go.int_add 8 (Char.XOffset chV)
    /\ image.X (cursor (drawLoop f ([] : list (drawCall Image))
                          (image.Pt 0 y) "AV")) = 16.
Proof.
  intros HA HV HxA HxV HK.
  unfold drawCalls, drawText, drawLoop. rewrite range_AV.
  cbn [fold_left].
  rewrite (drawStep_glyph f _ _ 0 65 chA), (drawStep_glyph f _ _ 1 86 chV)
    by (try apply char_present; done).
  cbn [cursor prev dst image.X image.Y image.Pt].
  unfold advance. rewrite HK, HxA, HxV. cbn [Kerning.Amount].
  change (0 >? 0) with false. change (1 >? 0) with true. cbv iota.
  eexists _, _. split; [reflexivity |].
  unfold destRect. cbn [call_r image.Min image.X image.Pt].
  change (Go.int_add 0 10) with 10.
  split; [reflexivity |]. split.
  - apply int_add_neq; lia.
  - reflexivity.
Qed.

Lemma MeasureText_single f (r : Z) (text : string) :
  utf8.range_string text = [(0, r)] ->
  MeasureText f text
  = bounds (dst (drawStep f image.ZP
                   (mkLoop image.ZP 0 (mkBoundsMeasurer image.ZR)) (0, r))).
Proof.
  intros H. unfold MeasureText, drawText, drawLoop. rewrite H.
  reflexivity.
Qed.

(** C3.  In a font without a glyph for 'Z' (whether or not it has one
    for 'A'): if there is a glyph for '?', measuring "Z" gives the
    rectangle that measuring "?" gives; if there is none, measuring "Z"
    gives the zero rectangle, which is empty, drawing "Z" makes no call
    to the drawer, and the iteration for 'Z' leaves the whole loop
    state (cursor, previous code point, drawer) as it was. *)
Theorem missing_glyph_falls_back_or_is_skipped f :
  Descriptor.Chars (BitmapFont.Descriptor f) !! 90 = None ->
  (is_Some (Descriptor.Chars (BitmapFont.Descriptor f) !! question_mark) ->
   MeasureText f "Z" = MeasureText f "?")
  /\ (Descriptor.Chars (BitmapFont.Descriptor f) !! question_mark = None ->
      MeasureText f "Z" = image.ZR
      /\ image.Empty (MeasureText f "Z") = true
      /\ (forall pos, drawCalls f pos "Z" = [])
      /\ (forall D (Dr : drawer Image D) pos (st : loopState D) (i : Z),
            drawStep f pos st (i, 90) = st)).
Proof.
  intros HZ. split.
  - intros [q Hq].
    rewrite (MeasureText_single f 90 "Z" range_Z),
            (MeasureText_single f 63 "?" range_question).
    rewrite !(drawStep_glyph f _ _ 0 _ q); try done.
    + apply char_present. exact Hq.
    + rewrite char_fallback by exact HZ. exact Hq.
  - intros Hq.
    assert (Hskip : forall D (Dr : drawer Image D) pos (st : loopState D) i,
               drawStep f pos st (i, 90) = st).
    { intros. apply drawStep_skip; [done |].
      rewrite char_fallback by exact HZ. exact Hq. }
    assert (HM : MeasureText f "Z" = image.ZR).
    { rewrite (MeasureText_single f 90 "Z" range_Z), Hskip. reflexivity. }
    split; [exact HM |]. split; [rewrite HM; reflexivity |].
    split; [| exact Hskip].
    intros pos. unfold drawCalls, drawText, drawLoop. rewrite range_Z.
    cbn [fold_left]. rewrite Hskip. reflexivity.
Qed.

(** The previous code point is the one drawn last. *)
Lemma lastDrawn_cons f (p0 i r : Z) (rs : list (Z * Z)) :
  lastDrawn f p0 ((i, r) :: rs)
  = lastDrawn f (if drawn f r then r else p0) rs.
Proof.
  unfold lastDrawn. cbn [map snd List.filter].
  destruct (drawn f r); [| reflexivity].
  rewrite last_cons.
  destruct (last (List.filter (drawn f) (map snd rs))); reflexivity.
Qed.

Lemma lastDrawn_snoc f (p0 i r : Z) (rs : list (Z * Z)) :
  lastDrawn f p0 (rs ++ [(i, r)])
  = if drawn f r then r else lastDrawn f p0 rs.
Proof.
  revert p0. induction rs as [| [k c] rs IH]; intros p0.
  - rewrite app_nil_l, lastDrawn_cons. reflexivity.
  - rewrite <- app_comm_cons, !lastDrawn_cons. apply IH.
Qed.

Lemma drawStep_prev {D} `{!drawer Image D} f pos
    (st : loopState D) (i r : Z) :
  prev (drawStep f pos st (i, r)) = if drawn f r then r else prev st.
Proof.
  unfold drawStep, drawn.
  destruct (r =? newline); [reflexivity |].
  destruct (char f r); reflexivity.
Qed.

Lemma drawSteps_prev {D} `{!drawer Image D} f pos
    (rs : list (Z * Z)) (st : loopState D) :
  prev (fold_left (drawStep f pos) rs st) = lastDrawn f (prev st) rs.
Proof.
  revert st. induction rs as [| [i r] rs IH]; intros st; [reflexivity |].
  cbn [fold_left]. rewrite IH, drawStep_prev, lastDrawn_cons. reflexivity.
Qed.

Lemma advance_later (d : Descriptor.t) (j prev r x : Z) (ch : Char.t) :
  0 < j ->
  advance d j prev r x ch
  = match Descriptor.Kerning d !! CharPair.mk prev r with
    | Some kerning =>
      Go.int_add (Go.int_add x (Char.XAdvance ch)) (Kerning.Amount kerning)
    | None => Go.int_add x (Char.XAdvance ch)
    end.
Proof.
  intros Hj. unfold advance.
  destruct (Z.gtb_spec j 0); [reflexivity | lia].
Qed.

(** C4.  After any part [l] of a text, the iteration for a newline puts
    [cursor.X] back to the start position's x, adds [common.lineHeight]
    to [cursor.Y] (Go's [int] addition: the exact sum whenever that is
    an [int]), and leaves the previous code point and the drawer
    untouched.  The previous code point is then the last code point [c]
    of [l] that was drawn, that is, is not a newline and has a glyph or
    the fallback: a code point without a glyph is skipped and does not
    become the previous one.  The glyph [r] that follows the newline is
    placed at that cursor, and the kerning looked up after it is that of
    the pair [(c, r)]. *)
Theorem newline_resets_x_adds_lineHeight_keeps_prev
    {D} `{!drawer Image D} f pos (st0 : loopState D)
    (l : list (Z * Z)) (i j r : Z) (ch : Char.t) :
  r <> newline -> char f r = Some ch -> 0 < j ->
  let d := BitmapFont.Descriptor f in
  let lineHeight := Common.LineHeight (Descriptor.Common d) in
  let before := fold_left (drawStep f pos) l st0 in
  let at_nl := drawStep f pos before (i, newline) in
  let after := drawStep f pos at_nl (j, r) in
  let c := lastDrawn f (prev st0) l in
  cursor at_nl
  = image.mkPoint (image.X pos)
      (Go.int_add (image.Y (cursor before)) lineHeight)
  /\ (Go.int_min <= image.Y (cursor before) + lineHeight <= Go.int_max ->
      image.Y (cursor at_nl) = image.Y (cursor before) + lineHeight)
  /\ prev at_nl = c
  /\ dst at_nl = dst before
  /\ dst after
     = Draw (dst before) (destRect d (cursor at_nl) ch)
         (BitmapFont.PageSheets f !! Char.Page ch) (Char.Pos ch)
  /\ image.X (cursor after)
     = match Descriptor.Kerning d !! CharPair.mk c r with
       | Some kerning =>
         Go.int_add (Go.int_add (image.X pos) (Char.XAdvance ch))
                    (Kerning.Amount kerning)
       | None => Go.int_add (image.X pos) (Char.XAdvance ch)
       end.
Proof.
  intros Hr Hch Hj d lineHeight before at_nl after c.
  assert (Hprev : prev before = c) by apply drawSteps_prev.
  subst at_nl after. rewrite drawStep_newline.
  rewrite (drawStep_glyph f _ _ j r ch) by done.
  cbn [cursor prev dst image.X image.Y].
  repeat split; try done.
  - intros Hrange. apply int_add_exact. exact Hrange.
  - rewrite advance_later by exact Hj. rewrite Hprev. reflexivity.
Qed.

End EngineClaims.

(** Instances of the three theorems above on the sample fonts. *)

Lemma kerning_of_pair_added_after_second_glyph_witness :
  exists cA cV,
    drawCalls Sample.fontAV (image.Pt 0 0) "AV" = [cA; cV]
    /\ image.X (image.Min (call_r cV))
       = Go.int_add 10 (Char.XOffset Sample.chV)
    /\ image.X (image.Min (call_r cV))
       <> Go.int_add 8 (Char.XOffset Sample.chV)
    /\ image.X (cursor (drawLoop Sample.fontAV ([] : list (drawCall unit))
                          (image.Pt 0 0) "AV")) = 16.
Proof.
  apply (kerning_of_pair_added_after_second_glyph
           Sample.fontAV Sample.chA Sample.chV 0); reflexivity.
Defined.

Lemma missing_glyph_falls_back_or_is_skipped_witness :
  MeasureText Sample.fontAVQ "Z" = MeasureText Sample.fontAVQ "?"
  /\ MeasureText Sample.fontAV "Z" = image.ZR
  /\ drawCalls Sample.fontAV (image.Pt 3 4) "Z" = [].
Proof.
  split; [| split].
  - apply (proj1 (missing_glyph_falls_back_or_is_skipped
                    Sample.fontAVQ eq_refl)).
    exists Sample.chQ. reflexivity.
  - apply (proj2 (missing_glyph_falls_back_or_is_skipped
                    Sample.fontAV eq_refl)).
    reflexivity.
  - apply (proj2 (missing_glyph_falls_back_or_is_skipped
                    Sample.fontAV eq_refl)).
    reflexivity.
Defined.

(** In the text [AZ], newline, [V], drawn with a font that has no glyph
    for 'Z' and no fallback, the last character before the newline is
    'Z', yet the kerning added after 'V' is that of the pair (A,V): the
    cursor ends at 8 - 2 and not at 8. *)
Lemma skipped_character_is_not_the_first_of_the_kerning_pair :
  ~ (forall (text : string) (l rest : list (Z * Z)) (k c i j r : Z)
            (ch : Char.t),
       utf8.range_string text
       = l ++ (k, c) :: (i, newline) :: (j, r) :: rest ->
       c <> newline -> r <> newline ->
       char Sample.fontAV r = Some ch ->
       image.X (cursor
                  (fold_left (drawStep Sample.fontAV image.ZP)
                     (l ++ [(k, c); (i, newline); (j, r)])
                     (mkLoop image.ZP 0 ([] : list (drawCall unit)))))
       = match Descriptor.Kerning Sample.descAV !! CharPair.mk c r with
         | Some kerning =>
           Go.int_add (Go.int_add 0 (Char.XAdvance ch))
                      (Kerning.Amount kerning)
         | None => Go.int_add 0 (Char.XAdvance ch)
         end).
Proof.
  intros H.
  assert (Hx : (6 : Z) = 8); [| discriminate Hx].
  specialize (H Sample.skipped_letter [(0, 65)] [] 1 90 2 3 86 Sample.chV).
  etransitivity; [symmetry | apply H].
  - vm_compute. reflexivity.
  - vm_compute. reflexivity.
  - discriminate.
  - discriminate.
  - reflexivity.
Qed.

Lemma newline_resets_x_adds_lineHeight_keeps_prev_witness :
  let pos := image.Pt 5 7 in
  let st0 : loopState (list (drawCall unit)) := mkLoop pos 0 [] in
  let before :=
    fold_left (drawStep Sample.fontAV pos) [(0, 65); (1, 90)] st0 in
  let at_nl := drawStep Sample.fontAV pos before (2, newline) in
  let after := drawStep Sample.fontAV pos at_nl (3, 86) in
  cursor at_nl = image.mkPoint 5 (Go.int_add 7 20)
  /\ prev at_nl = 65
  /\ image.X (cursor after) = Go.int_add (Go.int_add 5 8) (-2).
Proof.
  pose proof (newline_resets_x_adds_lineHeight_keeps_prev
                Sample.fontAV (image.Pt 5 7)
                (mkLoop (image.Pt 5 7) 0 ([] : list (drawCall unit)))
                [(0, 65); (1, 90)] 2 3 86 Sample.chV) as H.
  destruct H as (H1 & _ & H3 & _ & _ & H6).
  - discriminate.
  - reflexivity.
  - lia.
  - cbv zeta. split; [exact H1 | split; [exact H3 | exact H6]].
Defined.

(** ** The scanner consumes its input *)

Section ScannerProgress.
Variable T : unicode.Tables.

#[local] Abbreviation len s := (length (scanner.src (scanner.rd s))).
#[local] Abbreviation rem := scanner.remaining.

Lemma DecodeRune_width (p : list Z) :
  p <> [] -> (1 <= (utf8.DecodeRune p).2)%nat.
Proof.
  destruct p as [| s0 p1]; [done |]. intros _. unfold utf8.DecodeRune.
  repeat case_match; simpl; lia.
Qed.

Lemma rem_bounds (s : scanner.Scanner) (c : Z) :
  (2 * len s <= rem s c <= 2 * len s + 1)%nat.
Proof. unfold scanner.remaining. destruct (c =? scanner.EOF); lia. Qed.

Lemma rem_not_EOF (s : scanner.Scanner) (c : Z) :
  c <> scanner.EOF -> rem s c = (2 * len s + 1)%nat.
Proof.
  unfold scanner.remaining. destruct (Z.eqb_spec c scanner.EOF); [done | lia].
Qed.

Lemma rem_EOF (s : scanner.Scanner) : rem s scanner.EOF = (2 * len s)%nat.
Proof. unfold scanner.remaining. simpl. lia. Qed.

(** [next] reads a character, unless there is none, and then it returns
    [EOF]. *)
Lemma next_adv (s s' : scanner.Scanner) (c' : Z) :
  scanner.next s = (c', s') -> (rem s' c' <= 2 * len s)%nat.
Proof.
  unfold scanner.next, scanner.read.
  destruct (scanner.src (scanner.rd s)) as [| b l] eqn:Hsrc.
  - intros [= <- <-]. unfold scanner.remaining. simpl. lia.
  - pose proof (DecodeRune_width (b :: l) ltac:(done)) as Hw.
    destruct (utf8.DecodeRune (b :: l)) as [c w]. simpl in Hw.
    intros [= <- <-]. unfold scanner.remaining.
    assert (Hlen : (length (skipn w (b :: l)) < length (b :: l))%nat).
    { rewrite length_skipn. simpl. lia. }
    destruct (c =? 10); simpl scanner.rd; simpl scanner.src;
      destruct (c =? scanner.EOF); simpl in *; lia.
Qed.

Lemma next_le (s s' : scanner.Scanner) (c c' : Z) :
  scanner.next s = (c', s') -> (rem s' c' <= rem s c)%nat.
Proof.
  intros H. apply next_adv in H. pose proof (rem_bounds s c). lia.
Qed.

Lemma nextWhile_le (n : nat) (cond : Z -> bool) (s : scanner.Scanner)
    (c : Z) :
  (rem (scanner.nextWhile n cond s c).2 (scanner.nextWhile n cond s c).1
   <= rem s c)%nat.
Proof.
  revert s c. induction n as [| n IH]; intros s c; simpl; [lia |].
  destruct (cond c); [| simpl; lia].
  destruct (scanner.next s) as [c' s'] eqn:E.
  pose proof (next_le s s' c c' E). pose proof (IH s' c'). lia.
Qed.

Lemma nextWhile_adv (n : nat) (cond : Z -> bool) (s : scanner.Scanner)
    (c : Z) :
  cond c = true -> (0 < n)%nat ->
  (rem (scanner.nextWhile n cond s c).2 (scanner.nextWhile n cond s c).1
   <= 2 * len s)%nat.
Proof.
  intros Hc Hn. destruct n as [| n]; [lia |]. simpl. rewrite Hc.
  destruct (scanner.next s) as [c' s'] eqn:E.
  pose proof (next_adv s s' c' E). pose proof (nextWhile_le n cond s' c').
  lia.
Qed.

Lemma fuel_pos (s : scanner.Scanner) : (0 < scanner.fuel s)%nat.
Proof. unfold scanner.fuel. lia. Qed.

Lemma scanIdentifier_adv (s : scanner.Scanner) :
  (rem (scanner.scanIdentifier T s).2 (scanner.scanIdentifier T s).1
   <= 2 * len s)%nat.
Proof.
  unfold scanner.scanIdentifier.
  destruct (scanner.next s) as [c' s'] eqn:E.
  pose proof (next_adv s s' c' E).
  pose proof (nextWhile_le (scanner.fuel s')
                (fun c => scanner.isIdentRune T c true) s' c').
  lia.
Qed.

Lemma digits_le (s : scanner.Scanner) (c base : Z) :
  (rem (scanner.digits s c base).2 (scanner.digits s c base).1
   <= rem s c)%nat.
Proof.
  unfold scanner.digits. destruct (base <=? 10); apply nextWhile_le.
Qed.

Lemma digits_adv (s : scanner.Scanner) (c : Z) :
  scanner.isDecimal c = true ->
  (rem (scanner.digits s c 10).2 (scanner.digits s c 10).1
   <= 2 * len s)%nat.
Proof.
  intros Hc. unfold scanner.digits. change (10 <=? 10) with true. cbv iota.
  apply nextWhile_adv; [rewrite Hc; reflexivity | apply fuel_pos].
Qed.

Lemma digits_le' (s s' : scanner.Scanner) (c base c' : Z) :
  scanner.digits s c base = (c', s') -> (rem s' c' <= rem s c)%nat.
Proof.
  intros H. pose proof (digits_le s c base) as G. rewrite H in G. exact G.
Qed.

Lemma digits_adv' (s s' : scanner.Scanner) (c c' : Z) :
  scanner.isDecimal c = true ->
  scanner.digits s c 10 = (c', s') -> (rem s' c' <= 2 * len s)%nat.
Proof.
  intros Hc H. pose proof (digits_adv s c Hc) as G. rewrite H in G. exact G.
Qed.

Lemma scanIdentifier_adv' (s s' : scanner.Scanner) (c' : Z) :
  scanner.scanIdentifier T s = (c', s') -> (rem s' c' <= 2 * len s)%nat.
Proof.
  intros H. pose proof (scanIdentifier_adv s) as G. rewrite H in G. exact G.
Qed.

Lemma scanDigits_le (n : nat) (s : scanner.Scanner) (c base : Z) :
  (rem (scanner.scanDigits n s c base).2 (scanner.scanDigits n s c base).1
   <= rem s c)%nat.
Proof.
  revert s c. induction n as [| n IH]; intros s c; simpl; [lia |].
  destruct (scanner.digitVal c <? base); [| simpl; lia].
  destruct (scanner.next s) as [c' s'] eqn:E.
  pose proof (next_le s s' c c' E). pose proof (IH s' c'). lia.
Qed.

Lemma scanDigits_le' (n : nat) (s s' : scanner.Scanner) (c base c' : Z) :
  scanner.scanDigits n s c base = (c', s') -> (rem s' c' <= rem s c)%nat.
Proof.
  intros H. pose proof (scanDigits_le n s c base) as G. rewrite H in G.
  exact G.
Qed.

(** Bounds on [remaining] for every scanner state and character in
    sight. *)
Ltac pose_bounds :=
  repeat match goal with
  | |- context [scanner.remaining ?s ?c] =>
    lazymatch goal with
    | _ : (2 * length (scanner.src (scanner.rd s))
           <= scanner.remaining s c <= _)%nat |- _ => fail
    | _ => pose proof (rem_bounds s c)
    end
  | _ : context [scanner.remaining ?s ?c] |- _ =>
    lazymatch goal with
    | _ : (2 * length (scanner.src (scanner.rd s))
           <= scanner.remaining s c <= _)%nat |- _ => fail
    | _ => pose proof (rem_bounds s c)
    end
  end.

(** One step through the body of a scanner function: a call of [next],
    [digits] or [scanDigits], a conditional. *)
Ltac scan_step :=
  match goal with
  | |- context [scanner.next ?s] =>
    let c := fresh "c" in let s' := fresh "s" in let E := fresh "E" in
    destruct (scanner.next s) as [c s'] eqn:E;
    apply next_adv in E
  | |- context [scanner.digits ?s ?c ?b] =>
    let c' := fresh "c" in let s' := fresh "s" in let E := fresh "E" in
    destruct (scanner.digits s c b) as [c' s'] eqn:E;
    try match goal with
        | H : scanner.isDecimal c = true |- _ =>
          pose proof (digits_adv' s s' c c' H E)
        end;
    apply digits_le' in E
  | |- context [scanner.scanDigits ?n ?s ?c ?b] =>
    let c' := fresh "c" in let s' := fresh "s" in let E := fresh "E" in
    destruct (scanner.scanDigits n s c b) as [c' s'] eqn:E;
    apply scanDigits_le' in E
  | |- context [if ?b then _ else _] => destruct b eqn:?
  end;
  cbv beta iota.

Ltac scan_done :=
  repeat match goal with
  | H : _ = true |- _ => clear H
  | H : _ = false |- _ => clear H
  end;
  pose_bounds; lia.

Lemma scanNumber_le (s s' : scanner.Scanner) (c : Z) (seenDot : bool)
    (tok c' : Z) :
  scanner.scanNumber s c seenDot = (tok, c', s') ->
  (rem s' c' <= rem s c)%nat.
Proof.
  unfold scanner.scanNumber.
  repeat scan_step; intros [= <- <- <-]; scan_done.
Qed.

Lemma scanNumber_adv (s s' : scanner.Scanner) (c tok c' : Z) :
  scanner.isDecimal c = true ->
  scanner.scanNumber s c false = (tok, c', s') ->
  (rem s' c' <= 2 * len s)%nat.
Proof.
  intros Hc. unfold scanner.scanNumber.
  repeat scan_step; intros [= <- <- <-]; scan_done.
Qed.

Lemma scanEscape_adv (s s' : scanner.Scanner) (quote c' : Z) :
  scanner.scanEscape s quote = (c', s') -> (rem s' c' <= 2 * len s)%nat.
Proof.
  unfold scanner.scanEscape.
  repeat scan_step; intros [= <- <-]; scan_done.
Qed.

Lemma remaining_len (s s' : scanner.Scanner) (c' : Z) :
  (rem s' c' <= 2 * len s)%nat -> (len s' <= len s)%nat.
Proof. intros H. pose proof (rem_bounds s' c'). lia. Qed.

Lemma scanStringLoop_len (k : nat) (s : scanner.Scanner) (quote c cnt : Z) :
  (len (scanner.scanStringLoop k s quote c cnt).2 <= len s)%nat.
Proof.
  revert s c cnt. induction k as [| k IH]; intros s c cnt; simpl; [lia |].
  destruct (c =? quote); [simpl; lia |].
  destruct ((c =? 10) || (c <? 0)); [simpl; lia |].
  destruct (c =? 92).
  - destruct (scanner.scanEscape s quote) as [c' s'] eqn:E.
    apply scanEscape_adv, remaining_len in E.
    pose proof (IH s' c' (cnt + 1)). lia.
  - destruct (scanner.next s) as [c' s'] eqn:E.
    apply next_adv, remaining_len in E.
    pose proof (IH s' c' (cnt + 1)). lia.
Qed.

Lemma scanString_len (s : scanner.Scanner) (quote : Z) :
  (len (scanner.scanString s quote).2 <= len s)%nat.
Proof.
  unfold scanner.scanString.
  destruct (scanner.next s) as [c' s'] eqn:E.
  apply next_adv, remaining_len in E.
  pose proof (scanStringLoop_len (scanner.fuel s') s' quote c' 0). lia.
Qed.

Lemma scanChar_len (s : scanner.Scanner) :
  (len (scanner.scanChar s) <= len s)%nat.
Proof. apply scanString_len. Qed.

Lemma scanRawString_len (s : scanner.Scanner) :
  (len (scanner.scanRawString s) <= len s)%nat.
Proof.
  unfold scanner.scanRawString.
  destruct (scanner.next s) as [c' s'] eqn:E.
  apply next_adv, remaining_len in E.
  match goal with
  | |- context [scanner.nextWhile ?n ?cond s' c'] =>
    pose proof (nextWhile_le n cond s' c');
    pose proof (rem_bounds (scanner.nextWhile n cond s' c').2
                  (scanner.nextWhile n cond s' c').1)
  end.
  pose proof (rem_bounds s' c'). lia.
Qed.

Lemma scanCommentLoop_le (k : nat) (s : scanner.Scanner) (c : Z) :
  (rem (scanner.scanCommentLoop k s c).2 (scanner.scanCommentLoop k s c).1
   <= rem s c)%nat.
Proof.
  revert s c. induction k as [| k IH]; intros s c; simpl; [lia |].
  destruct (c <? 0); [simpl; lia |].
  destruct (scanner.next s) as [c1 s1] eqn:E1.
  pose proof (next_le s s1 c c1 E1).
  destruct ((c =? 42) && (c1 =? 47)).
  - destruct (scanner.next s1) as [c2 s2] eqn:E2.
    pose proof (next_le s1 s2 c1 c2 E2). simpl. lia.
  - pose proof (IH s1 c1). lia.
Qed.

Lemma scanComment_adv (s s' : scanner.Scanner) (c c' : Z) :
  scanner.scanComment s c = (c', s') -> (rem s' c' <= 2 * len s)%nat.
Proof.
  unfold scanner.scanComment.
  destruct (c =? 47); destruct (scanner.next s) as [c1 s1] eqn:E1;
    apply next_adv in E1; intros H.
  - match type of H with
    | scanner.nextWhile ?n ?cond s1 c1 = _ =>
      pose proof (nextWhile_le n cond s1 c1) as G
    end.
    rewrite H in G. simpl in G. lia.
  - pose proof (scanCommentLoop_le (scanner.fuel s1) s1 c1) as G.
    rewrite H in G. simpl in G. lia.
Qed.

Lemma isIdentRune_not_EOF (c : Z) :
  scanner.isIdentRune T c false = true -> c <> scanner.EOF.
Proof. intros H ->. discriminate H. Qed.

Lemma isDecimal_not_EOF (c : Z) :
  scanner.isDecimal c = true -> c <> scanner.EOF.
Proof. intros H ->. discriminate H. Qed.

Lemma rem_same_rd (s1 s2 : scanner.Scanner) (c : Z) :
  scanner.rd s1 = scanner.rd s2 -> rem s1 c = rem s2 c.
Proof. unfold scanner.remaining. intros ->. reflexivity. Qed.

(** The token switch of [Scan]: nothing is given back, a token other than
    [EOF] has taken at least one character, and so has a skipped
    comment. *)
Lemma scanToken_progress (s : scanner.Scanner) (c : Z) :
  match scanner.scanToken T s c with
  | scanner.Token tok c' s' =>
    (rem s' c' <= rem s c)%nat
    /\ (tok <> scanner.EOF -> (rem s' c' < rem s c)%nat)
  | scanner.Redo c' s' => (rem s' c' < rem s c)%nat
  end.
Proof.
  unfold scanner.scanToken.
  match goal with
  | |- context [scanner.nextWhile ?n ?cond s c] =>
    pose proof (nextWhile_le n cond s c) as Hws;
    destruct (scanner.nextWhile n cond s c) as [c1 s1]
  end.
  simpl in Hws.
  match goal with
  | |- context [scanner.isIdentRune T c1 false] => idtac
  end.
  set (s2 := if scanner.column (scanner.rd _) >? 0 then _ else _).
  assert (Hlen : len s2 = len s1) by (subst s2; case_match; reflexivity).
  assert (Hrem : rem s2 c1 = rem s1 c1)
    by (apply rem_same_rd; subst s2; case_match; reflexivity).
  clearbody s2.
  pose proof (rem_bounds s1 c1) as Hb1.
  destruct (scanner.isIdentRune T c1 false) eqn:Hid.
  { apply isIdentRune_not_EOF in Hid.
    pose proof (rem_not_EOF s1 c1 Hid) as Hne.
    destruct (scanner.has s2 scanner.ScanIdents).
    - destruct (scanner.scanIdentifier T s2) as [c' s'] eqn:E.
      apply scanIdentifier_adv' in E. split; [| intros _]; lia.
    - scan_step. split; [| intros _]; lia. }
  destruct (scanner.isDecimal c1) eqn:Hdec.
  { pose proof (isDecimal_not_EOF c1 Hdec) as Hc1.
    pose proof (rem_not_EOF s1 c1 Hc1) as Hne.
    destruct (scanner.has s2 _).
    - destruct (scanner.scanNumber s2 c1 false) as [[tok c'] s'] eqn:E.
      apply scanNumber_adv in E; [| exact Hdec]. split; [| intros _]; lia.
    - scan_step. split; [| intros _]; lia. }
  destruct (Z.eqb_spec c1 scanner.EOF) as [-> | Hc1].
  { split; [lia | intros Hn; contradiction]. }
  pose proof (rem_not_EOF s1 c1 Hc1) as Hne.
  pose proof (scanString_len s2 34) as HS.
  pose proof (scanChar_len s2) as HC.
  pose proof (scanRawString_len s2) as HR.
  repeat match goal with
  | |- context [scanner.scanNumber ?s ?c ?b] =>
    let E := fresh "E" in
    destruct (scanner.scanNumber s c b) as [[? ?] ?] eqn:E;
    apply scanNumber_le in E
  | |- context [scanner.scanComment ?s ?c] =>
    let E := fresh "E" in
    destruct (scanner.scanComment s c) as [? ?] eqn:E;
    apply scanComment_adv in E
  | _ => scan_step
  end;
  try (rewrite (rem_same_rd (scanner.set_tokPos _ _) _ _ eq_refl) in * );
  first [ split; [| intros _] | idtac ];
  repeat match goal with
  | H : _ = true |- _ => clear H
  | H : _ = false |- _ => clear H
  end;
  pose_bounds; simpl in *; lia.
Qed.

Lemma finish_rem (tok c : Z) (s : scanner.Scanner) :
  rem (scanner.finish tok c s).2 (scanner.ch (scanner.finish tok c s).2)
  = rem s c.
Proof. reflexivity. Qed.

Lemma scanLoop_progress (k : nat) (s s' : scanner.Scanner) (c tok : Z) :
  scanner.scanLoop T k s c = (tok, s') ->
  (rem s' (scanner.ch s') <= rem s c)%nat
  /\ (tok <> scanner.EOF -> (rem s' (scanner.ch s') < rem s c)%nat).
Proof.
  revert s c. induction k as [| k IH]; intros s c; simpl;
    pose proof (scanToken_progress s c) as H;
    destruct (scanner.scanToken T s c) as [tok1 c1 s1 | c1 s1].
  - intros [= <- <-]. exact H.
  - intros [= <- <-]. change (rem s1 c1 <= rem s c
                              /\ (scanner.EOF <> scanner.EOF ->
                                  rem s1 c1 < rem s c))%nat.
    split; [lia | done].
  - intros [= <- <-]. exact H.
  - intros E. apply IH in E. destruct E as [E1 E2].
    split; [lia | intros Hn; specialize (E2 Hn); lia].
Qed.

Lemma Peek_progress (s s' : scanner.Scanner) (c : Z) :
  scanner.Peek s = (c, s') ->
  c = scanner.ch s' /\ (rem s' c <= rem s (scanner.ch s))%nat.
Proof.
  unfold scanner.Peek. destruct (scanner.ch s =? -2).
  - destruct (scanner.next s) as [c1 s1] eqn:E1.
    apply (next_le s s1 (scanner.ch s)) in E1.
    destruct (c1 =? 0xFEFF).
    + destruct (scanner.next s1) as [c2 s2] eqn:E2.
      apply (next_le s1 s2 c1) in E2.
      intros [= <- <-]. split; [reflexivity |].
      rewrite (rem_same_rd (scanner.set_ch s2 c2) s2) by reflexivity. lia.
    + intros [= <- <-]. split; [reflexivity |].
      rewrite (rem_same_rd (scanner.set_ch s1 c1) s1) by reflexivity. lia.
  - intros [= <- <-]. split; [reflexivity | lia].
Qed.

(** [Scan] never gives input back, and a token other than [EOF] has taken
    at least one character. *)
Lemma Scan_progress (s s' : scanner.Scanner) (tok : Z) :
  scanner.Scan T s = (tok, s') ->
  (rem s' (scanner.ch s') <= rem s (scanner.ch s))%nat
  /\ (tok <> scanner.EOF ->
      (rem s' (scanner.ch s') < rem s (scanner.ch s))%nat).
Proof.
  unfold scanner.Scan.
  destruct (scanner.Peek s) as [c s1] eqn:EP.
  apply Peek_progress in EP. destruct EP as [_ EP].
  intros E. apply scanLoop_progress in E.
  change (rem (scanner.set_Line (scanner.set_tokPos s1 (-1)) 0) c)
    with (rem s1 c) in E.
  destruct E as [E1 E2]. split; [lia | intros Hn; specialize (E2 Hn); lia].
Qed.

Lemma Next_progress (s s' : scanner.Scanner) (c : Z) :
  scanner.Next s = (c, s') ->
  (rem s' (scanner.ch s') <= rem s (scanner.ch s))%nat.
Proof.
  unfold scanner.Next.
  destruct (scanner.Peek _) as [c1 s1] eqn:EP.
  apply Peek_progress in EP. destruct EP as [-> EP].
  change (rem s1 (scanner.ch s1) <= rem s (scanner.ch s))%nat in EP.
  destruct (scanner.ch s1 =? scanner.EOF).
  - intros [= <- <-]. exact EP.
  - destruct (scanner.next s1) as [c2 s2] eqn:E2.
    apply (next_le s1 s2 (scanner.ch s1)) in E2.
    intros [= <- <-].
    rewrite (rem_same_rd (scanner.set_ch s2 c2) s2) by reflexivity.
    simpl scanner.ch. lia.
Qed.

(** *** The loops of the scanner end by their conditions

    The loops of the scanner are given a number of rounds.  It is never
    used up: the loop has ended because its condition failed, or, where
    the condition is not in the result, one round more gives the same
    result. *)

Lemma next_on_empty (s s' : scanner.Scanner) (c' : Z) :
  scanner.src (scanner.rd s) = [] -> scanner.next s = (c', s') ->
  c' = scanner.EOF /\ scanner.src (scanner.rd s') = [].
Proof.
  unfold scanner.next, scanner.read. intros ->. intros [= <- <-].
  split; reflexivity.
Qed.

Lemma next_shorter (s s' : scanner.Scanner) (c' : Z) :
  scanner.src (scanner.rd s) <> [] -> scanner.next s = (c', s') ->
  (len s' < len s)%nat.
Proof.
  unfold scanner.next, scanner.read.
  destruct (scanner.src (scanner.rd s)) as [| b l] eqn:Hs; [done |].
  intros _.
  pose proof (DecodeRune_width (b :: l) ltac:(done)) as Hw.
  destruct (utf8.DecodeRune (b :: l)) as [c w]. simpl in Hw.
  assert (Hlen : (length (skipn w (b :: l)) < length (b :: l))%nat).
  { rewrite length_skipn. simpl. lia. }
  intros [= <- <-]. destruct (c =? 10); exact Hlen.
Qed.

(** A character other than [EOF] has been taken from the input. *)
Lemma next_not_EOF_shorter (s s' : scanner.Scanner) (c' : Z) :
  scanner.next s = (c', s') -> c' <> scanner.EOF -> (len s' < len s)%nat.
Proof.
  intros E Hc.
  destruct (decide (scanner.src (scanner.rd s) = [])) as [Hs | Hs].
  - destruct (next_on_empty s s' c' Hs E) as [-> _]. contradiction.
  - apply (next_shorter s s' c' Hs E).
Qed.

Lemma next_len (s s' : scanner.Scanner) (c' : Z) :
  scanner.next s = (c', s') -> (len s' <= len s)%nat.
Proof. intros E. apply next_adv, remaining_len in E. exact E. Qed.

(** [nextWhile] ends on a character that fails the condition. *)
Lemma nextWhile_exit (n : nat) (cond : Z -> bool) (s : scanner.Scanner)
    (c : Z) :
  cond scanner.EOF = false -> (len s < n)%nat ->
  cond (scanner.nextWhile n cond s c).1 = false.
Proof.
  intros Heof. revert s c. induction n as [| n IH]; intros s c Hn; [lia |].
  simpl. destruct (cond c) eqn:Hc; [| exact Hc].
  destruct (scanner.next s) as [c' s'] eqn:E.
  destruct (decide (scanner.src (scanner.rd s) = [])) as [Hs | Hs].
  - destruct (next_on_empty s s' c' Hs E) as [-> _].
    destruct n; simpl; [exact Heof | rewrite Heof; exact Heof].
  - apply IH. pose proof (next_shorter s s' c' Hs E). lia.
Qed.

(** The loops of [scanIdentifier], [digits], [scanRawString], of the line
    comment and of the white space end by their conditions. *)
Lemma nextWhile_fuel_exit (cond : Z -> bool) (s : scanner.Scanner) (c : Z) :
  cond scanner.EOF = false ->
  cond (scanner.nextWhile (scanner.fuel s) cond s c).1 = false.
Proof.
  intros Heof. apply nextWhile_exit; [exact Heof |].
  unfold scanner.fuel. lia.
Qed.

Lemma scanEscape_len (s s' : scanner.Scanner) (quote c' : Z) :
  scanner.scanEscape s quote = (c', s') ->
  (scanner.src (scanner.rd s) <> [] -> (len s' < len s)%nat)
  /\ (scanner.src (scanner.rd s) = [] ->
      c' = scanner.EOF /\ scanner.src (scanner.rd s') = []).
Proof.
  unfold scanner.scanEscape.
  destruct (scanner.next s) as [c1 s1] eqn:E1. intros H. split.
  - intros Hne. pose proof (next_shorter s s1 c1 Hne E1).
    assert (Hle : (scanner.remaining s' c' <= scanner.remaining s1 c1)%nat).
    { revert H. repeat scan_step; intros [= <- <-]; scan_done. }
    pose proof (rem_bounds s' c'). pose proof (rem_bounds s1 c1). lia.
  - intros Hs. destruct (next_on_empty s s1 c1 Hs E1) as [-> Hs1].
    revert H. cbn -[scanner.next scanner.scanDigits].
    match goal with |- context [if ?b then _ else _] => destruct b end.
    + destruct (scanner.next s1) as [c2 s2] eqn:E2.
      destruct (next_on_empty s1 s2 c2 Hs1 E2) as [-> Hs2].
      intros [= <- <-]. done.
    + intros [= <- <-]. done.
Qed.

Lemma scanStringLoop_EOF (k : nat) (s : scanner.Scanner) (quote cnt : Z) :
  scanner.scanStringLoop k s quote scanner.EOF cnt = (cnt, s).
Proof.
  destruct k; [reflexivity |]. cbn [scanner.scanStringLoop].
  destruct (scanner.EOF =? quote); reflexivity.
Qed.

(** One more round does not change the result of the loop of
    [scanString]. *)
Lemma scanStringLoop_step (k : nat) (s : scanner.Scanner) (quote c cnt : Z) :
  (len s < k)%nat ->
  scanner.scanStringLoop k s quote c cnt
  = scanner.scanStringLoop (S k) s quote c cnt.
Proof.
  revert s c cnt. induction k as [| k IH]; intros s c cnt Hk; [lia |].
  change (scanner.scanStringLoop (S (S k)) s quote c cnt)
    with (if c =? quote then (cnt, s)
          else if (c =? 10) || (c <? 0) then (cnt, s)
          else let '(c, s) :=
                 if c =? 92 then scanner.scanEscape s quote
                 else scanner.next s in
               scanner.scanStringLoop (S k) s quote c (cnt + 1)).
  change (scanner.scanStringLoop (S k) s quote c cnt)
    with (if c =? quote then (cnt, s)
          else if (c =? 10) || (c <? 0) then (cnt, s)
          else let '(c, s) :=
                 if c =? 92 then scanner.scanEscape s quote
                 else scanner.next s in
               scanner.scanStringLoop k s quote c (cnt + 1)).
  destruct (c =? quote); [reflexivity |].
  destruct ((c =? 10) || (c <? 0)); [reflexivity |].
  assert (H : forall c' s',
             (if c =? 92 then scanner.scanEscape s quote
              else scanner.next s) = (c', s') ->
             (scanner.src (scanner.rd s) <> [] -> (len s' < len s)%nat)
             /\ (scanner.src (scanner.rd s) = [] -> c' = scanner.EOF)).
  { intros c' s'. destruct (c =? 92); intros E.
    - destruct (scanEscape_len s s' quote c' E) as [H1 H2].
      split; [exact H1 | intros Hs; apply (H2 Hs)].
    - split; [intros Hs; apply (next_shorter s s' c' Hs E) |].
      intros Hs. apply (next_on_empty s s' c' Hs E). }
  destruct (if c =? 92 then scanner.scanEscape s quote else scanner.next s)
    as [c' s'].
  destruct (H c' s' eq_refl) as [H1 H2].
  destruct (decide (scanner.src (scanner.rd s) = [])) as [Hs | Hs].
  - rewrite (H2 Hs), !scanStringLoop_EOF. reflexivity.
  - apply IH. specialize (H1 Hs). lia.
Qed.

Lemma scanCommentLoop_EOF (k : nat) (s : scanner.Scanner) :
  scanner.scanCommentLoop k s scanner.EOF = (scanner.EOF, s).
Proof. destruct k; reflexivity. Qed.

(** One more round does not change the result of the loop of the general
    comment. *)
Lemma scanCommentLoop_step (k : nat) (s : scanner.Scanner) (c : Z) :
  (len s < k)%nat ->
  scanner.scanCommentLoop k s c = scanner.scanCommentLoop (S k) s c.
Proof.
  revert s c. induction k as [| k IH]; intros s c Hk; [lia |].
  change (scanner.scanCommentLoop (S (S k)) s c)
    with (if c <? 0 then (c, s)
          else let c0 := c in
               let '(c, s) := scanner.next s in
               if (c0 =? 42) && (c =? 47) then scanner.next s
               else scanner.scanCommentLoop (S k) s c).
  change (scanner.scanCommentLoop (S k) s c)
    with (if c <? 0 then (c, s)
          else let c0 := c in
               let '(c, s) := scanner.next s in
               if (c0 =? 42) && (c =? 47) then scanner.next s
               else scanner.scanCommentLoop k s c).
  destruct (c <? 0); [reflexivity |]. cbv zeta.
  destruct (scanner.next s) as [c1 s1] eqn:E1.
  destruct ((c =? 42) && (c1 =? 47)); [reflexivity |].
  destruct (decide (scanner.src (scanner.rd s) = [])) as [Hs | Hs].
  - destruct (next_on_empty s s1 c1 Hs E1) as [-> _].
    rewrite !scanCommentLoop_EOF. reflexivity.
  - apply IH. pose proof (next_shorter s s1 c1 Hs E1). lia.
Qed.

(** A skipped comment has taken characters from the input. *)
Lemma scanToken_redo_shorter (s s' : scanner.Scanner) (c c' : Z) :
  scanner.scanToken T s c = scanner.Redo c' s' -> (len s' < len s)%nat.
Proof.
  unfold scanner.scanToken.
  match goal with
  | |- context [scanner.nextWhile ?n ?cond s c] =>
    pose proof (nextWhile_le n cond s c) as Hws;
    destruct (scanner.nextWhile n cond s c) as [c1 s1]
  end.
  simpl in Hws.
  assert (Hs1 : (len s1 <= len s)%nat).
  { pose proof (rem_bounds s1 c1). pose proof (rem_bounds s c). lia. }
  clear Hws.
  set (s2 := if scanner.column (scanner.rd _) >? 0 then _ else _).
  assert (Hlen : len s2 = len s1) by (subst s2; case_match; reflexivity).
  clearbody s2.
  repeat (case_match; try discriminate).
  intros [= <- <-].
  match goal with
  | E : scanner.next s2 = (?c3, ?s3),
    B : ((?c3 =? 47) || (?c3 =? 42)) && _ = true,
    C : scanner.scanComment _ ?c3 = (_, _) |- _ =>
    assert (Hc3 : c3 <> scanner.EOF)
      by (intros ->; discriminate B);
    pose proof (next_not_EOF_shorter s2 s3 c3 E Hc3);
    apply scanComment_adv, remaining_len in C; simpl in C
  end.
  lia.
Qed.

(** One more round does not change the result of [Scan]'s loop. *)
Lemma scanLoop_step (k : nat) (s : scanner.Scanner) (c : Z) :
  (len s < k)%nat ->
  scanner.scanLoop T k s c = scanner.scanLoop T (S k) s c.
Proof.
  revert s c. induction k as [| k IH]; intros s c Hk; [lia |].
  change (scanner.scanLoop T (S (S k)) s c)
    with (match scanner.scanToken T s c with
          | scanner.Token tok c s => scanner.finish tok c s
          | scanner.Redo c s => scanner.scanLoop T (S k) s c
          end).
  change (scanner.scanLoop T (S k) s c)
    with (match scanner.scanToken T s c with
          | scanner.Token tok c s => scanner.finish tok c s
          | scanner.Redo c s => scanner.scanLoop T k s c
          end).
  destruct (scanner.scanToken T s c) as [tok c1 s1 | c1 s1] eqn:E;
    [reflexivity |].
  apply IH. apply scanToken_redo_shorter in E. lia.
Qed.

(** The rounds that [Scan] gives its loop are enough: any larger number
    gives the same token and the same scanner. *)
Lemma scanLoop_rounds (k : nat) (s : scanner.Scanner) (c : Z) :
  (scanner.fuel s <= k)%nat ->
  scanner.scanLoop T k s c = scanner.scanLoop T (scanner.fuel s) s c.
Proof.
  intros Hk. induction Hk as [| k Hk IH]; [reflexivity |].
  rewrite <- IH. symmetry. apply scanLoop_step.
  unfold scanner.fuel in Hk. lia.
Qed.

Lemma scanStringLoop_rounds (k : nat) (s : scanner.Scanner)
    (quote c cnt : Z) :
  (scanner.fuel s <= k)%nat ->
  scanner.scanStringLoop k s quote c cnt
  = scanner.scanStringLoop (scanner.fuel s) s quote c cnt.
Proof.
  intros Hk. induction Hk as [| k Hk IH]; [reflexivity |].
  rewrite <- IH. symmetry. apply scanStringLoop_step.
  unfold scanner.fuel in Hk. lia.
Qed.

Lemma scanCommentLoop_rounds (k : nat) (s : scanner.Scanner) (c : Z) :
  (scanner.fuel s <= k)%nat ->
  scanner.scanCommentLoop k s c
  = scanner.scanCommentLoop (scanner.fuel s) s c.
Proof.
  intros Hk. induction Hk as [| k Hk IH]; [reflexivity |].
  rewrite <- IH. symmetry. apply scanCommentLoop_step.
  unfold scanner.fuel in Hk. lia.
Qed.

End ScannerProgress.

(** ** The loop of [Unquote] ends within the length of its input *)

Section UnquoteFacts.

Lemma hexValue_len (n : nat) (s s' : list Z) (v v' : Z) :
  strconv.hexValue n s v = Some (v', s') -> (length s' <= length s)%nat.
Proof.
  revert s v. induction n as [| n IH]; intros s v; simpl.
  - intros [= _ <-]. lia.
  - destruct s as [| b s1]; [discriminate |].
    destruct (strconv.unhex b); [| discriminate].
    intros H. apply IH in H. simpl. lia.
Qed.

(** [UnquoteChar] takes at least one byte. *)
Lemma UnquoteChar_shorter (s ss : list Z) (quote c : Z) (multibyte : bool) :
  strconv.UnquoteChar s quote = Some (c, multibyte, ss) ->
  (length ss < length s)%nat.
Proof.
  unfold strconv.UnquoteChar.
  destruct s as [| c0 s1]; [discriminate |].
  destruct ((c0 =? quote) && _); [discriminate |].
  destruct (c0 >=? utf8.RuneSelf).
  { pose proof (DecodeRune_width (c0 :: s1) ltac:(done)) as Hw.
    destruct (utf8.DecodeRune (c0 :: s1)) as [r size].
    intros [= <- <- <-]. rewrite length_skipn. simpl in *. lia. }
  destruct (negb (c0 =? strconv.backslash));
    [intros [= <- <- <-]; simpl; lia |].
  destruct s1 as [| c1 s2]; [discriminate |].
  repeat match goal with
  | |- context [match strconv.hexValue ?n ?s ?v with _ => _ end] =>
    let Hh := fresh "Hh" in
    destruct (strconv.hexValue n s v) as [[? ?] |] eqn:Hh;
    [apply hexValue_len in Hh |]
  | |- context [if ?b then _ else _] => destruct b
  | |- context [match ?l with [] => _ | _ :: _ => _ end] =>
    is_var l; destruct l
  end;
  try discriminate; intros [= <- <- <-]; simpl in *; lia.
Qed.

(** One more round does not change the result of the loop of
    [Unquote]. *)
Lemma unquoteLoop_step (n : nat) (s : list Z) (quote : Z) (buf : list Z) :
  (length s <= n)%nat ->
  strconv.unquoteLoop n s quote buf = strconv.unquoteLoop (S n) s quote buf.
Proof.
  revert s buf. induction n as [| n IH]; intros s buf Hn.
  - destruct s; [reflexivity | simpl in Hn; lia].
  - destruct s as [| b s1]; [reflexivity |].
    change (strconv.unquoteLoop (S (S n)) (b :: s1) quote buf)
      with (match strconv.UnquoteChar (b :: s1) quote with
            | None => None
            | Some (c, multibyte, ss) =>
              let buf :=
                if (c <? utf8.RuneSelf) || negb multibyte
                then buf ++ [Z.land c 255]
                else buf ++ utf8.EncodeRune c in
              if (quote =? strconv.squote) && negb (length ss =? 0)%nat
              then None
              else strconv.unquoteLoop (S n) ss quote buf
            end).
    change (strconv.unquoteLoop (S n) (b :: s1) quote buf)
      with (match strconv.UnquoteChar (b :: s1) quote with
            | None => None
            | Some (c, multibyte, ss) =>
              let buf :=
                if (c <? utf8.RuneSelf) || negb multibyte
                then buf ++ [Z.land c 255]
                else buf ++ utf8.EncodeRune c in
              if (quote =? strconv.squote) && negb (length ss =? 0)%nat
              then None
              else strconv.unquoteLoop n ss quote buf
            end).
    destruct (strconv.UnquoteChar (b :: s1) quote) as [[[c mb] ss] |] eqn:E;
      [| reflexivity].
    cbv zeta.
    destruct ((quote =? strconv.squote) && negb (length ss =? 0)%nat);
      [reflexivity |].
    apply IH. apply UnquoteChar_shorter in E. lia.
Qed.

(** The rounds that [Unquote] gives its loop are enough. *)
Lemma unquoteLoop_rounds (n : nat) (s : list Z) (quote : Z) (buf : list Z) :
  (length s <= n)%nat ->
  strconv.unquoteLoop n s quote buf
  = strconv.unquoteLoop (length s) s quote buf.
Proof.
  intros Hn. induction Hn as [| n Hn IH]; [reflexivity |].
  rewrite <- IH. symmetry. apply unquoteLoop_step. exact Hn.
Qed.

End UnquoteFacts.

(** ** The parser terminates, and only ever adds errors *)

Section ParserFacts.
Variable T : unicode.Tables.

#[local] Abbreviation measure := tagsParser.measure.

Lemma measure_next (p : tagsParser.t) :
  (measure (tagsParser.next T p) <= measure p)%nat
  /\ (tagsParser.tok p <> scanner.EOF ->
      (measure (tagsParser.next T p) < measure p)%nat).
Proof.
  unfold tagsParser.next, tagsParser.measure.
  destruct (scanner.Scan T (tagsParser.scanner p)) as [tok s] eqn:E.
  apply Scan_progress in E. destruct E as [E1 E2]. simpl.
  destruct (Z.eqb_spec tok scanner.EOF) as [-> | Hn];
    [| specialize (E2 Hn)];
    destruct (Z.eqb_spec (tagsParser.tok p) scanner.EOF);
    split; intros; try lia; contradiction.
Qed.

Lemma errors_next (p : tagsParser.t) :
  tagsParser.errors (tagsParser.next T p) = tagsParser.errors p.
Proof.
  unfold tagsParser.next.
  destruct (scanner.Scan T (tagsParser.scanner p)). reflexivity.
Qed.

Lemma measure_errorExpected (p : tagsParser.t) (msg : string) :
  measure (tagsParser.errorExpected T p msg) = measure p.
Proof. reflexivity. Qed.

Lemma tok_errorExpected (p : tagsParser.t) (msg : string) :
  tagsParser.tok (tagsParser.errorExpected T p msg) = tagsParser.tok p.
Proof. reflexivity. Qed.

Lemma measure_expect (p : tagsParser.t) (tok : Z) (msg : string) :
  (measure (tagsParser.expect T p tok msg) <= measure p)%nat
  /\ (tagsParser.tok p <> scanner.EOF ->
      (measure (tagsParser.expect T p tok msg) < measure p)%nat).
Proof.
  unfold tagsParser.expect.
  destruct (negb (tagsParser.tok p =? tok)).
  - pose proof (measure_next (tagsParser.errorExpected T p msg)) as H.
    rewrite measure_errorExpected, tok_errorExpected in H. exact H.
  - apply measure_next.
Qed.

Lemma errors_expect (p : tagsParser.t) (tok : Z) (msg : string) :
  tagsParser.errors p `prefix_of`
    tagsParser.errors (tagsParser.expect T p tok msg).
Proof.
  unfold tagsParser.expect. rewrite errors_next.
  destruct (negb (tagsParser.tok p =? tok)); [| done].
  simpl. by apply prefix_app_r.
Qed.

(** [parseIntList] ends, on a parser that has no more left to parse and
    the same errors. *)
Lemma parseIntList_total (n : nat) (p : tagsParser.t) (sb : string) :
  (measure p < n)%nat ->
  exists sb' p',
    tagsParser.parseIntList T n p sb = Some (sb', p')
    /\ (measure p' <= measure p)%nat
    /\ tagsParser.errors p' = tagsParser.errors p.
Proof.
  revert p sb. induction n as [| n IH]; intros p sb Hn; [lia |].
  cbn [tagsParser.parseIntList].
  destruct ((tagsParser.tok p =? scanner.Int) || (tagsParser.tok p =? 44)
            || (tagsParser.tok p =? 45)) eqn:Htok.
  - assert (Hne : tagsParser.tok p <> scanner.EOF).
    { intros Heq. rewrite Heq in Htok. discriminate Htok. }
    destruct (measure_next p) as [_ Hlt]. specialize (Hlt Hne).
    destruct (IH (tagsParser.next T p) (sb +:+ tagsParser.lit p))
      as (sb' & p' & E & Hm & He); [lia |].
    exists sb', p'. rewrite E, He, errors_next. split; [done | split; [lia | done]].
  - exists sb, p. done.
Qed.

Lemma measure_set_scanner (p : tagsParser.t) (s : scanner.Scanner) :
  (scanner.remaining s (scanner.ch s)
   <= scanner.remaining (tagsParser.scanner p)
        (scanner.ch (tagsParser.scanner p)))%nat ->
  (measure (tagsParser.set_scanner p s) <= measure p)%nat.
Proof. unfold tagsParser.measure. simpl. lia. Qed.

(** The inner loop of [parse] ends, on a parser that has no more left to
    parse and whose errors extend those it started with. *)
Lemma parseAttrs_total (n : nat) (p : tagsParser.t)
    (attrs : gmap string string) :
  (measure p < n)%nat ->
  exists p' attrs',
    tagsParser.parseAttrs T n p attrs = Some (p', attrs')
    /\ (measure p' <= measure p)%nat
    /\ tagsParser.errors p `prefix_of` tagsParser.errors p'.
Proof.
  revert p attrs. induction n as [| n IH]; intros p attrs Hn; [lia |].
  cbn [tagsParser.parseAttrs].
  destruct (negb (tagsParser.tok p =? 10)
            && negb (tagsParser.tok p =? scanner.EOF)) eqn:Htok;
    [| exists p, attrs; done].
  assert (Hne : tagsParser.tok p <> scanner.EOF).
  { intros Heq. rewrite Heq in Htok. discriminate Htok. }
  set (p1 := tagsParser.expect T p scanner.Ident "attribute name").
  set (p2 := tagsParser.expect T p1 61 tagsParser.quoted_equals).
  destruct (measure_expect p scanner.Ident "attribute name") as [_ H1].
  specialize (H1 Hne). fold p1 in H1.
  destruct (measure_expect p1 61 tagsParser.quoted_equals) as [H2 _].
  fold p2 in H2.
  assert (He2 : tagsParser.errors p `prefix_of` tagsParser.errors p2).
  { etrans; [apply (errors_expect p scanner.Ident "attribute name") |].
    apply (errors_expect p1 61 tagsParser.quoted_equals). }
  assert (Hp2 : (measure p2 < n)%nat) by lia.
  assert (Hle : (measure p2 <= measure p)%nat) by lia.
  clear H1 H2 Hn Htok Hne. clearbody p2. clear p1.
  destruct (tagsParser.tok p2 =? scanner.String) eqn:Hstr.
  - destruct (strconv.Unquote (tagsParser.lit p2)) as [value |].
    + destruct (scanner.Peek (tagsParser.scanner p2)) as [c s] eqn:EP.
      apply Peek_progress in EP. destruct EP as [-> EP].
      set (vs := if scanner.ch s =? 34 then _ else _).
      assert (Hs : (scanner.remaining vs.2 (scanner.ch vs.2)
                    <= scanner.remaining (tagsParser.scanner p2)
                         (scanner.ch (tagsParser.scanner p2)))%nat).
      { subst vs. destruct (scanner.ch s =? 34); simpl; [| exact EP].
        destruct (scanner.Next s) as [c' s'] eqn:EN.
        apply Next_progress in EN. simpl. lia. }
      destruct vs as [value' s']. simpl in Hs.
      pose proof (measure_set_scanner p2 s' Hs) as Hm.
      destruct (measure_next (tagsParser.set_scanner p2 s')) as [Hm' _].
      destruct (IH (tagsParser.next T (tagsParser.set_scanner p2 s'))
                  (<[tagsParser.lit p := value']> attrs))
        as (p' & attrs' & E & Hm'' & He); [lia |].
      exists p', attrs'. rewrite E. split; [done |]. split; [lia |].
      rewrite errors_next in He. etrans; [exact He2 | exact He].
    + destruct (IH (tagsParser.set_tok p2 10) attrs)
        as (p' & attrs' & E & Hm & He).
      { unfold tagsParser.measure in *. simpl.
        apply Z.eqb_eq in Hstr. rewrite Hstr in Hp2. simpl in Hp2. lia. }
      exists p', attrs'. rewrite E. split; [done |]. split.
      * unfold tagsParser.measure in *. simpl in Hm.
        apply Z.eqb_eq in Hstr. rewrite Hstr in Hle. simpl in Hle. lia.
      * etrans; [exact He2 | exact He].
  - destruct ((tagsParser.tok p2 =? scanner.Int)
              || (tagsParser.tok p2 =? 45)).
    + destruct (parseIntList_total n p2 EmptyString Hp2)
        as (value & p3 & E3 & Hm3 & He3).
      rewrite E3.
      destruct (IH p3 (<[tagsParser.lit p := value]> attrs))
        as (p' & attrs' & E & Hm & He); [lia |].
      exists p', attrs'. rewrite E. split; [done |]. split; [lia |].
      rewrite He3 in He. etrans; [exact He2 | exact He].
    + destruct (IH (tagsParser.errorExpected T p2
                      "string or integer attribute value")
                  (<[tagsParser.lit p := EmptyString]> attrs))
        as (p' & attrs' & E & Hm & He).
      { rewrite measure_errorExpected. exact Hp2. }
      exists p', attrs'. rewrite E. split; [done |].
      rewrite measure_errorExpected in Hm. split; [lia |].
      etrans; [exact He2 |]. etrans; [| exact He].
      simpl. by apply prefix_app_r.
Qed.

(** The outer loop of [parse] ends at [EOF]; the tags and the errors it
    started with are still there, in front. *)
Lemma parseTags_total (n : nat) (p : tagsParser.t) (tags : list tag.t) :
  (measure p < n)%nat ->
  exists tags' p',
    tagsParser.parseTags T n p tags = Some (tags', p')
    /\ tagsParser.tok p' = scanner.EOF
    /\ tags `prefix_of` tags'
    /\ tagsParser.errors p `prefix_of` tagsParser.errors p'.
Proof.
  revert p tags. induction n as [| n IH]; intros p tags Hn; [lia |].
  cbn [tagsParser.parseTags].
  destruct (Z.eqb_spec (tagsParser.tok p) scanner.EOF) as [Heof | Hne];
    cbn [negb]; [exists tags, p; done |].
  set (p1 := tagsParser.expect T p scanner.Ident "tag name").
  destruct (measure_expect p scanner.Ident "tag name") as [_ H1].
  specialize (H1 Hne). fold p1 in H1.
  pose proof (errors_expect p scanner.Ident "tag name") as He1.
  fold p1 in He1. clearbody p1.
  destruct (parseAttrs_total n p1 ∅) as (p2 & attrs & E2 & Hm2 & He2);
    [lia |].
  rewrite E2.
  destruct (measure_next p2) as [Hm3 _].
  destruct (IH (tagsParser.next T p2)
              (tags ++ [tag.mk (tagsParser.lit p) attrs]))
    as (tags' & p' & E & Heof & Ht & He); [lia |].
  exists tags', p'. rewrite E. split; [done |]. split; [done |]. split.
  - etrans; [| exact Ht]. by apply prefix_app_r.
  - rewrite errors_next in He. etrans; [exact He1 |].
    etrans; [exact He2 | exact He].
Qed.

Lemma length_bytes (r : string) : length (Go.bytes r) = String.length r.
Proof.
  unfold Go.bytes. rewrite length_map.
  induction r as [| a r IH]; simpl; [reflexivity | rewrite IH; reflexivity].
Qed.

Lemma measure_start (filename r : string) :
  (measure (tagsParser.start T filename r) < tagsParser.rounds r)%nat.
Proof.
  unfold tagsParser.start.
  match goal with
  | |- (measure (tagsParser.next T ?p0) < _)%nat =>
    destruct (measure_next p0) as [H _];
    assert (H0 : (measure p0 <= 4 * String.length r + 3)%nat)
  end.
  { unfold tagsParser.measure, scanner.remaining. simpl.
    rewrite length_bytes. lia. }
  unfold tagsParser.rounds. lia.
Qed.

(** [parse] ends for every input, with the parser at [EOF]. *)
Lemma run_total (filename r : string) :
  exists tags p,
    tagsParser.run T filename r = Some (tags, p)
    /\ tagsParser.tok p = scanner.EOF.
Proof.
  destruct (parseTags_total (tagsParser.rounds r)
              (tagsParser.start T filename r) [] (measure_start filename r))
    as (tags & p & E & Heof & _ & _).
  exists tags, p. split; [exact E | exact Heof].
Qed.

End ParserFacts.

(** ** Claims about the tag parser *)

Section ParserClaims.
Variable T : unicode.Tables.

(** The error that [expect] records for a token other than ['=']. *)
Lemma expect_equals_mismatch (p : tagsParser.t) :
  tagsParser.tok p <> 61 ->
  tagsParser.expect T p 61 tagsParser.quoted_equals
  = tagsParser.next T
      (tagsParser.error p
         (tagsParser.newError (tagsParser.pos p)
            ("expected " +:+ tagsParser.quoted_equals +:+ ", found "
             +:+ scanner.TokenString T (tagsParser.tok p)))).
Proof.
  intros Hne. unfold tagsParser.expect.
  destruct (Z.eqb_spec (tagsParser.tok p) 61); [contradiction |].
  reflexivity.
Qed.

(** C5, as the code has it.  Where ['='] is expected and another token is
    found, [expect] records one error, made of the position of the token
    found and of the message that names the expected ['='] and that
    token, and it goes on to the next token: the token found is taken in
    place of the ['='].  For the line [page id 3] that leaves nothing on
    the line for the value, so a second error follows (expected string
    or integer attribute value): two errors, the first at line 1 column 9
    where the [3] stands.  The tag of the line is emitted with an empty
    [id], and the parser goes on with the next line. *)
Theorem missing_equals_is_reported_and_line_goes_on (p : tagsParser.t) :
  tagsParser.tok p <> 61 ->
  (tagsParser.errors (tagsParser.expect T p 61 tagsParser.quoted_equals)
   = tagsParser.errors p
     ++ [errors_New
           (scanner.PositionString (tagsParser.pos p)
            +:+ ": expected " +:+ tagsParser.quoted_equals +:+ ", found "
            +:+ scanner.TokenString T (tagsParser.tok p))]
   /\ tagsParser.scanner (tagsParser.expect T p 61 tagsParser.quoted_equals)
      = (scanner.Scan T (tagsParser.scanner p)).2)
  /\ option_map
       (fun tp => (tp.1, tagsParser.errors tp.2))
       (tagsParser.run T "bmfont" Sample.no_equals_then_page)
     = Some
         ([tag.mk "page" (<["id" := EmptyString]> ∅);
           tag.mk "page" (<["file" := "a.png"]> (<["id" := "4"]> ∅))],
          [tagsParser.newError (scanner.mkPosition "bmfont" 8 1 9)
             ("expected " +:+ tagsParser.quoted_equals +:+ ", found Int");
           tagsParser.newError (scanner.mkPosition "bmfont" 9 1 10)
             ("expected string or integer attribute value, found "
              +:+ Go.of_bytes [34; 92; 110; 34])])
  /\ option_map (fun tp => length (tagsParser.errors tp.2))
       (tagsParser.run T "bmfont" Sample.no_equals)
     = Some 2%nat.
Proof.
  intros Hne. split; [| split].
  - rewrite expect_equals_mismatch by exact Hne.
    unfold tagsParser.next, tagsParser.error, tagsParser.newError.
    cbn [tagsParser.scanner tagsParser.errors].
    destruct (scanner.Scan T (tagsParser.scanner p)) as [tok s].
    split; reflexivity.
  - vm_compute. reflexivity.
  - vm_compute. reflexivity.
Qed.

(** C6.  In the attribute [letter=] followed by three double quotes, the
    first two quotes are the string token, whose value is empty, and the
    third one is taken by the work-around and appended: the value of
    [letter] is the string of one character, a double quote; no error is
    recorded, and the scanner goes on behind the third quote, be it to the
    end of the input, or to the next attribute of the line and the next
    line. *)
Theorem three_quotes_give_a_quote_character :
  tagsParser.parse T "bmfont" Sample.quote_letter
  = Some ([tag.mk "char"
             (<["letter" := Go.of_bytes [34]]> (<["id" := "34"]> ∅))],
          None)
  /\ String.length (Go.of_bytes [34]) = 1%nat
  /\ tagsParser.parse T "bmfont" Sample.quote_letter_then_more
     = Some ([tag.mk "char"
                (<["x" := "5"]>
                   (<["letter" := Go.of_bytes [34]]> (<["id" := "34"]> ∅)));
              tag.mk "char" (<["x" := "7"]> (<["id" := "35"]> ∅))],
             None).
Proof. repeat split; vm_compute; reflexivity. Qed.

(** C7, as the code has it.  A quoted value that [strconv.Unquote]
    rejects is not recorded as an error, and the rest of its line is not
    skipped.  With such a value as the last attribute of the input, the
    parse succeeds, with the tag of the line and the attributes before the
    value.  With more text behind it, the tag of the line is emitted with
    the attributes before the value, and the scanner goes on behind the
    value on the same line: [bold=1] is parsed as a line of its own, a tag
    named [bold], and the three errors are those of that tag.  Only when
    the closing quote is missing has the string token taken the rest of
    the line, and then the next tag is that of the next line; no error is
    recorded then either. *)
Theorem rejected_string_is_no_error_and_line_is_not_skipped :
  tagsParser.parse T "bmfont" Sample.bad_escape_last
  = Some ([tag.mk "info" (<["size" := "3"]> ∅)], None)
  /\ strconv.Unquote Sample.bad_string = None
  /\ option_map
       (fun tp => (tp.1, tagsParser.errors tp.2))
       (tagsParser.run T "bmfont" Sample.bad_escape_then_more)
     = Some
         ([tag.mk "info" (<["size" := "3"]> ∅);
           tag.mk "bold" (<["=" := EmptyString]> ∅);
           tag.mk "char" (<["id" := "1"]> ∅)],
          [tagsParser.newError (scanner.mkPosition "bmfont" 26 1 27)
             ("expected attribute name, found "
              +:+ tagsParser.quoted_equals);
           tagsParser.newError (scanner.mkPosition "bmfont" 27 1 28)
             ("expected " +:+ tagsParser.quoted_equals +:+ ", found Int");
           tagsParser.newError (scanner.mkPosition "bmfont" 28 1 29)
             ("expected string or integer attribute value, found "
              +:+ Go.of_bytes [34; 92; 110; 34])])
  /\ tagsParser.parse T "bmfont" Sample.unterminated_then_more
     = Some ([tag.mk "info" (<["size" := "3"]> ∅);
              tag.mk "char" (<["id" := "1"]> ∅)],
             None).
Proof. repeat split; vm_compute; reflexivity. Qed.


(** Errors on the first and on the third line are both in the list, and
    the tags of all three lines have been read. *)
Example errors_of_two_lines :
  option_map
    (fun tp => (map tag.name tp.1, map errorList.Error (tagsParser.errors tp.2)))
    (tagsParser.run T "bmfont" Sample.errors_on_two_lines)
  = Some
      (["page"; "char"; "kerning"],
       ["bmfont:1:9: expected " +:+ tagsParser.quoted_equals
        +:+ ", found Int";
        "bmfont:1:10: expected string or integer attribute value, found "
        +:+ Go.of_bytes [34; 92; 110; 34];
        "bmfont:3:15: expected string or integer attribute value, found "
        +:+ Go.of_bytes [34; 92; 110; 34]])
  /\ parseControlData T "bmfont" Sample.errors_on_two_lines
     = Some (None,
             Some (errorList_error
                     [tagsParser.newError (scanner.mkPosition "bmfont" 8 1 9)
                        ("expected " +:+ tagsParser.quoted_equals
                         +:+ ", found Int");
                      tagsParser.newError
                        (scanner.mkPosition "bmfont" 9 1 10)
                        ("expected string or integer attribute value, found "
                         +:+ Go.of_bytes [34; 92; 110; 34]);
                      tagsParser.newError
                        (scanner.mkPosition "bmfont" 39 3 15)
                        ("expected string or integer attribute value, found "
                         +:+ Go.of_bytes [34; 92; 110; 34])])).
Proof. split; vm_compute; reflexivity. Qed.

End ParserClaims.

(** The line [page id 3] does not give exactly one error. *)
Lemma page_id_3_gives_two_errors :
  ~ (exists tags p,
       tagsParser.run Sample.tables "bmfont" Sample.no_equals
       = Some (tags, p)
       /\ length (tagsParser.errors p) = 1%nat).
Proof.
  intros (tags & p & Hrun & Hlen).
  assert (H : option_map (fun tp => length (tagsParser.errors tp.2))
                (tagsParser.run Sample.tables "bmfont" Sample.no_equals)
              = Some 2%nat) by (vm_compute; reflexivity).
  rewrite Hrun in H. simpl in H. congruence.
Qed.

Lemma missing_equals_is_reported_and_line_goes_on_witness :
  tagsParser.errors
    (tagsParser.expect Sample.tables
       (tagsParser.expect Sample.tables
          (tagsParser.expect Sample.tables
             (tagsParser.start Sample.tables "bmfont" Sample.no_equals)
             scanner.Ident "tag name")
          scanner.Ident "attribute name")
       61 tagsParser.quoted_equals)
  = [errors_New
       ("bmfont:1:9: expected " +:+ tagsParser.quoted_equals
        +:+ ", found Int")].
Proof.
  pose proof (missing_equals_is_reported_and_line_goes_on Sample.tables
                (tagsParser.expect Sample.tables
                   (tagsParser.expect Sample.tables
                      (tagsParser.start Sample.tables "bmfont"
                         Sample.no_equals)
                      scanner.Ident "tag name")
                   scanner.Ident "attribute name")) as H.
  destruct H as [[H _] _].
  - vm_compute. discriminate.
  - rewrite H. vm_compute. reflexivity.
Defined.

(** ** Claims about the descriptor builder *)

Section BuilderClaims.

Lemma buildTag_on_page_0 (d : Descriptor.t) (t : tag.t) :
  on_page_0 d -> on_page_0 (buildTag d t).
Proof.
  intros H. unfold buildTag.
  repeat (case_match; [try exact H |]); try exact H.
  unfold on_page_0. cbn [Descriptor.Chars].
  apply map_Forall_insert_2; [split; reflexivity | exact H].
Qed.

Lemma buildTags_on_page_0 (tags : list tag.t) : on_page_0 (buildTags tags).
Proof.
  unfold buildTags.
  assert (H : on_page_0 emptyControlData) by apply map_Forall_empty.
  revert H. generalize emptyControlData.
  induction tags as [| t tags IH]; intros d H; [exact H |].
  apply IH, buildTag_on_page_0, H.
Qed.

Lemma char_on_page_0 {Image} (f : BitmapFont.t Image) (r : Z) (ch : Char.t) :
  on_page_0 (BitmapFont.Descriptor f) -> char f r = Some ch ->
  Char.Page ch = 0.
Proof.
  intros H. unfold char.
  destruct (Descriptor.Chars (BitmapFont.Descriptor f) !! r) as [c |] eqn:E.
  - intros [= <-]. exact (proj1 (H r c E)).
  - intros E'. exact (proj1 (H _ ch E')).
Qed.

Lemma drawSteps_sheet_0 {Image} (f : BitmapFont.t Image) pos
    (rs : list (Z * Z)) (st : loopState (list (drawCall Image))) :
  on_page_0 (BitmapFont.Descriptor f) ->
  Forall (fun c => call_src c = BitmapFont.PageSheets f !! 0) (dst st) ->
  Forall (fun c => call_src c = BitmapFont.PageSheets f !! 0)
         (dst (fold_left (drawStep f pos) rs st)).
Proof.
  intros Hd. revert st. induction rs as [| [i r] rs IH]; intros st H;
    [exact H |].
  cbn [fold_left]. apply IH.
  destruct (Z.eq_dec r newline) as [-> | Hr]; [exact H |].
  destruct (char f r) as [ch |] eqn:Hch.
  - rewrite (drawStep_glyph f pos st i r ch Hr Hch). cbn [dst].
    apply Forall_app. split; [exact H |].
    constructor; [| constructor]. cbn [call_src].
    rewrite (char_on_page_0 f r ch Hd Hch). reflexivity.
  - rewrite (drawStep_skip f pos st i r Hr Hch). exact H.
Qed.

(** C10.  In every descriptor that [parseControlData] returns, every
    glyph has [Page] 0 and [Channel] 0, whatever the [page] and [chnl]
    attributes of its [char] line; so with any sheets, at any position
    and for any text, every call that [drawText] makes on its drawer
    passes the sheet at index 0 (nil if there is none). *)
Theorem parsed_glyphs_are_on_page_0 (T : unicode.Tables)
    (filename r : string) (desc : Descriptor.t) :
  parseControlData T filename r = Some (Some desc, None) ->
  map_Forall (fun _ c => Char.Page c = 0 /\ Char.Channel c = 0)
             (Descriptor.Chars desc)
  /\ forall (Image : Type) (sheets : gmap Z Image) pos text,
       Forall (fun c => call_src c = sheets !! 0)
              (drawCalls (BitmapFont.mk desc sheets) pos text).
Proof.
  intros H.
  assert (Hd : on_page_0 desc).
  { unfold parseControlData in H.
    destruct (tagsParser.parse T filename r) as [[tags [e |]] |];
      try discriminate H.
    injection H as <-. apply buildTags_on_page_0. }
  split; [exact Hd |].
  intros Image sheets pos text. unfold drawCalls, drawText, drawLoop.
  apply (drawSteps_sheet_0 (BitmapFont.mk desc sheets)); [exact Hd |].
  constructor.
Qed.

End BuilderClaims.

Lemma parsed_glyphs_are_on_page_0_witness :
  map_Forall (fun _ c => Char.Page c = 0 /\ Char.Channel c = 0)
             (Descriptor.Chars Sample.desc_char_on_page_1)
  /\ forall (Image : Type) (sheets : gmap Z Image) pos text,
       Forall (fun c => call_src c = sheets !! 0)
              (drawCalls (BitmapFont.mk Sample.desc_char_on_page_1 sheets)
                 pos text).
Proof.
  apply (parsed_glyphs_are_on_page_0 Sample.tables "bmfont"
           Sample.char_on_page_1).
  vm_compute. reflexivity.
Defined.

(** The [char] line of the sample has [page=1] and [chnl=15]; the glyph
    built from it has neither. *)
Example char_line_with_page_and_chnl :
  option_map (fun tp => map (fun t => (tag.attrs t !! "page",
                                       tag.attrs t !! "chnl")) tp.1)
    (tagsParser.parse Sample.tables "bmfont" Sample.char_on_page_1)
  = Some [(Some "1", Some "15")]
  /\ Descriptor.Chars Sample.desc_char_on_page_1 !! 65
     = Some (Char.mk 65 1 2 3 4 0 0 5 0 0).
Proof. split; vm_compute; reflexivity. Qed.

(** ** Claims about loading the page sheets *)

Section LoadingClaims.
Context {Image : Type}.
Variable image_Decode : string -> Image + error.

#[local] Abbreviation read := (SheetReaderFunc_read image_Decode).

(** A sheet that comes without an error is an image. *)
Lemma read_without_error (sheets : SheetReaderFunc) (filename : string)
    (sheet : option Image) :
  read sheets filename = (sheet, None) -> is_Some sheet.
Proof.
  unfold SheetReaderFunc_read.
  destruct (sheets filename) as [rc | e]; [| discriminate].
  destruct (image_Decode (content rc)) as [img | e].
  - intros [= <- _]. eexists. reflexivity.
  - unfold closeChecked. destruct (closeError rc); discriminate.
Qed.

(** The loop over the pages: either every page is read without an error,
    [sheets] has been called with the file of every page, in the order of
    the iteration, and there is a sheet for the index of every page; or
    the loop has ended at the first page whose sheet came with an error,
    with that error, and [sheets] has been called with the files of the
    pages up to that one only. *)
Lemma readPages_spec (sheets : SheetReaderFunc) (pages : list (Z * Page.t))
    (ps : gmap Z Image) (log : list string) :
  (Forall (fun jp => (read sheets (file_of jp)).2 = None) pages
   /\ exists ps',
        readPages image_Decode sheets pages ps log
        = (inl ps', log ++ map file_of pages)
        /\ forall i, is_Some (ps' !! i)
                     <-> is_Some (ps !! i) \/ i ∈ pages.*1)
  \/ (exists before ip after err,
        pages = before ++ ip :: after
        /\ Forall (fun jp => (read sheets (file_of jp)).2 = None) before
        /\ (read sheets (file_of ip)).2 = Some err
        /\ readPages image_Decode sheets pages ps log
           = (inr err, log ++ map file_of (before ++ [ip]))).
Proof.
  revert ps log. induction pages as [| [i page] rest IH]; intros ps log.
  - left. split; [constructor |]. exists ps. split.
    + simpl. rewrite app_nil_r. reflexivity.
    + intros j. split; [auto |]. intros [H | H]; [exact H |].
      simpl in H. by apply elem_of_nil in H.
  - cbn [readPages].
    destruct (read sheets (Page.File page)) as [sheet [err |]] eqn:E.
    + right. exists [], (i, page), rest, err. unfold file_of. cbn [snd].
      rewrite E. split; [reflexivity |]. split; [by apply Forall_nil |].
      split; [reflexivity |]. destruct sheet; reflexivity.
    + destruct (read_without_error sheets _ sheet E) as [img ->].
      destruct (IH (<[i := img]> ps) (log ++ [Page.File page]))
        as [[Hok (ps' & Hrun & Hdom)]
           | (before & ip & after & err & Hp & Hok & Herr & Hrun)].
      * left. split.
        { constructor; [| exact Hok].
          unfold file_of. cbn [snd]. rewrite E. reflexivity. }
        exists ps'. split.
        { rewrite Hrun. cbn [map]. rewrite <- app_assoc. reflexivity. }
        intros j. rewrite Hdom. cbn [fmap list_fmap fst].
        rewrite elem_of_cons.
        destruct (decide (i = j)) as [-> | Hne].
        -- rewrite lookup_insert_eq. split; [auto |]. intros _.
           left. eexists. reflexivity.
        -- rewrite lookup_insert_ne by exact Hne. split.
           ++ intros [H | H]; auto.
           ++ intros [H | [H | H]]; auto. congruence.
      * right. exists ((i, page) :: before), ip, after, err.
        split; [rewrite Hp; reflexivity |]. split.
        { constructor; [| exact Hok].
          unfold file_of. cbn [snd]. rewrite E. reflexivity. }
        split; [exact Herr |].
        rewrite Hrun. cbn [map app]. rewrite <- app_assoc. reflexivity.
Qed.

Lemma ReadDescriptor_result (T : unicode.Tables) (r : string)
    (d : option Descriptor.t * option error) :
  ReadDescriptor T r = Some d ->
  (exists desc, d = (Some desc, None)) \/ (exists err, d = (None, Some err)).
Proof.
  unfold ReadDescriptor, parseDescriptor, parseControlData.
  destruct (tagsParser.parse T "bmfont" r) as [[tags [e |]] |];
    intros [= <-]; eauto.
Qed.

(** C9, as the code has it.  In every run of [Read]: if the descriptor
    comes with an error, that error is returned, with no font and without
    a call of [sheets].  Otherwise the pages of the descriptor are gone
    through in an order of the map iteration, which need not be the
    ascending one; either [sheets] is called for every page, once, in that
    order, and the font returned has a sheet for exactly the indices of
    the page table, or the first page whose sheet comes with an error
    (of opening, decoding or closing) ends the run with that error and no
    font, [sheets] having been called for the pages up to that one. *)
Theorem Read_opens_pages_in_iteration_order (T : unicode.Tables)
    (r : string) (sheets : SheetReaderFunc)
    (res : option (BitmapFont.t Image) * option error)
    (calls : list string) :
  Read image_Decode T r sheets res calls ->
  (exists err,
     ReadDescriptor T r = Some (None, Some err)
     /\ res = (None, Some err) /\ calls = [])
  \/ (exists desc pages,
        ReadDescriptor T r = Some (Some desc, None)
        /\ iteration_order (Descriptor.Pages desc) pages
        /\ ((exists PageSheets,
               res = (Some (BitmapFont.mk desc PageSheets), None)
               /\ calls = map file_of pages
               /\ Forall (fun jp => (read sheets (file_of jp)).2 = None)
                         pages
               /\ forall i, is_Some (PageSheets !! i)
                            <-> is_Some (Descriptor.Pages desc !! i))
            \/ (exists before ip after err,
                  pages = before ++ ip :: after
                  /\ Forall (fun jp => (read sheets (file_of jp)).2 = None)
                            before
                  /\ (read sheets (file_of ip)).2 = Some err
                  /\ res = (None, Some err)
                  /\ calls = map file_of (before ++ [ip])))).
Proof.
  intros (d & pages & Hd & Hord & Hrun).
  destruct (ReadDescriptor_result T r d Hd) as [[desc ->] | [err ->]].
  - right. exists desc, pages. cbn [fst] in Hord.
    split; [exact Hd |]. split; [exact Hord |].
    cbn [ReadFrom] in Hrun.
    destruct (readPages_spec sheets pages ∅ [])
      as [[Hok (ps' & Hrp & Hdom)]
         | (before & ip & after & err & Hp & Hok & Herr & Hrp)];
      rewrite Hrp in Hrun; injection Hrun as <- <-.
    + left. exists ps'. split; [reflexivity |]. split; [reflexivity |].
      split; [exact Hok |]. intros i. rewrite Hdom. split.
      * intros [[x Hx] | Hin]; [by rewrite lookup_empty in Hx |].
        apply list_elem_of_fmap in Hin. destruct Hin as ([j pg] & -> & Hin).
        rewrite Hord in Hin. apply elem_of_map_to_list in Hin.
        eexists. exact Hin.
      * intros [pg Hpg]. right.
        apply list_elem_of_fmap. exists (i, pg). split; [reflexivity |].
        rewrite Hord. apply elem_of_map_to_list. exact Hpg.
    + right. exists before, ip, after, err. done.
  - left. exists err. cbn [ReadFrom] in Hrun. injection Hrun as <- <-.
    done.
Qed.

(** [Read] has a run for every input and every sheet reader. *)
Lemma Read_total (T : unicode.Tables) (r : string)
    (sheets : SheetReaderFunc) :
  exists res calls, Read image_Decode T r sheets res calls.
Proof.
  destruct (run_total T "bmfont" r) as (tags & p & E & _).
  assert (Hd : exists d, ReadDescriptor T r = Some d).
  { unfold ReadDescriptor, parseDescriptor, parseControlData,
      tagsParser.parse. rewrite E.
    destruct (errorList.Err (tagsParser.errors p)); eauto. }
  destruct Hd as [d Hd].
  set (pages := match d.1 with
                | Some desc => map_to_list (Descriptor.Pages desc)
                | None => []
                end).
  exists (ReadFrom image_Decode d sheets pages).1,
         (ReadFrom image_Decode d sheets pages).2.
  exists d, pages. split; [exact Hd |]. split.
  - subst pages. destruct d.1; [unfold iteration_order |]; reflexivity.
  - destruct (ReadFrom image_Decode d sheets pages). reflexivity.
Qed.

End LoadingClaims.

(** A run of [Read] on the sample with two pages that goes through the
    pages in descending order. *)
Lemma two_pages_descending_run :
  Read Sample.decode_any Sample.tables Sample.two_pages Sample.open_any
       Sample.two_pages_result ["b.png"; "a.png"].
Proof.
  exists (Some Sample.two_pages_desc, None),
         [(1, Page.mk 1 "b.png"); (0, Page.mk 0 "a.png")].
  split; [vm_compute; reflexivity |]. split.
  - cbn [fst]. unfold iteration_order.
    replace (map_to_list (Descriptor.Pages Sample.two_pages_desc))
      with [(1, Page.mk 1 "b.png"); (0, Page.mk 0 "a.png")]
      by (vm_compute; reflexivity).
    reflexivity.
  - vm_compute. reflexivity.
Qed.

(** The files of the pages are not always opened in the ascending order
    of the page indices. *)
Lemma pages_need_not_be_opened_in_ascending_order :
  ~ (forall res calls,
       Read Sample.decode_any Sample.tables Sample.two_pages
            Sample.open_any res calls ->
       calls = ["a.png"; "b.png"]).
Proof.
  intros H. specialize (H _ _ two_pages_descending_run). discriminate H.
Qed.

(** When the file of page 0 cannot be opened and the iteration starts
    with page 0, the file of page 1 is not asked for. *)
Example failing_page_ends_the_run :
  Read Sample.decode_any Sample.tables Sample.two_pages Sample.open_but_a
       (None,
        Some (external_error "open a.png: no such file or directory"))
       ["a.png"].
Proof.
  exists (Some Sample.two_pages_desc, None),
         [(0, Page.mk 0 "a.png"); (1, Page.mk 1 "b.png")].
  split; [vm_compute; reflexivity |]. split.
  - cbn [fst]. unfold iteration_order.
    replace (map_to_list (Descriptor.Pages Sample.two_pages_desc))
      with [(1, Page.mk 1 "b.png"); (0, Page.mk 0 "a.png")]
      by (vm_compute; reflexivity).
    apply perm_swap.
  - vm_compute. reflexivity.
Qed.

Lemma Read_opens_pages_in_iteration_order_witness :
  (exists err,
     ReadDescriptor Sample.tables Sample.two_pages = Some (None, Some err)
     /\ Sample.two_pages_result = (None, Some err)
     /\ ["b.png"; "a.png"] = [])
  \/ (exists desc pages,
        ReadDescriptor Sample.tables Sample.two_pages
        = Some (Some desc, None)
        /\ iteration_order (Descriptor.Pages desc) pages
        /\ ((exists PageSheets,
               Sample.two_pages_result
               = (Some (BitmapFont.mk desc PageSheets), None)
               /\ ["b.png"; "a.png"] = map file_of pages
               /\ Forall
                    (fun jp =>
                       (SheetReaderFunc_read Sample.decode_any
                          Sample.open_any (file_of jp)).2 = None)
                    pages
               /\ forall i, is_Some (PageSheets !! i)
                            <-> is_Some (Descriptor.Pages desc !! i))
            \/ (exists before ip after err,
                  pages = before ++ ip :: after
                  /\ Forall
                       (fun jp =>
                          (SheetReaderFunc_read Sample.decode_any
                             Sample.open_any (file_of jp)).2 = None)
                       before
                  /\ (SheetReaderFunc_read Sample.decode_any
                        Sample.open_any (file_of ip)).2 = Some err
                  /\ Sample.two_pages_result = (None, Some err)
                  /\ ["b.png"; "a.png"] = map file_of (before ++ [ip])))).
Proof.
  apply (Read_opens_pages_in_iteration_order Sample.decode_any
           Sample.tables Sample.two_pages Sample.open_any).
  exists (Some Sample.two_pages_desc, None),
         [(1, Page.mk 1 "b.png"); (0, Page.mk 0 "a.png")].
  split; [vm_compute; reflexivity |]. split.
  - cbn [fst]. unfold iteration_order.
    replace (map_to_list (Descriptor.Pages Sample.two_pages_desc))
      with [(1, Page.mk 1 "b.png"); (0, Page.mk 0 "a.png")]
      by (vm_compute; reflexivity).
    reflexivity.
  - vm_compute. reflexivity.
Defined.

(* ===================================================================== *)
(** * Part III: further properties of the code                            *)
(* ===================================================================== *)

(** ** Rectangles *)
Section ImageFacts.

Lemma Empty_true (r : image.Rectangle) :
  image.Empty r = true
  <-> image.X (image.Min r) >= image.X (image.Max r)
      \/ image.Y (image.Min r) >= image.Y (image.Max r).
Proof.
  unfold image.Empty. rewrite orb_true_iff, !Z.geb_le. lia.
Qed.

Lemma Empty_false (r : image.Rectangle) :
  image.Empty r = false
  <-> image.X (image.Min r) < image.X (image.Max r)
      /\ image.Y (image.Min r) < image.Y (image.Max r).
Proof.
  rewrite <- not_true_iff_false, Empty_true. lia.
Qed.

Lemma In_true (r s : image.Rectangle) :
  image.In r s = true
  <-> image.Empty r = true
      \/ (image.X (image.Min s) <= image.X (image.Min r)
          /\ image.X (image.Max r) <= image.X (image.Max s)
          /\ image.Y (image.Min s) <= image.Y (image.Min r)
          /\ image.Y (image.Max r) <= image.Y (image.Max s)).
Proof.
  unfold image.In. destruct (image.Empty r).
  - split; auto.
  - rewrite !andb_true_iff, !Z.leb_le. split.
    + intros H. right. lia.
    + intros [H | H]; [discriminate | lia].
Qed.

(** The union of two rectangles that are not empty, with [Z.min] and
    [Z.max] for the comparisons of the source. *)
Lemma Union_nonempty (r s : image.Rectangle) :
  image.Empty r = false -> image.Empty s = false ->
  image.Union r s
  = image.mkRectangle
      (image.mkPoint (Z.min (image.X (image.Min r)) (image.X (image.Min s)))
                     (Z.min (image.Y (image.Min r)) (image.Y (image.Min s))))
      (image.mkPoint (Z.max (image.X (image.Max r)) (image.X (image.Max s)))
                     (Z.max (image.Y (image.Max r)) (image.Y (image.Max s)))).
Proof.
  intros Hr Hs. unfold image.Union. rewrite Hr, Hs.
  rewrite !Z.gtb_ltb.
  repeat match goal with
  | |- context [?a <? ?b] => destruct (Z.ltb_spec a b)
  end; f_equal; f_equal; lia.
Qed.

Lemma In_refl (r : image.Rectangle) : image.In r r = true.
Proof. apply In_true. right. lia. Qed.

Lemma In_trans (a b c : image.Rectangle) :
  image.In a b = true -> image.In b c = true -> image.In a c = true.
Proof.
  rewrite !In_true. intros [Ha | Ha]; [auto |].
  destruct (image.Empty a) eqn:Ea; [auto |].
  apply Empty_false in Ea.
  intros [Hb | Hb]; [apply Empty_true in Hb; lia |].
  right. lia.
Qed.

Lemma In_Union_l (r s : image.Rectangle) : image.In r (image.Union r s) = true.
Proof.
  destruct (image.Empty r) eqn:Er.
  { apply In_true. auto. }
  destruct (image.Empty s) eqn:Es.
  { unfold image.Union. rewrite Er, Es. apply In_refl. }
  rewrite Union_nonempty by assumption. apply In_true. right.
  cbn [image.Min image.Max image.X image.Y]. lia.
Qed.

Lemma In_Union_r (r s : image.Rectangle) : image.In s (image.Union r s) = true.
Proof.
  destruct (image.Empty r) eqn:Er.
  { unfold image.Union. rewrite Er. apply In_refl. }
  destruct (image.Empty s) eqn:Es.
  { apply In_true. auto. }
  rewrite Union_nonempty by assumption. apply In_true. right.
  cbn [image.Min image.Max image.X image.Y]. lia.
Qed.

(** A union of rectangles, taken one after the other, contains the one it
    starts with and every one that is added. *)
Lemma In_fold_Union (rs : list image.Rectangle) (acc : image.Rectangle) :
  image.In acc (fold_left image.Union rs acc) = true
  /\ Forall (fun r => image.In r (fold_left image.Union rs acc) = true) rs.
Proof.
  revert acc. induction rs as [| r rs IH]; intros acc; simpl.
  - split; [apply In_refl | constructor].
  - destruct (IH (image.Union acc r)) as [H1 H2]. split; [| constructor].
    + apply (In_trans _ (image.Union acc r)); [apply In_Union_l | exact H1].
    + apply (In_trans _ (image.Union acc r)); [apply In_Union_r | exact H1].
    + exact H2.
Qed.

End ImageFacts.

Section GoIntMore.

Lemma wrap_add_l (a b : Z) : Go.wrap 64 (Go.wrap 64 a + b) = Go.wrap 64 (a + b).
Proof.
  unfold Go.wrap. f_equal.
  replace ((a + 2 ^ (64 - 1)) mod 2 ^ 64 - 2 ^ (64 - 1) + b + 2 ^ (64 - 1))
    with ((a + 2 ^ (64 - 1)) mod 2 ^ 64 + b) by ring.
  rewrite Zplus_mod_idemp_l. f_equal. ring.
Qed.

Lemma wrap_add_r (a b : Z) : Go.wrap 64 (a + Go.wrap 64 b) = Go.wrap 64 (a + b).
Proof. rewrite (Z.add_comm a), wrap_add_l. f_equal. ring. Qed.

Lemma wrap_sub_l (a b : Z) : Go.wrap 64 (Go.wrap 64 a - b) = Go.wrap 64 (a - b).
Proof. apply (wrap_add_l a (- b)). Qed.

(** The result of an operation on [int] is an [int]. *)
Lemma wrap_range (z : Z) : Go.int_min <= Go.wrap 64 z <= Go.int_max.
Proof.
  unfold Go.wrap, Go.int_min, Go.int_max.
  pose proof (Z.mod_pos_bound (z + 2 ^ (64 - 1)) (2 ^ 64) ltac:(lia)).
  change (2 ^ (64 - 1)) with (2 ^ 63) in *.
  change (2 ^ 64) with (2 * 2 ^ 63) in *. lia.
Qed.

(** Sums and differences on [int] up to the order of the operands. *)
Ltac int_ring :=
  unfold Go.int_add, Go.int_sub;
  rewrite ?wrap_add_l, ?wrap_add_r, ?wrap_sub_l;
  rewrite ?wrap_add_l, ?wrap_add_r, ?wrap_sub_l;
  f_equal; ring.

Lemma int_add_swap (x p o : Z) :
  Go.int_add (Go.int_add x p) o = Go.int_add (Go.int_add x o) p.
Proof. int_ring. Qed.

Lemma int_sub_add_swap (y p b o : Z) :
  Go.int_add (Go.int_sub (Go.int_add y p) b) o
  = Go.int_add (Go.int_add (Go.int_sub y b) o) p.
Proof.
  unfold Go.int_add, Go.int_sub. rewrite !wrap_add_l.
  replace (Go.wrap 64 (y + p) - b + o) with (Go.wrap 64 (y + p) + (o - b))
    by ring.
  replace (Go.wrap 64 (y - b) + o + p) with (Go.wrap 64 (y - b) + (o + p))
    by ring.
  rewrite !wrap_add_l. f_equal. ring.
Qed.

Lemma int_add_0_l (x : Z) :
  Go.int_min <= x <= Go.int_max -> Go.int_add 0 x = x.
Proof. intros H. apply int_add_exact. lia. Qed.

End GoIntMore.

Section EngineShift.
Context {Image : Type}.
Implicit Types (f : BitmapFont.t Image) (pos : image.Point).

Lemma destRect_Add (d : Descriptor.t) (c p : image.Point) (ch : Char.t) :
  destRect d (image.Add c p) ch = image.RectAdd (destRect d c ch) p.
Proof.
  unfold destRect, image.RectAdd, image.Add, image.Pt.
  cbn [image.Min image.Max image.X image.Y].
  rewrite (int_add_swap (image.X c) (image.X p)), int_sub_add_swap.
  rewrite !(int_add_swap _ (image.X p)), !(int_add_swap _ (image.Y p)).
  reflexivity.
Qed.

Lemma advance_add (d : Descriptor.t) (i pr r x q : Z) (ch : Char.t) :
  advance d i pr r (Go.int_add x q) ch = Go.int_add (advance d i pr r x ch) q.
Proof.
  unfold advance. destruct (i >? 0).
  - destruct (Descriptor.Kerning d !! CharPair.mk pr r).
    + rewrite (int_add_swap x q), (int_add_swap _ q). reflexivity.
    + apply int_add_swap.
  - apply int_add_swap.
Qed.

(** One round of the loop from a moved state is the moved round. *)
Lemma drawStep_move f pos (st : loopState (list (drawCall Image)))
    (ir : Z * Z) :
  Go.int_min <= image.X pos <= Go.int_max ->
  drawStep f pos (moveState pos st) ir
  = moveState pos (drawStep f image.ZP st ir).
Proof.
  intros Hx. destruct ir as [i r]. unfold drawStep.
  destruct (r =? newline).
  - unfold moveState, image.Add. cbn [cursor prev dst image.X image.Y image.ZP].
    rewrite (int_add_0_l _ Hx), int_add_swap. reflexivity.
  - destruct (char f r) as [ch |]; [| reflexivity].
    unfold moveState, image.Add.
    cbn [cursor prev dst image.X image.Y].
    rewrite advance_add. f_equal.
    change (Draw ?l ?r ?s ?p) with (l ++ [mkCall r s p]).
    rewrite map_app. cbn [map]. do 2 f_equal.
    unfold moveCall. cbn [call_r call_src call_sp]. f_equal.
    apply (destRect_Add _ (cursor st) pos).
Qed.

Lemma drawSteps_move f pos (rs : list (Z * Z))
    (st : loopState (list (drawCall Image))) :
  Go.int_min <= image.X pos <= Go.int_max ->
  fold_left (drawStep f pos) rs (moveState pos st)
  = moveState pos (fold_left (drawStep f image.ZP) rs st).
Proof.
  intros Hx. revert st. induction rs as [| ir rs IH]; intros st;
    [reflexivity |].
  cbn [fold_left]. rewrite drawStep_move by exact Hx. apply IH.
Qed.

Lemma drawLoop_move f pos (text : string) :
  Go.int_min <= image.X pos <= Go.int_max ->
  Go.int_min <= image.Y pos <= Go.int_max ->
  drawLoop f ([] : list (drawCall Image)) pos text
  = moveState pos (drawLoop f ([] : list (drawCall Image)) image.ZP text).
Proof.
  intros Hx Hy. unfold drawLoop. rewrite <- drawSteps_move by exact Hx.
  f_equal. unfold moveState, image.Add.
  cbn [cursor prev dst image.X image.Y image.ZP map].
  rewrite !int_add_0_l by assumption. destruct pos; reflexivity.
Qed.

End EngineShift.

(** ** The layout engine: what is drawn, and where *)

Section EngineMore.
Context {Image : Type}.
Implicit Types (f : BitmapFont.t Image) (pos : image.Point).

(** The glyph of a code point is a glyph of the table. *)
Lemma char_in_Chars f (r : Z) (ch : Char.t) :
  char f r = Some ch ->
  exists k, Descriptor.Chars (BitmapFont.Descriptor f) !! k = Some ch.
Proof.
  unfold char.
  destruct (Descriptor.Chars (BitmapFont.Descriptor f) !! r) as [c |] eqn:E.
  - intros [= <-]. exists r. exact E.
  - intros E'. exists question_mark. exact E'.
Qed.

(** The calls recorded by the loop from any state: those already
    recorded, then one for every code point with a glyph.  A call has
    the sheet of the glyph's page, the glyph's position in the sheet,
    and a rectangle of the glyph's size. *)
Lemma drawSteps_glyphs f pos (P : drawCall Image -> Char.t -> Prop)
    (rs : list (Z * Z)) (st : loopState (list (drawCall Image)))
    (gs : list Char.t) :
  (forall k ch rect,
     Descriptor.Chars (BitmapFont.Descriptor f) !! k = Some ch ->
     P (mkCall (image.mkRectangle (image.Min rect)
                  (image.Add (image.Min rect) (Char.Size ch)))
          (BitmapFont.PageSheets f !! Char.Page ch) (Char.Pos ch))
       ch) ->
  Forall2 P (dst st) gs ->
  Forall2 P (dst (fold_left (drawStep f pos) rs st))
    (gs ++ omap (fun ir : Z * Z =>
                   if ir.2 =? newline then None else char f ir.2) rs).
Proof.
  intros HP. revert st gs. induction rs as [| [i r] rs IH]; intros st gs H.
  - simpl. rewrite app_nil_r. exact H.
  - cbn [fold_left omap list_omap snd]. unfold drawStep at 2.
    destruct (r =? newline); [apply IH; exact H |].
    destruct (char f r) as [ch |] eqn:Hch; [| apply IH; exact H].
    cbn [mbind option_bind].
    change (gs ++ ch :: ?l) with (gs ++ [ch] ++ l). rewrite app_assoc.
    apply IH. cbn [dst].
    change (Draw (dst st) ?r ?s ?p) with (dst st ++ [mkCall r s p]).
    apply Forall2_app; [exact H |]. constructor; [| constructor].
    destruct (char_in_Chars f r ch Hch) as [k Hk].
    apply (HP k ch (destRect (BitmapFont.Descriptor f) (cursor st) ch) Hk).
Qed.

Lemma drawCalls_glyphs f pos (text : string) :
  Forall2 (fun c ch =>
             call_src c = BitmapFont.PageSheets f !! Char.Page ch
             /\ call_sp c = Char.Pos ch
             /\ image.Max (call_r c)
                = image.Add (image.Min (call_r c)) (Char.Size ch))
    (drawCalls f pos text) (glyphs f text).
Proof.
  unfold drawCalls, drawText, drawLoop, glyphs.
  apply (drawSteps_glyphs f pos _ _ (mkLoop pos 0 []) []).
  - intros k ch rect _. cbn. auto.
  - constructor.
Qed.

(** The size of a rectangle that reaches from a point to that point
    moved by an [int] width and height. *)
Lemma Size_of_Add (p sz : image.Point) :
  is_int (image.X sz) -> is_int (image.Y sz) ->
  image.Size (image.mkRectangle p (image.Add p sz)) = sz.
Proof.
  intros Hx Hy. unfold image.Size, image.Add.
  cbn [image.Min image.Max image.X image.Y].
  unfold Go.int_sub, Go.int_add. rewrite !wrap_sub_l.
  replace (image.X p + image.X sz - image.X p) with (image.X sz) by ring.
  replace (image.Y p + image.Y sz - image.Y p) with (image.Y sz) by ring.
  rewrite !wrap_small by assumption. destruct sz; reflexivity.
Qed.

End EngineMore.

Section EngineExtras.
Context {Image : Type}.
Implicit Types (f : BitmapFont.t Image) (pos : image.Point).

(** X1.  The rectangle that [MeasureText] returns for a text contains
    (in the sense of [Rectangle.In]) the destination rectangle of every
    call that drawing the text at (0,0) makes, for every font and every
    text. *)
Theorem MeasureText_contains_every_drawn_rectangle f (text : string) :
  Forall (fun c => image.In (call_r c) (MeasureText f text) = true)
         (drawCalls f image.ZP text).
Proof.
  unfold MeasureText. rewrite drawText_replay, bounds_replay.
  cbn [bounds].
  destruct (In_fold_Union (map call_r (drawCalls f image.ZP text)) image.ZR)
    as [_ H].
  rewrite Forall_map in H. exact H.
Qed.

(** X2.  Drawing a text at a position [pos] makes the calls of drawing
    it at (0,0) with every destination rectangle moved by [pos]
    ([Rectangle.Add]), the same sheets and source points, and leaves the
    cursor moved by [pos].  The coordinates of [pos] are [int]s. *)
Theorem drawing_at_a_position_is_drawing_at_the_origin_moved
    f pos (text : string) :
  Go.int_min <= image.X pos <= Go.int_max ->
  Go.int_min <= image.Y pos <= Go.int_max ->
  drawCalls f pos text = map (moveCall pos) (drawCalls f image.ZP text)
  /\ cursor (drawLoop f ([] : list (drawCall Image)) pos text)
     = image.Add
         (cursor (drawLoop f ([] : list (drawCall Image)) image.ZP text))
         pos.
Proof.
  intros Hx Hy. unfold drawCalls, drawText.
  rewrite (drawLoop_move f pos text Hx Hy). split; reflexivity.
Qed.

(** X3.  Drawing a text makes one call for every code point of the text
    that is not a newline and has a glyph or the fallback glyph, in the
    order of the text, and no other call.  The call has the sheet stored
    for the glyph's page (nil when there is none), the glyph's position
    in the sheet as the source point, and a rectangle of the glyph's
    size. *)
Theorem one_Draw_call_per_glyph_of_the_text f pos (text : string) :
  Forall2 (fun c ch =>
             call_src c = BitmapFont.PageSheets f !! Char.Page ch
             /\ call_sp c = Char.Pos ch
             /\ image.Max (call_r c)
                = image.Add (image.Min (call_r c)) (Char.Size ch))
    (drawCalls f pos text) (glyphs f text).
Proof. apply drawCalls_glyphs. Qed.

(** X4.  A text in which every code point is a newline or has neither a
    glyph nor the fallback glyph draws nothing, wherever it is drawn, and
    measures as the zero rectangle. *)
Theorem text_without_glyphs_draws_nothing f (text : string) :
  Forall (fun ir : Z * Z => ir.2 = newline \/ char f ir.2 = None)
         (utf8.range_string text) ->
  (forall pos, drawCalls f pos text = [])
  /\ MeasureText f text = image.ZR.
Proof.
  intros H.
  assert (Hg : glyphs f text = []).
  { unfold glyphs. induction H as [| [i r] rs Hr _ IH]; [reflexivity |].
    cbn [omap list_omap snd] in *. destruct Hr as [Hr | Hr].
    - subst r. exact IH.
    - rewrite Hr. destruct (r =? newline); exact IH. }
  assert (Hc : forall pos, drawCalls f pos text = []).
  { intros pos. pose proof (drawCalls_glyphs f pos text) as HF.
    rewrite Hg in HF. inversion HF. reflexivity. }
  split; [exact Hc |].
  unfold MeasureText. rewrite drawText_replay, Hc. reflexivity.
Qed.

(** X5.  The earlier [DrawText], with the loop and the call of
    [draw.Draw] in one function, and [DrawText] of bitmapfont.go, which
    goes through [drawText] and an [imageDrawer], leave the same
    destination image, for the same descriptor and sheets. *)
Theorem DrawText_agrees_with_the_earlier_DrawText {Surface}
    (draw_Over :
       Surface -> image.Rectangle -> option Image -> image.Point -> Surface)
    (d : Descriptor.t) (sheets : gmap Z Image) (dst0 : Surface)
    pos (text : string) :
  Legacy.DrawText draw_Over (Legacy.mkBitmapFont d sheets) dst0 pos text
  = DrawText draw_Over (BitmapFont.mk d sheets) dst0 pos text.
Proof.
  unfold Legacy.DrawText, DrawText, drawText, drawLoop.
  set (f0 := Legacy.mkBitmapFont d sheets).
  set (f := BitmapFont.mk d sheets).
  assert (Hstep : forall ir c p s,
    Legacy.step draw_Over f0 pos (c, p, s) ir
    = let st := drawStep (drawer0 := imageDrawer_Draw draw_Over) f pos
                  (mkLoop c p (mkImageDrawer s)) ir in
      (cursor st, prev st, surface (dst st))).
  { intros [i r] c p s. unfold Legacy.step, drawStep.
    change (r =? 10) with (r =? newline).
    destruct (r =? newline); [reflexivity |].
    change (Legacy.char f0 r) with (char f r).
    destruct (char f r) as [ch |]; reflexivity. }
  assert (H : forall rs c p s,
    fold_left (Legacy.step draw_Over f0 pos) rs (c, p, s)
    = let st := fold_left
                  (drawStep (drawer0 := imageDrawer_Draw draw_Over) f pos) rs
                  (mkLoop c p (mkImageDrawer s)) in
      (cursor st, prev st, surface (dst st))).
  { induction rs as [| ir rs IH]; intros c p s; [reflexivity |].
    cbn [fold_left]. rewrite Hstep. cbv zeta.
    destruct (drawStep f pos _ ir) as [c' p' [s']].
    cbn [cursor prev dst surface]. apply IH. }
  rewrite H. reflexivity.
Qed.

(** X15.  When the widths and heights of the glyphs are [int]s, every
    call of drawing a text has a destination rectangle of the size of
    its glyph ([Char.Size]), and, the source point being the glyph's
    position, the region of the sheet that starts at the source point
    and has that size is the glyph's [Bounds]. *)
Theorem every_call_draws_the_Bounds_of_its_glyph f pos (text : string) :
  int_sizes (Descriptor.Chars (BitmapFont.Descriptor f)) ->
  Forall2 (fun c ch =>
             image.Size (call_r c) = Char.Size ch
             /\ image.mkRectangle (call_sp c)
                  (image.Add (call_sp c) (image.Size (call_r c)))
                = Char.Bounds ch)
    (drawCalls f pos text) (glyphs f text).
Proof.
  intros Hint. unfold drawCalls, drawText, drawLoop, glyphs.
  apply (drawSteps_glyphs f pos _ _ (mkLoop pos 0 []) []);
    [| constructor].
  intros k ch rect Hk. cbn [call_r call_sp].
  destruct (Hint k ch Hk) as [Hw Hh].
  rewrite Size_of_Add by assumption. split; reflexivity.
Qed.

End EngineExtras.

Section EngineWitnesses.

Lemma drawing_at_a_position_is_drawing_at_the_origin_moved_witness :
  drawCalls Sample.fontAV (image.Pt 3 4) "AV"
  = map (moveCall (image.Pt 3 4)) (drawCalls Sample.fontAV image.ZP "AV")
  /\ cursor (drawLoop Sample.fontAV ([] : list (drawCall unit))
               (image.Pt 3 4) "AV")
     = image.Add
         (cursor (drawLoop Sample.fontAV ([] : list (drawCall unit))
                    image.ZP "AV"))
         (image.Pt 3 4).
Proof.
  apply (drawing_at_a_position_is_drawing_at_the_origin_moved
           Sample.fontAV (image.Pt 3 4) "AV");
    unfold Go.int_min, Go.int_max; simpl; lia.
Defined.

Lemma text_without_glyphs_draws_nothing_witness :
  (forall pos, drawCalls Sample.fontAV pos ("Z" +:+ Sample.nl +:+ "?") = [])
  /\ MeasureText Sample.fontAV ("Z" +:+ Sample.nl +:+ "?") = image.ZR.
Proof.
  apply (text_without_glyphs_draws_nothing Sample.fontAV
           ("Z" +:+ Sample.nl +:+ "?")).
  vm_compute.
  repeat (constructor; [first [left; reflexivity | right; reflexivity] |]).
  constructor.
Defined.

Lemma every_call_draws_the_Bounds_of_its_glyph_witness :
  Forall2 (fun c ch =>
             image.Size (call_r c) = Char.Size ch
             /\ image.mkRectangle (call_sp c)
                  (image.Add (call_sp c) (image.Size (call_r c)))
                = Char.Bounds ch)
    (drawCalls Sample.fontAV (image.Pt 3 4) "AV")
    (glyphs Sample.fontAV "AV").
Proof.
  apply (every_call_draws_the_Bounds_of_its_glyph
           Sample.fontAV (image.Pt 3 4) "AV").
  apply map_Forall_to_list.
  replace (map_to_list
             (Descriptor.Chars (BitmapFont.Descriptor Sample.fontAV)))
    with [(65, Sample.chA); (86, Sample.chV)] by (vm_compute; reflexivity).
  unfold is_int, Go.int_min, Go.int_max.
  repeat constructor; simpl; lia.
Defined.

End EngineWitnesses.

(** ** The layout engine: where the cursor ends *)

Section CursorFacts.
Context {Image : Type}.
Implicit Types (f : BitmapFont.t Image) (pos : image.Point).

Lemma wrap_idem (z : Z) : Go.wrap 64 (Go.wrap 64 z) = Go.wrap 64 z.
Proof. apply wrap_small, wrap_range. Qed.

(** The baseline after the loop has gone through [rs]: one line height
    down for every newline. *)
Lemma drawSteps_Y {D} `{!drawer Image D} f pos (rs : list (Z * Z))
    (st : loopState D) :
  Go.wrap 64 (image.Y (cursor (fold_left (drawStep f pos) rs st)))
  = Go.wrap 64
      (image.Y (cursor st)
       + Z.of_nat (length (List.filter (fun ir : Z * Z => ir.2 =? newline)
                             rs))
         * Common.LineHeight (Descriptor.Common (BitmapFont.Descriptor f))).
Proof.
  revert st. induction rs as [| [i r] rs IH]; intros st.
  - cbn. f_equal. lia.
  - cbn [fold_left List.filter snd]. rewrite IH. unfold drawStep.
    destruct (r =? newline).
    + cbn [cursor image.Y length]. unfold Go.int_add.
      rewrite wrap_add_l. f_equal. lia.
    + destruct (char f r) as [ch |]; reflexivity.
Qed.

(** The baseline is an [int] all along. *)
Lemma drawSteps_Y_int {D} `{!drawer Image D} f pos (rs : list (Z * Z))
    (st : loopState D) :
  is_int (image.Y (cursor st)) ->
  is_int (image.Y (cursor (fold_left (drawStep f pos) rs st))).
Proof.
  revert st. induction rs as [| [i r] rs IH]; intros st Hst; [exact Hst |].
  cbn [fold_left]. apply IH. unfold drawStep.
  destruct (r =? newline); [apply wrap_range |].
  destruct (char f r) as [ch |]; exact Hst.
Qed.

(** Without kerning pairs, and on one line, the cursor moves by the
    advance of every glyph drawn. *)
Lemma drawSteps_X {D} `{!drawer Image D} f pos (rs : list (Z * Z))
    (st : loopState D) :
  Descriptor.Kerning (BitmapFont.Descriptor f) = ∅ ->
  Forall (fun ir : Z * Z => ir.2 <> newline) rs ->
  Go.wrap 64 (image.X (cursor (fold_left (drawStep f pos) rs st)))
  = Go.wrap 64
      (image.X (cursor st)
       + fold_right Z.add 0
           (map Char.XAdvance
              (omap (fun ir : Z * Z =>
                       if ir.2 =? newline then None else char f ir.2) rs))).
Proof.
  intros HK Hnl. revert st.
  induction Hnl as [| [i r] rs Hr _ IH]; intros st.
  - cbn. f_equal. lia.
  - cbn [fold_left omap list_omap snd] in *. rewrite IH. unfold drawStep.
    destruct (Z.eqb_spec r newline); [contradiction |].
    destruct (char f r) as [ch |]; [| reflexivity].
    cbn [cursor image.X mbind option_bind map fold_right].
    unfold advance. rewrite HK, lookup_empty.
    assert (Ha : forall x, (if i >? 0 then x else x) = x :> Z)
      by (intros x; destruct (i >? 0); reflexivity).
    rewrite Ha. unfold Go.int_add. rewrite wrap_add_l. f_equal. lia.
Qed.

Lemma drawSteps_X_int {D} `{!drawer Image D} f pos (rs : list (Z * Z))
    (st : loopState D) :
  is_int (image.X pos) ->
  is_int (image.X (cursor st)) ->
  is_int (image.X (cursor (fold_left (drawStep f pos) rs st))).
Proof.
  intros Hpos. revert st.
  induction rs as [| [i r] rs IH]; intros st Hst; [exact Hst |].
  cbn [fold_left]. apply IH. unfold drawStep.
  destruct (r =? newline); [exact Hpos |].
  destruct (char f r) as [ch |]; [| exact Hst].
  cbn [cursor image.X]. unfold advance.
  destruct (i >? 0); [| apply wrap_range].
  destruct (_ !! _); apply wrap_range.
Qed.

End CursorFacts.

Section CursorExtras.
Context {Image : Type}.
Implicit Types (f : BitmapFont.t Image) (pos : image.Point).

(** X22.  After a text has been drawn from a position whose
    coordinates are [int]s, the baseline of the cursor is that of the
    position moved down by the line height of the font once for every
    newline of the text (in the arithmetic of [int]); glyphs and code
    points without a glyph do not move it. *)
Theorem every_newline_moves_the_baseline_by_LineHeight
    {D} `{!drawer Image D} f (d0 : D) pos (text : string) :
  is_int (image.Y pos) ->
  image.Y (cursor (drawLoop f d0 pos text))
  = Go.wrap 64
      (image.Y pos
       + newlines text
         * Common.LineHeight (Descriptor.Common (BitmapFont.Descriptor f))).
Proof.
  intros Hy. unfold drawLoop, newlines.
  pose proof (drawSteps_Y f pos (utf8.range_string text) (mkLoop pos 0 d0))
    as H.
  cbn [cursor] in H. rewrite <- H. symmetry. apply wrap_small.
  apply (drawSteps_Y_int f pos (utf8.range_string text) (mkLoop pos 0 d0)).
  exact Hy.
Qed.

(** X23.  With a font that has no kerning pairs, after a text without
    a newline has been drawn from a position whose coordinates are
    [int]s, the cursor stands to the right of the position by the sum
    of the advances of the glyphs drawn (in the arithmetic of [int]),
    those of the fallback glyph included; code points without a glyph
    do not move it. *)
Theorem without_kerning_the_cursor_moves_by_the_sum_of_the_advances
    {D} `{!drawer Image D} f (d0 : D) pos (text : string) :
  is_int (image.X pos) ->
  Descriptor.Kerning (BitmapFont.Descriptor f) = ∅ ->
  Forall (fun ir : Z * Z => ir.2 <> newline) (utf8.range_string text) ->
  image.X (cursor (drawLoop f d0 pos text))
  = Go.wrap 64 (image.X pos + advances f text).
Proof.
  intros Hx HK Hnl. unfold drawLoop, advances, glyphs.
  pose proof (drawSteps_X f pos (utf8.range_string text) (mkLoop pos 0 d0)
                HK Hnl) as H.
  cbn [cursor] in H. rewrite <- H. symmetry. apply wrap_small.
  apply (drawSteps_X_int f pos (utf8.range_string text) (mkLoop pos 0 d0));
    exact Hx.
Qed.

End CursorExtras.

Lemma every_newline_moves_the_baseline_by_LineHeight_witness :
  image.Y (cursor (drawLoop Sample.fontAV ([] : list (drawCall unit))
                     (image.Pt 3 4) ("A" +:+ Sample.nl +:+ "V")))
  = Go.wrap 64
      (4 + newlines ("A" +:+ Sample.nl +:+ "V")
           * Common.LineHeight
               (Descriptor.Common (BitmapFont.Descriptor Sample.fontAV))).
Proof.
  apply (every_newline_moves_the_baseline_by_LineHeight
           Sample.fontAV ([] : list (drawCall unit)) (image.Pt 3 4)
           ("A" +:+ Sample.nl +:+ "V")).
  unfold is_int, Go.int_min, Go.int_max. simpl. lia.
Defined.

Lemma without_kerning_the_cursor_moves_by_the_sum_of_the_advances_witness :
  image.X (cursor (drawLoop (BitmapFont.mk Sample.no_kerning (<[0 := tt]> ∅))
                     ([] : list (drawCall unit)) (image.Pt 3 4) "AVA"))
  = Go.wrap 64
      (3 + advances (BitmapFont.mk Sample.no_kerning (<[0 := tt]> ∅)) "AVA").
Proof.
  apply (without_kerning_the_cursor_moves_by_the_sum_of_the_advances
           (BitmapFont.mk Sample.no_kerning (<[0 := tt]> ∅))
           ([] : list (drawCall unit)) (image.Pt 3 4) "AVA").
  - unfold is_int, Go.int_min, Go.int_max. simpl. lia.
  - reflexivity.
  - vm_compute. repeat constructor; discriminate.
Defined.

(** ** Attribute values *)

Section AtoiFacts.

Lemma atoiDigits_bound (s : list Z) (n m : Z) :
  0 <= n -> strconv.atoiDigits s n = Some m ->
  0 <= m < (n + 1) * 10 ^ Z.of_nat (length s).
Proof.
  revert n. induction s as [| c s IH]; intros n Hn; cbn [strconv.atoiDigits].
  - intros [= <-]. cbn. lia.
  - unfold utf8.between.
    destruct (Z.leb_spec 48 c) as [H48 | H48]; [| discriminate].
    destruct (Z.leb_spec c 57) as [H57 | H57]; [| discriminate]. cbn [andb].
    intros H. apply IH in H; [| lia].
    rewrite length_cons, Nat2Z.inj_succ, Z.pow_succ_r by lia.
    assert (0 < 10 ^ Z.of_nat (length s)) by (apply Z.pow_pos_nonneg; lia).
    nia.
Qed.

Lemma parseUintLoop_bound (s : list Z) (n m : Z) :
  0 <= n <= strconv.maxUint64 -> strconv.parseUintLoop s n = Some m ->
  0 <= m <= strconv.maxUint64.
Proof.
  revert n. induction s as [| c s IH]; intros n Hn;
    cbn [strconv.parseUintLoop].
  - intros [= <-]. exact Hn.
  - destruct (utf8.between 48 57 c) eqn:Hc; [| discriminate].
    destruct (n >=? strconv.cutoff10);
      [intros [= <-]; unfold strconv.maxUint64; lia |].
    destruct (Z.gtb_spec (n * 10 + (c - 48)) strconv.maxUint64);
      [intros [= <-]; unfold strconv.maxUint64; lia |].
    apply IH. unfold utf8.between in Hc.
    apply andb_true_iff in Hc. destruct Hc as [H1 H2].
    apply Z.leb_le in H1. lia.
Qed.

Lemma ParseInt10_range (s : list Z) :
  Go.int_min <= (strconv.ParseInt10 s).1 <= Go.int_max.
Proof.
  unfold strconv.ParseInt10, Go.int_min, Go.int_max.
  destruct s as [| c s']; [cbn; lia |].
  set (s := if (c =? 43) || (c =? 45) then s' else c :: s').
  destruct (strconv.ParseUint10 s) as [un |] eqn:E; [| cbn; lia].
  assert (Hun : 0 <= un <= strconv.maxUint64).
  { unfold strconv.ParseUint10 in E. destruct s; [discriminate |].
    apply (parseUintLoop_bound _ 0 un) in E; [exact E |].
    unfold strconv.maxUint64. lia. }
  destruct (c =? 45); cbn [negb andb].
  - destruct (Z.gtb_spec un (2 ^ 63)); cbn [fst]; lia.
  - destruct (Z.geb_spec un (2 ^ 63)); cbn [fst]; lia.
Qed.

(** [Atoi] returns an [int]. *)
Lemma Atoi_range (str : string) :
  Go.int_min <= (strconv.Atoi str).1 <= Go.int_max.
Proof.
  unfold strconv.Atoi.
  destruct ((0 <? length (Go.bytes str))%nat
            && (length (Go.bytes str) <? 19)%nat) eqn:Hlen;
    [| apply ParseInt10_range].
  apply andb_true_iff in Hlen. destruct Hlen as [_ Hlen].
  apply Nat.ltb_lt in Hlen.
  unfold Go.int_min, Go.int_max.
  destruct (Go.bytes str) as [| c s']; [cbn; lia |].
  set (s := if (c =? 45) || (c =? 43) then s' else c :: s').
  assert (Hs : (length s <= 18)%nat).
  { subst s. destruct ((c =? 45) || (c =? 43)); cbn [length] in *; lia. }
  destruct s as [| c1 s1] eqn:Es; [cbn; lia |]. rewrite <- Es in *.
  destruct (strconv.atoiDigits s 0) as [n |] eqn:E; [| cbn; lia].
  apply atoiDigits_bound in E; [| lia].
  assert (10 ^ Z.of_nat (length s) <= 10 ^ 18)
    by (apply Z.pow_le_mono_r; lia).
  cbn [fst]. destruct (c =? 45); lia.
Qed.

Lemma rune_of_int_range (z : Z) : is_rune (Go.rune_of_int z).
Proof.
  unfold is_rune, Go.rune_of_int, Go.wrap.
  pose proof (Z.mod_pos_bound (z + 2 ^ (32 - 1)) (2 ^ 32) ltac:(lia)).
  change (2 ^ (32 - 1)) with (2 ^ 31) in *.
  change (2 ^ 32) with (2 * 2 ^ 31) in *. lia.
Qed.

End AtoiFacts.

Section AttrFacts.

Lemma fillValues_length (parts : list string) (values : list Z) (i : nat) :
  length (tag.fillValues values i parts) = length values.
Proof.
  revert values i. induction parts as [| part rest IH]; intros values i;
    cbn [tag.fillValues]; [reflexivity |].
  destruct (i =? length values)%nat; [reflexivity |].
  rewrite IH. apply length_insert.
Qed.

(** The loop of [intListAttr] from index [i]: the values before [i] stay,
    the value at [i + k] is that of the [k]-th part if there is one. *)
Lemma fillValues_lookup (parts : list string) (values : list Z) (i j : nat) :
  (i <= length values)%nat -> (j < length values)%nat ->
  tag.fillValues values i parts !! j
  = if (j <? i)%nat then values !! j
    else match parts !! (j - i)%nat with
         | Some part => Some (strconv.Atoi (strings.TrimSpace part)).1
         | None => values !! j
         end.
Proof.
  revert values i. induction parts as [| part rest IH]; intros values i Hi Hj;
    cbn [tag.fillValues].
  - rewrite lookup_nil. destruct (j <? i)%nat; reflexivity.
  - destruct (Nat.eqb_spec i (length values)) as [-> | Hne].
    + destruct (Nat.ltb_spec j (length values)); [reflexivity | lia].
    + rewrite IH by (rewrite ?length_insert; lia).
      destruct (Nat.ltb_spec j (S i)), (Nat.ltb_spec j i); try lia.
      * rewrite list_lookup_insert_ne by lia. reflexivity.
      * assert (j = i) by lia. subst j. rewrite Nat.sub_diag. cbn.
        apply list_lookup_insert_eq. lia.
      * replace (j - i)%nat with (S (j - S i)) by lia. cbn.
        destruct (rest !! (j - S i)%nat); [reflexivity |].
        rewrite list_lookup_insert_ne by lia. reflexivity.
Qed.

Lemma intListAttr_eq (t : tag.t) (name : string) (n : nat) :
  tag.intListAttr t name n
  = map (fun j =>
           match strings.Split (tag.stringAttr t name) 44 !! j with
           | Some part => (strconv.Atoi (strings.TrimSpace part)).1
           | None => 0
           end)
        (seq 0 n).
Proof.
  unfold tag.intListAttr. apply list_eq. intros j.
  destruct (Nat.lt_ge_cases j n) as [Hj | Hj].
  - rewrite fillValues_lookup by (rewrite ?length_replicate; lia).
    change (j <? 0)%nat with false. cbv iota. rewrite Nat.sub_0_r.
    rewrite list_lookup_fmap, lookup_seq_lt by exact Hj. cbn.
    destruct (_ !! j); [reflexivity |].
    apply lookup_replicate_2. exact Hj.
  - rewrite !lookup_ge_None_2; [reflexivity | |].
    + rewrite length_map, length_seq. exact Hj.
    + rewrite fillValues_length, length_replicate. exact Hj.
Qed.

End AttrFacts.

(** ** The descriptor builder *)

Section BuilderFacts.

(** The name of a tag against the names of the [switch], one at a
    time. *)
Ltac name_cases t :=
  destruct (String.eqb_spec (tag.name t) "info") as [Hinfo | Hinfo];
  [| destruct (String.eqb_spec (tag.name t) "common") as [Hcommon | Hcommon];
     [| destruct (String.eqb_spec (tag.name t) "page") as [Hpage | Hpage];
        [| destruct (String.eqb_spec (tag.name t) "char") as [Hchar | Hchar];
           [| destruct (String.eqb_spec (tag.name t) "kerning")
                as [Hkerning | Hkerning]]]]].

Lemma buildTag_keyed (d : Descriptor.t) (t : tag.t) :
  keyed_by_id d -> keyed_by_id (buildTag d t).
Proof.
  intros (HP & HC & HK). unfold buildTag. cbv zeta.
  name_cases t; unfold keyed_by_id;
    cbn [Descriptor.Pages Descriptor.Chars Descriptor.Kerning];
    (split; [| split]); try assumption.
  - apply map_Forall_insert_2; [| exact HP].
    split; [reflexivity | apply Atoi_range].
  - apply map_Forall_insert_2; [| exact HC].
    split; [reflexivity | apply rune_of_int_range].
  - apply map_Forall_insert_2; [| exact HK].
    split; apply rune_of_int_range.
Qed.

Lemma buildTags_keyed (tags : list tag.t) : keyed_by_id (buildTags tags).
Proof.
  unfold buildTags.
  assert (H : keyed_by_id emptyControlData)
    by (split; [| split]; apply map_Forall_empty).
  revert H. generalize emptyControlData.
  induction tags as [| t tags IH]; intros d H; [exact H |].
  apply IH, buildTag_keyed, H.
Qed.

Lemma buildTag_unknown (d : Descriptor.t) (t : tag.t) :
  known_tag t = false -> buildTag d t = d.
Proof.
  unfold known_tag, buildTag. cbv zeta. intros H.
  repeat (apply orb_false_iff in H; destruct H as [H ?]).
  repeat match goal with E : String.eqb _ _ = false |- _ => rewrite E; clear E end.
  reflexivity.
Qed.

Lemma fold_buildTag_known (tags : list tag.t) (d : Descriptor.t) :
  fold_left buildTag tags d = fold_left buildTag (List.filter known_tag tags) d.
Proof.
  revert d. induction tags as [| t tags IH]; intros d; [reflexivity |].
  cbn [fold_left List.filter]. destruct (known_tag t) eqn:E.
  - cbn [fold_left]. apply IH.
  - rewrite (buildTag_unknown d t E). apply IH.
Qed.

Lemma buildTags_snoc (tags : list tag.t) (t : tag.t) :
  buildTags (tags ++ [t]) = buildTag (buildTags tags) t.
Proof. unfold buildTags. rewrite fold_left_app. reflexivity. Qed.

Lemma filter_snoc {A} (p : A -> bool) (l : list A) (x : A) :
  List.filter p (l ++ [x])
  = if p x then List.filter p l ++ [x] else List.filter p l.
Proof.
  rewrite List.filter_app. cbn [List.filter].
  destruct (p x); [reflexivity | apply app_nil_r].
Qed.

(** What one tag does to each part of the descriptor. *)
Lemma buildTag_Info (d : Descriptor.t) (t : tag.t) :
  Descriptor.Info (buildTag d t)
  = if String.eqb (tag.name t) "info"
    then Descriptor.Info (buildTag emptyControlData t)
    else Descriptor.Info d.
Proof. unfold buildTag. cbv zeta. name_cases t; reflexivity. Qed.

Lemma buildTag_Common (d : Descriptor.t) (t : tag.t) :
  Descriptor.Common (buildTag d t)
  = if String.eqb (tag.name t) "common"
    then Descriptor.Common (buildTag emptyControlData t)
    else Descriptor.Common d.
Proof.
  unfold buildTag. cbv zeta. name_cases t; try reflexivity.
  rewrite Hinfo. reflexivity.
Qed.

Lemma buildTag_Pages (d : Descriptor.t) (t : tag.t) (i : Z) :
  Descriptor.Pages (buildTag d t) !! i
  = if String.eqb (tag.name t) "page" && (tag.intAttr t "id" =? i)
    then Descriptor.Pages (buildTag emptyControlData t) !! i
    else Descriptor.Pages d !! i.
Proof.
  unfold buildTag. cbv zeta. name_cases t; try reflexivity.
  - rewrite Hinfo. reflexivity.
  - rewrite Hcommon. reflexivity.
  - cbn [Descriptor.Pages andb].
    destruct (Z.eqb_spec (tag.intAttr t "id") i) as [-> | Hne].
    + rewrite !lookup_insert_eq. reflexivity.
    + rewrite lookup_insert_ne by exact Hne. reflexivity.
Qed.

Lemma buildTag_Chars (d : Descriptor.t) (t : tag.t) (r : Z) :
  Descriptor.Chars (buildTag d t) !! r
  = if String.eqb (tag.name t) "char"
       && (Go.rune_of_int (tag.intAttr t "id") =? r)
    then Descriptor.Chars (buildTag emptyControlData t) !! r
    else Descriptor.Chars d !! r.
Proof.
  unfold buildTag. cbv zeta. name_cases t; try reflexivity.
  - rewrite Hinfo. reflexivity.
  - rewrite Hcommon. reflexivity.
  - rewrite Hpage. reflexivity.
  - cbn [Descriptor.Chars andb].
    destruct (Z.eqb_spec (Go.rune_of_int (tag.intAttr t "id")) r)
      as [-> | Hne].
    + rewrite !lookup_insert_eq. reflexivity.
    + rewrite lookup_insert_ne by exact Hne. reflexivity.
Qed.

Lemma buildTag_Kerning (d : Descriptor.t) (t : tag.t) (k : CharPair.t) :
  Descriptor.Kerning (buildTag d t) !! k
  = if String.eqb (tag.name t) "kerning"
       && bool_decide
            (CharPair.mk (Go.rune_of_int (tag.intAttr t "first"))
                         (Go.rune_of_int (tag.intAttr t "second")) = k)
    then Descriptor.Kerning (buildTag emptyControlData t) !! k
    else Descriptor.Kerning d !! k.
Proof.
  unfold buildTag. cbv zeta. name_cases t; try reflexivity.
  - rewrite Hinfo. reflexivity.
  - rewrite Hcommon. reflexivity.
  - rewrite Hpage. reflexivity.
  - rewrite Hchar. reflexivity.
  - cbn [Descriptor.Kerning andb]. case_bool_decide as Hk.
    + rewrite <- Hk, !lookup_insert_eq. reflexivity.
    + rewrite lookup_insert_ne by exact Hk. reflexivity.
Qed.

End BuilderFacts.

Section AtoiErrors.

(** When [Atoi] reports an error, the value it returns with it is 0 for
    text that is not a decimal integer, and the nearest bound of [int]
    for a number out of range. *)
Lemma ParseInt10_error (s : list Z) :
  (strconv.ParseInt10 s).2 = false ->
  (strconv.ParseInt10 s).1 = 0
  \/ (strconv.ParseInt10 s).1 = Go.int_max
  \/ (strconv.ParseInt10 s).1 = Go.int_min.
Proof.
  unfold strconv.ParseInt10, Go.int_min, Go.int_max.
  destruct s as [| c s']; [cbn; auto |].
  destruct (strconv.ParseUint10 _) as [un |]; [| cbn; auto].
  destruct (negb (c =? 45) && (un >=? 2 ^ 63)); [cbn; auto |].
  destruct ((c =? 45) && (un >? 2 ^ 63)); [cbn; auto |].
  cbn. discriminate.
Qed.

Lemma Atoi_error (str : string) :
  (strconv.Atoi str).2 = false ->
  (strconv.Atoi str).1 = 0
  \/ (strconv.Atoi str).1 = Go.int_max
  \/ (strconv.Atoi str).1 = Go.int_min.
Proof.
  unfold strconv.Atoi.
  destruct ((0 <? length (Go.bytes str))%nat
            && (length (Go.bytes str) <? 19)%nat);
    [| apply ParseInt10_error].
  destruct (Go.bytes str) as [| c s']; [cbn; auto |].
  destruct (if (c =? 45) || (c =? 43) then s' else c :: s') eqn:Es;
    [cbn; auto |].
  destruct (strconv.atoiDigits _ 0); [cbn; discriminate | cbn; auto].
Qed.

End AtoiErrors.

Section BuilderExtras.

(** X6.  [intListAttr(name, n)] returns [n] values, whatever the text of
    the attribute: the value at index [j] is that of the [j]-th of the
    parts that the commas separate, read by [Atoi] after trimming white
    space, and 0 where there is no such part; parts from the [n]-th on
    are not looked at.  So the indexing in [paddingFrom] (4 values) and
    [spacingFrom] (2 values) stays within the slice. *)
Theorem intListAttr_gives_n_values_from_the_first_n_parts
    (t : tag.t) (name : string) (n : nat) :
  length (tag.intListAttr t name n) = n
  /\ tag.intListAttr t name n
     = map (fun j =>
              match strings.Split (tag.stringAttr t name) 44 !! j with
              | Some part => (strconv.Atoi (strings.TrimSpace part)).1
              | None => 0
              end)
           (seq 0 n).
Proof.
  split; [| apply intListAttr_eq].
  unfold tag.intListAttr. rewrite fillValues_length. apply length_replicate.
Qed.

(** X7.  An attribute that a tag does not have reads as the zero value
    with every accessor: the empty string, 0, false, and [n] zeros. *)
Theorem absent_attribute_reads_as_zero (t : tag.t) (name : string) (n : nat) :
  tag.attrs t !! name = None ->
  tag.stringAttr t name = EmptyString
  /\ tag.intAttr t name = 0
  /\ tag.boolAttr t name = false
  /\ tag.intListAttr t name n = replicate n 0.
Proof.
  intros H.
  assert (Hs : tag.stringAttr t name = EmptyString)
    by (unfold tag.stringAttr; rewrite H; reflexivity).
  split; [exact Hs |].
  unfold tag.boolAttr, tag.intAttr. rewrite Hs.
  split; [reflexivity |]. split; [reflexivity |].
  rewrite intListAttr_eq, Hs. apply list_eq. intros j.
  rewrite list_lookup_fmap.
  destruct (Nat.lt_ge_cases j n) as [Hj | Hj].
  - rewrite lookup_seq_lt, (lookup_replicate_2 n 0 j) by exact Hj. cbn.
    destruct j as [| j]; reflexivity.
  - rewrite !lookup_ge_None_2; [reflexivity | |].
    + rewrite length_replicate. exact Hj.
    + rewrite length_seq. exact Hj.
Qed.

(** X8.  [intAttr] never fails and always returns an [int]: the error of
    [Atoi] is dropped, so unless [Atoi] accepts the text of the
    attribute, the value is 0 (text that is not a decimal integer) or
    the nearest bound of [int] (a number out of range). *)
Theorem intAttr_drops_the_error_of_Atoi (t : tag.t) (name : string) :
  is_int (tag.intAttr t name)
  /\ ((strconv.Atoi (tag.stringAttr t name)).2 = true
      \/ tag.intAttr t name = 0
      \/ tag.intAttr t name = Go.int_max
      \/ tag.intAttr t name = Go.int_min).
Proof.
  split; [apply Atoi_range |].
  destruct (strconv.Atoi (tag.stringAttr t name)).2 eqn:E; [auto |].
  right. apply Atoi_error, E.
Qed.

(** X9.  In a descriptor that [parseControlData] returns, every page
    stands under its own [ID] and every glyph under its own [ID]; the
    keys of the glyphs and both code points of every kerning pair are
    [rune]s (the [int] of the attribute converted), the keys of the
    pages are [int]s. *)
Theorem parsed_tables_are_keyed_by_id (T : unicode.Tables)
    (filename r : string) (desc : Descriptor.t) :
  parseControlData T filename r = Some (Some desc, None) ->
  keyed_by_id desc.
Proof.
  unfold parseControlData.
  destruct (tagsParser.parse T filename r) as [[tags [e |]] |];
    try discriminate.
  intros [= <-]. apply buildTags_keyed.
Qed.

(** X10.  Tags whose name is none of [info], [common], [page], [char]
    and [kerning] leave no trace in the descriptor: it is the one built
    from the other tags alone. *)
Theorem tags_with_other_names_are_ignored (tags : list tag.t) :
  buildTags tags = buildTags (List.filter known_tag tags).
Proof. apply fold_buildTag_known. Qed.

(** X11.  Each part of the descriptor comes from one tag, the last one
    that sets it: [Info] from the last [info] tag and [Common] from the
    last [common] tag (the zero value without one), the page of an index
    from the last [page] tag with that id, the glyph of a code point
    from the last [char] tag whose id converts to it, the kerning of a
    pair from the last [kerning] tag of that pair.  Nothing of an
    earlier tag for the same part is kept. *)
Theorem each_part_comes_from_the_last_tag_that_sets_it (tags : list tag.t) :
  Descriptor.Info (buildTags tags)
  = match last (List.filter (fun t => String.eqb (tag.name t) "info") tags)
    with
    | Some t => Descriptor.Info (buildTag emptyControlData t)
    | None => Info.zero
    end
  /\ Descriptor.Common (buildTags tags)
     = match last (List.filter
                     (fun t => String.eqb (tag.name t) "common") tags)
       with
       | Some t => Descriptor.Common (buildTag emptyControlData t)
       | None => Common.zero
       end
  /\ (forall i,
        Descriptor.Pages (buildTags tags) !! i
        = last (List.filter
                  (fun t => String.eqb (tag.name t) "page"
                            && (tag.intAttr t "id" =? i)) tags)
          ≫= fun t => Descriptor.Pages (buildTag emptyControlData t) !! i)
  /\ (forall r,
        Descriptor.Chars (buildTags tags) !! r
        = last (List.filter
                  (fun t => String.eqb (tag.name t) "char"
                            && (Go.rune_of_int (tag.intAttr t "id") =? r))
                  tags)
          ≫= fun t => Descriptor.Chars (buildTag emptyControlData t) !! r)
  /\ (forall k,
        Descriptor.Kerning (buildTags tags) !! k
        = last (List.filter
                  (fun t =>
                     String.eqb (tag.name t) "kerning"
                     && bool_decide
                          (CharPair.mk
                             (Go.rune_of_int (tag.intAttr t "first"))
                             (Go.rune_of_int (tag.intAttr t "second")) = k))
                  tags)
          ≫= fun t => Descriptor.Kerning (buildTag emptyControlData t) !! k).
Proof.
  induction tags as [| t tags IH] using rev_ind.
  - repeat split; intros; apply lookup_empty.
  - destruct IH as (HI & HC & HP & HG & HK).
    rewrite buildTags_snoc, !filter_snoc.
    split; [| split; [| split; [| split]]].
    + rewrite buildTag_Info, HI.
      destruct (String.eqb (tag.name t) "info"); [| reflexivity].
      rewrite last_snoc. reflexivity.
    + rewrite buildTag_Common, HC.
      destruct (String.eqb (tag.name t) "common"); [| reflexivity].
      rewrite last_snoc. reflexivity.
    + intros i. rewrite filter_snoc, buildTag_Pages, HP.
      destruct (_ && _); [| reflexivity].
      rewrite last_snoc. reflexivity.
    + intros r. rewrite filter_snoc, buildTag_Chars, HG.
      destruct (_ && _); [| reflexivity].
      rewrite last_snoc. reflexivity.
    + intros k. rewrite filter_snoc, buildTag_Kerning, HK.
      destruct (_ && _); [| reflexivity].
      rewrite last_snoc. reflexivity.
Qed.

(** X16.  [Scale] of the [Common] block of a descriptor built from
    tags has the [scaleH] attribute of the last [common] tag in both
    coordinates; the [scaleW] attribute is not what [Scale] returns as
    the width.  Without a [common] tag it is the zero point. *)
Theorem Scale_has_scaleH_in_both_coordinates (tags : list tag.t) :
  Common.Scale (Descriptor.Common (buildTags tags))
  = match last (List.filter
                  (fun t => String.eqb (tag.name t) "common") tags)
    with
    | Some t => image.Pt (tag.intAttr t "scaleH") (tag.intAttr t "scaleH")
    | None => image.ZP
    end.
Proof.
  induction tags as [| t tags IH] using rev_ind; [reflexivity |].
  rewrite buildTags_snoc, filter_snoc, buildTag_Common.
  destruct (String.eqb (tag.name t) "common") eqn:E; [| exact IH].
  rewrite last_snoc. unfold buildTag. cbv zeta. rewrite E.
  destruct (String.eqb (tag.name t) "info") eqn:E';
    [apply String.eqb_eq in E, E'; congruence | reflexivity].
Qed.

End BuilderExtras.

Section BuilderWitnesses.

Lemma absent_attribute_reads_as_zero_witness :
  tag.stringAttr (tag.mk "info" (<["size" := "3"]> ∅)) "face" = EmptyString
  /\ tag.intAttr (tag.mk "info" (<["size" := "3"]> ∅)) "face" = 0
  /\ tag.boolAttr (tag.mk "info" (<["size" := "3"]> ∅)) "face" = false
  /\ tag.intListAttr (tag.mk "info" (<["size" := "3"]> ∅)) "face" 4
     = replicate 4 0.
Proof.
  apply (absent_attribute_reads_as_zero
           (tag.mk "info" (<["size" := "3"]> ∅)) "face" 4).
  vm_compute. reflexivity.
Defined.

Lemma parsed_tables_are_keyed_by_id_witness :
  keyed_by_id Sample.two_pages_desc.
Proof.
  apply (parsed_tables_are_keyed_by_id Sample.tables "bmfont"
           Sample.two_pages Sample.two_pages_desc).
  vm_compute. reflexivity.
Defined.

End BuilderWitnesses.

(** ** Loading the page sheets: what a run of [Read] returns *)

Section LoadingFacts.
Context {Image : Type}.
Variable image_Decode : string -> Image + error.

#[local] Abbreviation read := (SheetReaderFunc_read image_Decode).

(** When every page can be read, the loop stores, for every index, the
    sheet of the page entered under it. *)
Lemma readPages_ok (sheets : SheetReaderFunc) (pages : list (Z * Page.t))
    (ps : gmap Z Image) (log : list string) :
  NoDup pages.*1 ->
  Forall (fun jp => (read sheets (file_of jp)).2 = None) pages ->
  exists ps',
    readPages image_Decode sheets pages ps log
    = (inl ps', log ++ map file_of pages)
    /\ forall i,
         ps' !! i
         = match (list_to_map pages : gmap Z Page.t) !! i with
           | Some pg => pageSheet image_Decode sheets pg
           | None => ps !! i
           end.
Proof.
  revert ps log. induction pages as [| [i page] rest IH]; intros ps log Hnd Hok.
  - exists ps. split; [simpl; rewrite app_nil_r; reflexivity |].
    intros j. cbn. rewrite lookup_empty. reflexivity.
  - apply NoDup_cons in Hnd. destruct Hnd as [Hi Hnd].
    apply Forall_cons in Hok. destruct Hok as [Hp Hok].
    unfold file_of in Hp. cbn [snd] in Hp.
    cbn [readPages].
    destruct (read sheets (Page.File page)) as [sheet err] eqn:E.
    cbn [snd] in Hp. subst err.
    destruct (read_without_error image_Decode sheets _ sheet E) as [img ->].
    destruct (IH (<[i := img]> ps) (log ++ [Page.File page]) Hnd Hok)
      as (ps' & Hrun & Hlook).
    exists ps'. split.
    { rewrite Hrun. cbn [map]. rewrite <- app_assoc. reflexivity. }
    intros j. rewrite Hlook. cbn [list_to_map foldr uncurry fst snd].
    destruct (decide (i = j)) as [<- | Hne].
    + rewrite lookup_insert_eq.
      rewrite (not_elem_of_list_to_map_1 rest i Hi), lookup_insert_eq.
      unfold pageSheet. rewrite E. reflexivity.
    + rewrite !(lookup_insert_ne _ i j) by exact Hne. reflexivity.
Qed.

End LoadingFacts.

Section LoadingExtras.
Context {Image : Type}.
Variable image_Decode : string -> Image + error.

#[local] Abbreviation read := (SheetReaderFunc_read image_Decode).

(** X12.  When the sheet of every page of the descriptor can be read,
    every run of [Read] returns the same font, whatever the order in
    which the pages are gone through: the descriptor, with the sheet
    read from the file of page [i] stored under [i] for every page of
    the table, and nothing else; and [sheets] has been called with the
    file of every page, once per page. *)
Theorem Read_result_does_not_depend_on_the_iteration_order
    (T : unicode.Tables) (r : string) (sheets : SheetReaderFunc)
    (desc : Descriptor.t)
    (res : option (BitmapFont.t Image) * option error)
    (calls : list string) :
  ReadDescriptor T r = Some (Some desc, None) ->
  Forall (fun jp => (read sheets (file_of jp)).2 = None)
         (map_to_list (Descriptor.Pages desc)) ->
  Read image_Decode T r sheets res calls ->
  res = (Some (BitmapFont.mk desc
                 (omap (pageSheet image_Decode sheets)
                       (Descriptor.Pages desc))),
         None)
  /\ calls ≡ₚ map file_of (map_to_list (Descriptor.Pages desc)).
Proof.
  intros Hd Hok (d & pages & Hd' & Hord & Hrun).
  rewrite Hd in Hd'. injection Hd' as <-. cbn [fst] in Hord.
  unfold iteration_order in Hord. cbn [ReadFrom] in Hrun.
  destruct (readPages_ok image_Decode sheets pages ∅ [])
    as (ps' & Hrp & Hlook).
  { rewrite Hord. apply NoDup_fst_map_to_list. }
  { rewrite Hord. exact Hok. }
  rewrite Hrp in Hrun. injection Hrun as <- <-. split.
  - do 3 f_equal. apply map_eq. intros i.
    rewrite Hlook, lookup_omap.
    replace (list_to_map pages : gmap Z Page.t)
      with (Descriptor.Pages desc).
    + destruct (Descriptor.Pages desc !! i); [reflexivity |].
      apply lookup_empty.
    + rewrite <- (list_to_map_to_list (Descriptor.Pages desc)).
      symmetry. apply list_to_map_proper; [| exact Hord].
      rewrite Hord. apply NoDup_fst_map_to_list.
  - cbn [app]. apply fmap_Permutation. exact Hord.
Qed.

(** X13.  When the sheet of some page of the descriptor cannot be read,
    no run of [Read] returns a font, whatever the order in which the
    pages are gone through: every run returns no font and the error of
    reading the sheet of some page of the table. *)
Theorem Read_fails_in_every_order_if_a_sheet_cannot_be_read
    (T : unicode.Tables) (r : string) (sheets : SheetReaderFunc)
    (desc : Descriptor.t) (i : Z) (page : Page.t)
    (res : option (BitmapFont.t Image) * option error)
    (calls : list string) :
  ReadDescriptor T r = Some (Some desc, None) ->
  Descriptor.Pages desc !! i = Some page ->
  (read sheets (Page.File page)).2 <> None ->
  Read image_Decode T r sheets res calls ->
  exists err j page',
    res = (None, Some err)
    /\ Descriptor.Pages desc !! j = Some page'
    /\ (read sheets (Page.File page')).2 = Some err.
Proof.
  intros Hd Hi Hbad (d & pages & Hd' & Hord & Hrun).
  rewrite Hd in Hd'. injection Hd' as <-. cbn [fst] in Hord.
  unfold iteration_order in Hord. cbn [ReadFrom] in Hrun.
  destruct (readPages_spec image_Decode sheets pages ∅ [])
    as [[Hok _] | (before & [j page'] & after & err & Hp & _ & Herr & Hrp)].
  - exfalso. apply Hbad.
    rewrite Forall_forall in Hok. apply (Hok (i, page)).
    rewrite Hord. apply elem_of_map_to_list. exact Hi.
  - rewrite Hrp in Hrun. injection Hrun as <- <-.
    exists err, j, page'. split; [reflexivity |]. split; [| exact Herr].
    apply elem_of_map_to_list. rewrite <- Hord, Hp.
    apply elem_of_app. right. apply elem_of_cons. left. reflexivity.
Qed.

(** X14.  What [read] returns for a file.  If the file cannot be
    opened: no sheet, and the error of opening it.  If it cannot be
    decoded: no sheet, and the error of decoding, whatever closing the
    file returns.  If it is decoded: the image, together with the error
    of closing the file, if there is one.  So [read] returns without an
    error only when opening, decoding and closing have all succeeded,
    and then it returns the decoded image. *)
Theorem read_returns_the_first_error_of_open_decode_close
    (f : SheetReaderFunc) (filename : string) :
  match f filename with
  | inr e => read f filename = (None, Some e)
  | inl rc =>
    match image_Decode (content rc) with
    | inr e => read f filename = (None, Some e)
    | inl img => read f filename = (Some img, closeError rc)
    end
  end
  /\ ((read f filename).2 = None
      <-> exists rc img,
            f filename = inl rc
            /\ image_Decode (content rc) = inl img
            /\ closeError rc = None
            /\ (read f filename).1 = Some img).
Proof.
  unfold SheetReaderFunc_read.
  destruct (f filename) as [rc | e].
  - destruct (image_Decode (content rc)) as [img | e] eqn:Ed;
      unfold closeChecked; destruct (closeError rc) as [ce |] eqn:Ec;
      cbn [snd fst]; (split; [reflexivity |]).
    + split; [discriminate |].
      intros (rc' & img' & [= <-] & _ & Hc & _). congruence.
    + split; [| reflexivity]. intros _. exists rc, img. auto.
    + split; [discriminate |].
      intros (rc' & img' & [= <-] & Hd & _). congruence.
    + split; [discriminate |].
      intros (rc' & img' & [= <-] & Hd & _). congruence.
  - split; [reflexivity |]. cbn [snd]. split; [discriminate |].
    intros (? & ? & ? & _). discriminate.
Qed.

End LoadingExtras.

Section LoadingWitnesses.

Lemma Read_result_does_not_depend_on_the_iteration_order_witness :
  Sample.two_pages_result
  = (Some (BitmapFont.mk Sample.two_pages_desc
             (omap (pageSheet Sample.decode_any Sample.open_any)
                   (Descriptor.Pages Sample.two_pages_desc))),
     None)
  /\ ["b.png"; "a.png"]
     ≡ₚ map file_of (map_to_list (Descriptor.Pages Sample.two_pages_desc)).
Proof.
  apply (Read_result_does_not_depend_on_the_iteration_order
           Sample.decode_any Sample.tables Sample.two_pages Sample.open_any
           Sample.two_pages_desc).
  - vm_compute. reflexivity.
  - vm_compute. repeat constructor.
  - exists (Some Sample.two_pages_desc, None),
           [(1, Page.mk 1 "b.png"); (0, Page.mk 0 "a.png")].
    split; [vm_compute; reflexivity |]. split.
    + cbn [fst]. unfold iteration_order.
      replace (map_to_list (Descriptor.Pages Sample.two_pages_desc))
        with [(1, Page.mk 1 "b.png"); (0, Page.mk 0 "a.png")]
        by (vm_compute; reflexivity).
      reflexivity.
    + vm_compute. reflexivity.
Defined.

Lemma Read_fails_in_every_order_if_a_sheet_cannot_be_read_witness :
  exists err j page',
    (None, Some (external_error "open a.png: no such file or directory"))
    = (@None (BitmapFont.t unit), Some err)
    /\ Descriptor.Pages Sample.two_pages_desc !! j = Some page'
    /\ (SheetReaderFunc_read Sample.decode_any Sample.open_but_a
          (Page.File page')).2 = Some err.
Proof.
  apply (Read_fails_in_every_order_if_a_sheet_cannot_be_read
           Sample.decode_any Sample.tables Sample.two_pages
           Sample.open_but_a Sample.two_pages_desc 0 (Page.mk 0 "a.png")
           _ ["a.png"]).
  - vm_compute. reflexivity.
  - vm_compute. reflexivity.
  - vm_compute. discriminate.
  - exists (Some Sample.two_pages_desc, None),
           [(0, Page.mk 0 "a.png"); (1, Page.mk 1 "b.png")].
    split; [vm_compute; reflexivity |]. split.
    + cbn [fst]. unfold iteration_order.
      replace (map_to_list (Descriptor.Pages Sample.two_pages_desc))
        with [(1, Page.mk 1 "b.png"); (0, Page.mk 0 "a.png")]
        by (vm_compute; reflexivity).
      apply perm_swap.
    + vm_compute. reflexivity.
Defined.

End LoadingWitnesses.

(** ** The tag parser: lines without a tag name *)

Section ParserMore.
Variable T : unicode.Tables.

(** The position that [Scan] gives a token that starts at the character
    read last. *)
Lemma scanToken_newline (s : scanner.Scanner) :
  Z.testbit (scanner.Whitespace s) 10 = false ->
  exists c' s',
    scanner.scanToken T s 10 = scanner.Token 10 c' s'
    /\ scanner.Pos s'
       = (if scanner.column (scanner.rd s) >? 0
          then scanner.mkPosition (scanner.Filename (scanner.Pos s))
                 (scanner.srcPos (scanner.rd s)
                  - scanner.lastCharLen (scanner.rd s))
                 (scanner.line (scanner.rd s))
                 (scanner.column (scanner.rd s))
          else scanner.mkPosition (scanner.Filename (scanner.Pos s))
                 (scanner.srcPos (scanner.rd s)
                  - scanner.lastCharLen (scanner.rd s))
                 (scanner.line (scanner.rd s) - 1)
                 (scanner.lastLineLen (scanner.rd s))).
Proof.
  intros Hw. unfold scanner.scanToken, scanner.fuel.
  cbn [scanner.nextWhile]. unfold scanner.isWhitespace at 1.
  rewrite Hw. cbn [Z.leb Z.ltb Z.compare Pos.compare Pos.compare_cont andb].
  replace (scanner.isIdentRune T 10 false) with false by reflexivity.
  replace (scanner.isDecimal 10) with false by reflexivity.
  cbn [Z.eqb Pos.eqb scanner.EOF].
  match goal with
  | |- context [scanner.next ?s0] =>
    destruct (scanner.next s0) as [c' s'] eqn:E;
    assert (Hp : scanner.Pos s' = scanner.Pos s0)
  end.
  { unfold scanner.next in E.
    destruct (scanner.read _) as [c r]. injection E as _ <-. reflexivity. }
  exists c', s'. split; [reflexivity |]. rewrite Hp.
  cbn [scanner.rd scanner.set_tokPos].
  destruct (scanner.column (scanner.rd s) >? 0); reflexivity.
Qed.

(** [Scan] when the input starts with a newline and no character has
    been read yet: the token is the newline, at the position of the
    first character. *)
Lemma Scan_first_newline (s : scanner.Scanner) (tl : list Z) :
  scanner.ch s = -2 ->
  scanner.src (scanner.rd s) = 10 :: tl ->
  Z.testbit (scanner.Whitespace s) 10 = false ->
  exists s',
    scanner.Scan T s = (10, s')
    /\ scanner.Pos s'
       = scanner.mkPosition (scanner.Filename (scanner.Pos s))
           (scanner.srcPos (scanner.rd s)) (scanner.line (scanner.rd s))
           (scanner.column (scanner.rd s) + 1).
Proof.
  intros Hch Hsrc Hw. unfold scanner.Scan, scanner.Peek.
  rewrite Hch. cbn [Z.eqb Pos.eqb].
  unfold scanner.next at 1, scanner.read. rewrite Hsrc.
  cbn [utf8.DecodeRune utf8.first Z.ltb Z.compare Pos.compare
       Pos.compare_cont utf8.RuneSelf Z.eqb Pos.eqb Z.of_nat
       Pos.of_succ_nat skipn].
  set (s1 := scanner.set_Line _ 0).
  unfold scanner.fuel. cbn [scanner.scanLoop].
  destruct (scanToken_newline s1) as (c' & s' & E & Hp); [exact Hw |].
  rewrite E. eexists. split; [reflexivity |].
  cbn [scanner.finish scanner.set_ch scanner.set_tokEnd scanner.Pos snd].
  rewrite Hp. subst s1.
  cbn [scanner.rd scanner.set_Line scanner.set_Pos scanner.set_tokPos
       scanner.set_ch scanner.set_rd scanner.column scanner.srcPos
       scanner.lastCharLen scanner.line scanner.lastLineLen scanner.Pos
       scanner.Filename Z.gtb Z.compare].
  f_equal; lia.
Qed.

Lemma start_newline (filename rest : string) :
  tagsParser.tok (tagsParser.start T filename (Sample.nl +:+ rest)) = 10
  /\ tagsParser.pos (tagsParser.start T filename (Sample.nl +:+ rest))
     = scanner.mkPosition filename 0 1 1
  /\ tagsParser.errors (tagsParser.start T filename (Sample.nl +:+ rest))
     = [].
Proof.
  unfold tagsParser.start, tagsParser.next. cbn [tagsParser.scanner].
  match goal with
  | |- context [scanner.Scan T ?s0] =>
    destruct (Scan_first_newline s0 (Go.bytes rest))
      as (s' & E & Hp); [reflexivity | reflexivity | reflexivity |];
    rewrite E
  end.
  cbn [tagsParser.tok tagsParser.pos tagsParser.errors].
  rewrite Hp. auto.
Qed.

(** A round of the outer loop of [parse] that starts at a token which
    is not an identifier: the loop runs to the end of the input, with
    the error that the tag name is missing recorded behind the earlier
    ones, and with a tag that has the text of the token as its name. *)
Lemma parseTags_no_tag_name (n : nat) (p : tagsParser.t)
    (tags : list tag.t) :
  tagsParser.tok p <> scanner.EOF ->
  tagsParser.tok p <> scanner.Ident ->
  (tagsParser.measure p < n)%nat ->
  exists tags' p',
    tagsParser.parseTags T n p tags = Some (tags', p')
    /\ tagsParser.tok p' = scanner.EOF
    /\ (tagsParser.errors p
        ++ [tagsParser.newError (tagsParser.pos p)
              ("expected tag name, found "
               +:+ scanner.TokenString T (tagsParser.tok p))])
       `prefix_of` tagsParser.errors p'
    /\ exists attrs,
         (tags ++ [tag.mk (tagsParser.lit p) attrs]) `prefix_of` tags'.
Proof.
  intros Heof Hid Hn. destruct n as [| n]; [lia |].
  cbn [tagsParser.parseTags].
  destruct (Z.eqb_spec (tagsParser.tok p) scanner.EOF); [contradiction |].
  cbn [negb].
  set (p1 := tagsParser.expect T p scanner.Ident "tag name").
  destruct (measure_expect T p scanner.Ident "tag name") as [_ H1].
  specialize (H1 Heof). fold p1 in H1.
  assert (He1 : tagsParser.errors p1
                = tagsParser.errors p
                  ++ [tagsParser.newError (tagsParser.pos p)
                        ("expected tag name, found "
                         +:+ scanner.TokenString T (tagsParser.tok p))]).
  { subst p1. unfold tagsParser.expect.
    destruct (Z.eqb_spec (tagsParser.tok p) scanner.Ident); [contradiction |].
    cbn [negb]. rewrite errors_next. reflexivity. }
  clearbody p1.
  destruct (parseAttrs_total T n p1 ∅) as (p2 & attrs & E2 & Hm2 & He2);
    [lia |].
  rewrite E2.
  destruct (measure_next T p2) as [Hm3 _].
  destruct (parseTags_total T n (tagsParser.next T p2)
              (tags ++ [tag.mk (tagsParser.lit p) attrs]))
    as (tags' & p' & E & Heof' & Ht & He); [lia |].
  exists tags', p'. rewrite E. split; [reflexivity |].
  split; [exact Heof' |]. split.
  - rewrite <- He1. rewrite errors_next in He.
    etrans; [exact He2 | exact He].
  - exists attrs. exact Ht.
Qed.

End ParserMore.

Section ParserExtras.
Variable T : unicode.Tables.

(** X17.  When a round of the outer loop of [parse] starts at a token
    that is not an identifier (the newline of an empty line, a number,
    a string), the line is not skipped without notice: the error
    [expected tag name, found ...] for that token, at its position, is
    added to the errors, which stay in the list to the end; a tag is
    emitted all the same, with the text of the token as its name; and
    the parse goes on to the end of the input. *)
Theorem line_that_starts_without_a_tag_name_is_an_error
    (n : nat) (p : tagsParser.t) (tags : list tag.t) :
  tagsParser.tok p <> scanner.EOF ->
  tagsParser.tok p <> scanner.Ident ->
  (tagsParser.measure p < n)%nat ->
  exists tags' p',
    tagsParser.parseTags T n p tags = Some (tags', p')
    /\ tagsParser.tok p' = scanner.EOF
    /\ (tagsParser.errors p
        ++ [tagsParser.newError (tagsParser.pos p)
              ("expected tag name, found "
               +:+ scanner.TokenString T (tagsParser.tok p))])
       `prefix_of` tagsParser.errors p'
    /\ exists attrs,
         (tags ++ [tag.mk (tagsParser.lit p) attrs]) `prefix_of` tags'.
Proof. apply parseTags_no_tag_name. Qed.

(** X18.  A descriptor text that begins with an empty line is rejected,
    whatever follows: [parseControlData] returns no descriptor and an
    error whose message is that of the first error of the list, the
    missing tag name at line 1, column 1 of the file. *)
Theorem text_that_begins_with_an_empty_line_is_rejected
    (filename rest : string) :
  exists e,
    parseControlData T filename (Sample.nl +:+ rest) = Some (None, Some e)
    /\ errorList.Error e
       = scanner.PositionString (scanner.mkPosition filename 0 1 1)
         +:+ ": expected tag name, found " +:+ Go.of_bytes [34; 92; 110; 34].
Proof.
  destruct (start_newline T filename rest) as (Htok & Hpos & Herr).
  destruct (parseTags_no_tag_name T
              (tagsParser.rounds (Sample.nl +:+ rest))
              (tagsParser.start T filename (Sample.nl +:+ rest)) [])
    as (tags & p & E & _ & He & _).
  - rewrite Htok. discriminate.
  - rewrite Htok. discriminate.
  - apply measure_start.
  - rewrite Htok, Hpos, Herr in He. cbn [app] in He.
    destruct He as [more He].
    unfold parseControlData, tagsParser.parse, tagsParser.run.
    rewrite E, He. cbn [errorList.Err app length Nat.eqb].
    eexists. split; [reflexivity |]. reflexivity.
Qed.

End ParserExtras.

Lemma line_that_starts_without_a_tag_name_is_an_error_witness :
  exists tags' p',
    tagsParser.parseTags Sample.tables 40
      (tagsParser.start Sample.tables "bmfont" ("3 x=1" +:+ Sample.nl)) []
    = Some (tags', p')
    /\ tagsParser.tok p' = scanner.EOF
    /\ (tagsParser.errors
          (tagsParser.start Sample.tables "bmfont" ("3 x=1" +:+ Sample.nl))
        ++ [tagsParser.newError
              (tagsParser.pos
                 (tagsParser.start Sample.tables "bmfont"
                    ("3 x=1" +:+ Sample.nl)))
              ("expected tag name, found "
               +:+ scanner.TokenString Sample.tables
                     (tagsParser.tok
                        (tagsParser.start Sample.tables "bmfont"
                           ("3 x=1" +:+ Sample.nl))))])
       `prefix_of` tagsParser.errors p'
    /\ exists attrs,
         ([] ++ [tag.mk
                   (tagsParser.lit
                      (tagsParser.start Sample.tables "bmfont"
                         ("3 x=1" +:+ Sample.nl)))
                   attrs])
         `prefix_of` tags'.
Proof.
  apply (line_that_starts_without_a_tag_name_is_an_error Sample.tables 40
           (tagsParser.start Sample.tables "bmfont" ("3 x=1" +:+ Sample.nl))
           []).
  - vm_compute. discriminate.
  - vm_compute. discriminate.
  - vm_compute. lia.
Defined.

(** ** Loading from files *)

Section FilesFacts.
Context {Image : Type}.
Variable image_Decode : string -> Image + error.
Variable T : unicode.Tables.

(** [parseControlData] returns for every input, either a descriptor or
    an error. *)
Lemma parseControlData_result (filename r : string) :
  exists res,
    parseControlData T filename r = Some res
    /\ ((exists desc, res = (Some desc, None))
        \/ (exists err, res = (None, Some err))).
Proof.
  destruct (run_total T filename r) as (tags & p & E & _).
  unfold parseControlData, tagsParser.parse. rewrite E.
  destruct (errorList.Err (tagsParser.errors p)) as [e |]; eauto.
Qed.

(** A run of [Read] returns either a font or an error. *)
Lemma Read_result (r : string) (sheets : SheetReaderFunc)
    (res : option (BitmapFont.t Image) * option error)
    (calls : list string) :
  Read image_Decode T r sheets res calls ->
  (exists f, res = (Some f, None)) \/ (exists err, res = (None, Some err)).
Proof.
  intros (d & pages & Hd & _ & Hrun).
  destruct (ReadDescriptor_result T r d Hd) as [[desc ->] | [err ->]];
    cbn [ReadFrom] in Hrun.
  - destruct (readPages image_Decode sheets pages ∅ []) as [[ps | err] log];
      injection Hrun as <- _; eauto.
  - injection Hrun as <- _. eauto.
Qed.

End FilesFacts.

Section FilesExtras.
Context {Image : Type}.
Variable image_Decode : string -> Image + error.
Variable os_Open : string -> ReadCloser + error.
Variable filepath_Base : string -> string.
Variable filepath_Split_dir : string -> string.
Variable filepath_Join : string -> string -> string.
Variable T : unicode.Tables.

(** X19.  [LoadDescriptor] returns for every path, and never nil
    twice.  It returns a descriptor together with an error in one case
    only: the file was opened and parsed without an error, and closing
    it failed; the error is then the one of closing the file.  An error
    of parsing is not replaced by an error of closing. *)
Theorem LoadDescriptor_returns_the_descriptor_with_the_error_of_Close
    (path : string) :
  exists d err,
    LoadDescriptor os_Open filepath_Base T path = Some (d, err)
    /\ (is_Some d \/ is_Some err)
    /\ (is_Some d /\ is_Some err
        <-> exists f,
              os_Open path = inl f
              /\ parseDescriptor T (filepath_Base path) (content f)
                 = Some (d, None)
              /\ is_Some (closeError f)
              /\ err = closeError f)
    /\ (forall f e,
          os_Open path = inl f ->
          parseDescriptor T (filepath_Base path) (content f)
          = Some (None, Some e) ->
          d = None /\ err = Some e).
Proof.
  unfold LoadDescriptor. destruct (os_Open path) as [f | e0].
  - unfold parseDescriptor.
    destruct (parseControlData_result T (filepath_Base path) (content f))
      as (res & E & [[desc ->] | [e ->]]); rewrite E; unfold closeChecked.
    + exists (Some desc), (closeError f).
      split; [destruct (closeError f); reflexivity |].
      split; [left; eauto |]. split.
      * split.
        -- intros [_ Hc]. exists f. auto.
        -- intros (f' & [= <-] & _ & Hc & _). split; [eauto | exact Hc].
      * intros f' e [= <-] H. rewrite E in H. discriminate H.
    + exists None, (Some e).
      split; [destruct (closeError f); reflexivity |].
      split; [right; eauto |]. split.
      * split.
        -- intros [[x Hx] _]. discriminate Hx.
        -- intros (f' & [= <-] & H & _). rewrite E in H. discriminate H.
      * intros f' e' [= <-] H. rewrite E in H. injection H as <-. auto.
  - exists None, (Some e0). split; [reflexivity |].
    split; [right; eauto |]. split.
    + split.
      * intros [[x Hx] _]. discriminate Hx.
      * intros (f' & H & _). discriminate H.
    + intros f' e' H. discriminate H.
Qed.

(** X20.  [LoadControlData], the earlier function, returns for every
    path exactly one of a descriptor and an error: it closes the file
    without looking at the error of closing it. *)
Theorem LoadControlData_returns_a_descriptor_or_an_error (path : string) :
  exists d err,
    LoadControlData os_Open filepath_Base T path = Some (d, err)
    /\ (is_Some d <-> err = None)
    /\ (d = None <-> is_Some err).
Proof.
  assert (Hno : forall A, ~ is_Some (@None A))
    by (intros A [x Hx]; discriminate Hx).
  unfold LoadControlData. destruct (os_Open path) as [f | e0].
  - destruct (parseControlData_result T (filepath_Base path) (content f))
      as (res & E & [[desc ->] | [e ->]]); rewrite E.
    + exists (Some desc), None. split; [reflexivity |].
      split; split; intros H; try done; eauto; by apply Hno in H.
    + exists None, (Some e). split; [reflexivity |].
      split; split; intros H; try done; eauto; by apply Hno in H.
  - exists None, (Some e0). split; [reflexivity |].
    split; split; intros H; try done; eauto; by apply Hno in H.
Qed.

(** X21.  No run of [Load] returns nil twice.  A run returns a font
    together with an error only when the descriptor file was opened,
    the descriptor and every sheet were read without an error, and
    closing the descriptor file failed; the error is then the one of
    closing it. *)
Theorem Load_returns_the_font_with_the_error_of_Close
    (path : string) (res : option (BitmapFont.t Image) * option error) :
  Load image_Decode os_Open filepath_Split_dir filepath_Join T path res ->
  match res with
  | (None, None) => False
  | (None, Some _) => True
  | (Some f, None) =>
    exists file calls,
      os_Open path = inl file /\ closeError file = None
      /\ Read image_Decode T (content file)
           (fileSheets os_Open filepath_Join (filepath_Split_dir path))
           (Some f, None) calls
  | (Some f, Some err) =>
    exists file calls,
      os_Open path = inl file /\ closeError file = Some err
      /\ Read image_Decode T (content file)
           (fileSheets os_Open filepath_Join (filepath_Split_dir path))
           (Some f, None) calls
  end.
Proof.
  unfold Load. destruct (os_Open path) as [file | e0]; [| intros ->; exact I].
  intros (res0 & calls & HR & ->).
  destruct (Read_result image_Decode T _ _ _ _ HR) as [[f ->] | [e ->]];
    cbn [fst snd]; unfold closeChecked.
  - destruct (closeError file) as [ce |] eqn:Ec; exists file, calls; auto.
  - destruct (closeError file); exact I.
Qed.

End FilesExtras.

Lemma Load_returns_the_font_with_the_error_of_Close_witness :
  exists file calls,
    Sample.open_font "font.fnt" = inl file
    /\ closeError file = Some Sample.close_failed
    /\ Read Sample.decode_any Sample.tables (content file)
         (fileSheets Sample.open_font Sample.join_second
            (Sample.dir_empty "font.fnt"))
         (Some Sample.two_pages_font, None) calls.
Proof.
  apply (Load_returns_the_font_with_the_error_of_Close
           Sample.decode_any Sample.open_font Sample.dir_empty
           Sample.join_second Sample.tables "font.fnt"
           (Some Sample.two_pages_font, Some Sample.close_failed)).
  unfold Load. cbn [Sample.open_font String.eqb Ascii.eqb Bool.eqb].
  exists Sample.two_pages_result, ["b.png"; "a.png"].
  split; [| reflexivity].
  exists (Some Sample.two_pages_desc, None),
         [(1, Page.mk 1 "b.png"); (0, Page.mk 0 "a.png")].
  split; [vm_compute; reflexivity |]. split.
  - cbn [fst]. unfold iteration_order.
    replace (map_to_list (Descriptor.Pages Sample.two_pages_desc))
      with [(1, Page.mk 1 "b.png"); (0, Page.mk 0 "a.png")]
      by (vm_compute; reflexivity).
    reflexivity.
  - vm_compute. reflexivity.
Defined.

(** ** Scanning well-formed text *)

Section ScanText.
Variable T : unicode.Tables.

(** Case analysis on the comparisons of integers in the goal and in the
    hypotheses. *)
Ltac zcases :=
  repeat match goal with
  | H : context [?a <=? ?b] |- _ => destruct (Z.leb_spec a b)
  | H : context [?a <? ?b] |- _ => destruct (Z.ltb_spec a b)
  | H : context [?a =? ?b] |- _ => destruct (Z.eqb_spec a b)
  | |- context [?a <=? ?b] => destruct (Z.leb_spec a b)
  | |- context [?a <? ?b] => destruct (Z.ltb_spec a b)
  | |- context [?a =? ?b] => destruct (Z.eqb_spec a b)
  end;
  cbn [andb orb negb] in *; try discriminate; try reflexivity; try lia.

Lemma letter_byte_ascii (b : Z) : letter_byte b = true -> 0 <= b < 128.
Proof. unfold letter_byte, utf8.between. intros H. zcases. Qed.

Lemma digit_byte_ascii (b : Z) : digit_byte b = true -> 0 <= b < 128.
Proof. unfold digit_byte, utf8.between. intros H. zcases. Qed.

Lemma isIdentRune_ascii (c : Z) (later : bool) :
  0 <= c < 128 ->
  scanner.isIdentRune T c later = letter_byte c || (digit_byte c && later).
Proof.
  intros Hc. unfold scanner.isIdentRune, unicode.IsLetter, unicode.IsDigit,
    unicode.MaxASCII, letter_byte, digit_byte, utf8.between.
  destruct later; zcases.
Qed.

Lemma DecodeRune_ascii (c : Z) (rest : list Z) :
  0 <= c < 128 -> utf8.DecodeRune (c :: rest) = (c, 1%nat).
Proof.
  intros Hc. unfold utf8.DecodeRune, utf8.first, utf8.RuneSelf.
  destruct (Z.ltb_spec c 194); [| lia].
  destruct (Z.ltb_spec c 128); [reflexivity | lia].
Qed.

(** [next] on a byte of ASCII, and at the end of the input. *)
Lemma next_byte (s : scanner.Scanner) (c : Z) (rest : list Z) :
  scanner.src (scanner.rd s) = c :: rest -> 0 <= c < 128 ->
  exists r',
    scanner.next s = (c, scanner.set_rd s r')
    /\ scanner.src r' = rest
    /\ scanner.srcPos r' = scanner.srcPos (scanner.rd s) + 1
    /\ scanner.lastCharLen r' = 1.
Proof.
  intros Hsrc Hc. unfold scanner.next, scanner.read. rewrite Hsrc.
  rewrite (DecodeRune_ascii c rest Hc).
  destruct (c =? 10); eexists; (split; [reflexivity |]); cbn; auto.
Qed.

Lemma next_end (s : scanner.Scanner) :
  scanner.src (scanner.rd s) = [] ->
  exists r',
    scanner.next s = (scanner.EOF, scanner.set_rd s r')
    /\ scanner.src r' = []
    /\ scanner.srcPos r' = scanner.srcPos (scanner.rd s)
    /\ scanner.lastCharLen r' = 0.
Proof.
  intros Hsrc. unfold scanner.next, scanner.read. rewrite Hsrc.
  eexists. split; [reflexivity |]. cbn. auto.
Qed.

Lemma set_rd_rd (s : scanner.Scanner) : scanner.set_rd s (scanner.rd s) = s.
Proof. destruct s. reflexivity. Qed.

(** A loop [for cond(ch) { ch = s.next() }] over bytes of ASCII: it
    reads the bytes [u] that satisfy [cond] and stops at the byte [t]
    that does not. *)
Lemma nextWhile_bytes (cond : Z -> bool) (u : list Z) :
  forall (n : nat) (s : scanner.Scanner) (c t : Z) (rest : list Z),
    c :: scanner.src (scanner.rd s) = u ++ t :: rest ->
    Forall (fun b => cond b = true) u ->
    cond t = false ->
    Forall (fun b => 0 <= b < 128) (u ++ [t]) ->
    (length u < n)%nat ->
    scanner.lastCharLen (scanner.rd s) = 1 ->
    exists r',
      scanner.nextWhile n cond s c = (t, scanner.set_rd s r')
      /\ scanner.src r' = rest
      /\ scanner.srcPos r'
         = scanner.srcPos (scanner.rd s) + Z.of_nat (length u)
      /\ scanner.lastCharLen r' = 1.
Proof.
  induction u as [| b u IH]; intros n s c t rest Hsrc Hu Ht Hascii Hn Hlast.
  - injection Hsrc as -> Hsrc. destruct n as [| n]; [cbn in Hn; lia |].
    cbn [scanner.nextWhile]. rewrite Ht. exists (scanner.rd s).
    rewrite set_rd_rd. cbn [length]. repeat split; auto. lia.
  - injection Hsrc as -> Hsrc. destruct n as [| n]; [cbn in Hn; lia |].
    apply Forall_cons in Hu. destruct Hu as [Hb Hu].
    cbn [scanner.nextWhile]. rewrite Hb.
    assert (Hhd : exists c1 rest1,
               scanner.src (scanner.rd s) = c1 :: rest1
               /\ 0 <= c1 < 128
               /\ c1 :: rest1 = u ++ t :: rest).
    { rewrite Hsrc. rewrite Forall_app in Hascii.
      destruct Hascii as [Hau Hat].
      apply Forall_cons in Hau. destruct Hau as [_ Hau].
      destruct u as [| c1 u'].
      - exists t, rest. apply Forall_cons in Hat. tauto.
      - exists c1, (u' ++ t :: rest). apply Forall_cons in Hau.
        cbn. tauto. }
    destruct Hhd as (c1 & rest1 & Hs1 & Hc1 & Heq).
    destruct (next_byte s c1 rest1 Hs1 Hc1) as (r1 & E1 & Hr1 & Hp1 & Hl1).
    rewrite E1.
    destruct (IH n (scanner.set_rd s r1) c1 t rest) as (r' & E & Hr & Hp & Hl).
    + cbn [scanner.rd scanner.set_rd]. rewrite Hr1. exact Heq.
    + exact Hu.
    + exact Ht.
    + apply Forall_cons in Hascii. tauto.
    + cbn [length] in Hn. lia.
    + exact Hl1.
    + exists r'. rewrite E. cbn [scanner.rd scanner.set_rd] in *.
      repeat split; auto. rewrite Hp, Hp1. cbn [length]. lia.
Qed.

(** What [parse] has set: the token kinds, and the white space, which
    leaves the newline out. *)
Lemma isWhitespace_space (s : scanner.Scanner) :
  scanner.Whitespace s = parse_Whitespace ->
  scanner.isWhitespace s 32 = true.
Proof. intros H. unfold scanner.isWhitespace. rewrite H. reflexivity. Qed.

Lemma isWhitespace_token (s : scanner.Scanner) (x : Z) :
  scanner.Whitespace s = parse_Whitespace ->
  letter_byte x || digit_byte x || (x =? 61) || (x =? 10)
  || (x =? 44) || (x =? 45) || (x =? 34) = true ->
  scanner.isWhitespace s x = false.
Proof.
  intros H Hx. unfold scanner.isWhitespace. rewrite H.
  unfold letter_byte, digit_byte, utf8.between in Hx.
  destruct (Z.ltb_spec x 64) as [Hlt | Hge];
    [| rewrite andb_false_r; reflexivity].
  destruct (Z.leb_spec 0 x) as [Hpos | Hneg]; [| reflexivity].
  cbn [andb].
  assert (Hcases : x = 48 \/ x = 49 \/ x = 50 \/ x = 51 \/ x = 52
                   \/ x = 53 \/ x = 54 \/ x = 55 \/ x = 56 \/ x = 57
                   \/ x = 61 \/ x = 10 \/ x = 44 \/ x = 45 \/ x = 34).
  { clear H. zcases. }
  clear Hx.
  repeat (destruct Hcases as [-> | Hcases]; [reflexivity |]).
  subst x. reflexivity.
Qed.

(** The start of [scanToken]: white space is skipped up to the first
    character [x] of the token. *)
Lemma skip_spaces (s : scanner.Scanner) (c x : Z) (ws rest : list Z) :
  scanner.Whitespace s = parse_Whitespace ->
  scanner.lastCharLen (scanner.rd s) = 1 ->
  c :: scanner.src (scanner.rd s) = ws ++ x :: rest ->
  Forall (fun b => b = 32) ws ->
  letter_byte x || digit_byte x || (x =? 61) || (x =? 10)
  || (x =? 44) || (x =? 45) || (x =? 34) = true ->
  exists r',
    scanner.nextWhile (scanner.fuel s) (scanner.isWhitespace s) s c
    = (x, scanner.set_rd s r')
    /\ scanner.src r' = rest
    /\ scanner.srcPos r'
       = scanner.srcPos (scanner.rd s) + Z.of_nat (length ws)
    /\ scanner.lastCharLen r' = 1.
Proof.
  intros HW Hlast Hsrc Hws Hx.
  apply (nextWhile_bytes (scanner.isWhitespace s) ws); auto.
  - eapply Forall_impl; [exact Hws |]. intros b ->.
    apply isWhitespace_space, HW.
  - apply isWhitespace_token; assumption.
  - apply Forall_app. split.
    + eapply Forall_impl; [exact Hws |]. intros b ->. lia.
    + constructor; [| constructor].
      unfold letter_byte, digit_byte, utf8.between in Hx. clear -Hx. zcases.
  - unfold scanner.fuel.
    assert (Hl : length (c :: scanner.src (scanner.rd s))
                 = length (ws ++ x :: rest)) by (rewrite Hsrc; reflexivity).
    rewrite length_app in Hl. cbn [length] in Hl. lia.
Qed.

End ScanText.

Section ScanTokens.
Variable T : unicode.Tables.

Ltac zcases :=
  repeat match goal with
  | H : context [?a <=? ?b] |- _ => destruct (Z.leb_spec a b)
  | H : context [?a <? ?b] |- _ => destruct (Z.ltb_spec a b)
  | H : context [?a =? ?b] |- _ => destruct (Z.eqb_spec a b)
  | |- context [?a <=? ?b] => destruct (Z.leb_spec a b)
  | |- context [?a <? ?b] => destruct (Z.ltb_spec a b)
  | |- context [?a =? ?b] => destruct (Z.eqb_spec a b)
  end;
  cbn [andb orb negb] in *; try discriminate; try reflexivity; try lia.

Lemma has_GoTokens (s : scanner.Scanner) :
  scanner.Mode s = scanner.GoTokens ->
  scanner.has s scanner.ScanIdents = true
  /\ scanner.has s (Z.lor scanner.ScanInts scanner.ScanFloats) = true
  /\ negb (Z.land (scanner.Mode s) scanner.ScanFloats =? 0) = true.
Proof. intros H. unfold scanner.has. rewrite H. auto. Qed.

Lemma if_set_Pos (b : bool) (s : scanner.Scanner)
    (p q : scanner.Position) :
  (if b then scanner.set_Pos s p else scanner.set_Pos s q)
  = scanner.set_Pos s (if b then p else q).
Proof. destruct b; reflexivity. Qed.

Lemma sep_ascii (t : Z) : t = 32 \/ t = 10 \/ t = 61 \/ t = 44 \/ t = 45 -> 0 <= t < 128.
Proof. lia. Qed.

Lemma name_rest_ascii (w : list Z) :
  forallb (fun b => letter_byte b || digit_byte b) w = true ->
  Forall (fun b => 0 <= b < 128) w.
Proof.
  intros H. apply Forall_forall. intros b Hb.
  rewrite forallb_forall in H. specialize (H b).
  rewrite <- list_elem_of_In in H. specialize (H Hb).
  apply orb_true_iff in H.
  destruct H; [apply letter_byte_ascii | apply digit_byte_ascii]; assumption.
Qed.

Lemma digits_ascii (w : list Z) :
  forallb digit_byte w = true -> Forall (fun b => 0 <= b < 128) w.
Proof.
  intros H. apply Forall_forall. intros b Hb.
  rewrite forallb_forall in H. specialize (H b).
  rewrite <- list_elem_of_In in H. apply digit_byte_ascii, H, Hb.
Qed.

(** The first byte of what is left to read, when that is [u] and then
    the byte [t]. *)
Lemma head_of_rest (u rest : list Z) (t : Z) :
  Forall (fun b => 0 <= b < 128) u -> 0 <= t < 128 ->
  exists c1 rest1, u ++ t :: rest = c1 :: rest1 /\ 0 <= c1 < 128.
Proof.
  intros Hu Ht. destruct u as [| c1 u'].
  - exists t, rest. auto.
  - exists c1, (u' ++ t :: rest). apply Forall_cons in Hu. cbn. tauto.
Qed.

(** [scanIdentifier] behind the first byte of a name. *)
Lemma scanIdentifier_bytes (s : scanner.Scanner) (t : Z) (w rest : list Z) :
  scanner.src (scanner.rd s) = w ++ t :: rest ->
  forallb (fun b => letter_byte b || digit_byte b) w = true ->
  t = 32 \/ t = 10 \/ t = 61 \/ t = 44 \/ t = 45 ->
  exists r',
    scanner.scanIdentifier T s = (t, scanner.set_rd s r')
    /\ scanner.src r' = rest
    /\ scanner.srcPos r'
       = scanner.srcPos (scanner.rd s) + Z.of_nat (length w) + 1
    /\ scanner.lastCharLen r' = 1.
Proof.
  intros Hsrc Hw Ht. unfold scanner.scanIdentifier.
  pose proof (name_rest_ascii w Hw) as Hascii.
  destruct (head_of_rest w rest t Hascii (sep_ascii t Ht))
    as (c1 & rest1 & Heq & Hc1).
  rewrite Heq in Hsrc.
  destruct (next_byte s c1 rest1 Hsrc Hc1) as (r1 & E1 & Hr1 & Hp1 & Hl1).
  rewrite E1.
  destruct (nextWhile_bytes (fun c => scanner.isIdentRune T c true) w
              (scanner.fuel (scanner.set_rd s r1)) (scanner.set_rd s r1)
              c1 t rest)
    as (r' & E & Hr & Hp & Hl).
  - cbn [scanner.rd scanner.set_rd]. rewrite Hr1. symmetry. exact Heq.
  - apply Forall_forall. intros b Hb.
    rewrite Forall_forall in Hascii.
    rewrite (isIdentRune_ascii T b true (Hascii b Hb)).
    rewrite forallb_forall in Hw. specialize (Hw b).
    rewrite <- list_elem_of_In in Hw. specialize (Hw Hb).
    rewrite andb_true_r. exact Hw.
  - rewrite (isIdentRune_ascii T t true (sep_ascii t Ht)).
    destruct Ht as [-> | [-> | [-> | [-> | ->]]]]; reflexivity.
  - apply Forall_app. split; [exact Hascii |].
    constructor; [apply sep_ascii, Ht | constructor].
  - unfold scanner.fuel. cbn [scanner.rd scanner.set_rd]. rewrite Hr1.
    assert (Hl : length (c1 :: rest1) = length (w ++ t :: rest))
      by (rewrite Heq; reflexivity).
    rewrite length_app in Hl. cbn [length] in Hl. lia.
  - exact Hl1.
  - exists r'. rewrite E. cbn [scanner.rd scanner.set_rd] in *.
    repeat split; auto. lia.
Qed.

(** A name: the identifier is read up to the byte that ends it. *)
Lemma scanToken_name (s : scanner.Scanner) (c t : Z) (ws w rest : list Z) :
  scanner.Mode s = scanner.GoTokens ->
  scanner.Whitespace s = parse_Whitespace ->
  scanner.lastCharLen (scanner.rd s) = 1 ->
  c :: scanner.src (scanner.rd s) = ws ++ w ++ t :: rest ->
  Forall (fun b => b = 32) ws ->
  name_bytes w = true ->
  t = 32 \/ t = 10 \/ t = 61 \/ t = 44 \/ t = 45 ->
  exists r' pos',
    scanner.scanToken T s c
    = scanner.Token scanner.Ident t
        (scanner.mkScanner (scanner.srcBuf s) r'
           (scanner.srcPos (scanner.rd s) + Z.of_nat (length ws) - 1)
           (scanner.tokEnd s) (scanner.ch s) (scanner.Mode s)
           (scanner.Whitespace s) pos')
    /\ scanner.src r' = rest
    /\ scanner.srcPos r'
       = scanner.srcPos (scanner.rd s) + Z.of_nat (length ws)
         + Z.of_nat (length w)
    /\ scanner.lastCharLen r' = 1.
Proof.
  intros HM HW Hlast Hsrc Hws Hw Ht.
  destruct w as [| x w']; [discriminate |]. cbn [name_bytes] in Hw.
  apply andb_true_iff in Hw. destruct Hw as [Hx Hw'].
  destruct (skip_spaces s c x ws (w' ++ t :: rest))
    as (r1 & E1 & Hr1 & Hp1 & Hl1); auto.
  { rewrite Hx. reflexivity. }
  unfold scanner.scanToken. rewrite E1, if_set_Pos.
  cbn [scanner.rd scanner.set_rd scanner.set_tokPos].
  rewrite (isIdentRune_ascii T x false (letter_byte_ascii x Hx)), Hx.
  cbn [orb].
  match goal with
  | |- context [scanner.has ?s2 scanner.ScanIdents] =>
    destruct (has_GoTokens s2 HM) as (-> & _ & _);
    destruct (scanIdentifier_bytes s2 t w' rest Hr1 Hw' Ht)
      as (r' & E & Hr & Hp & Hl)
  end.
  rewrite E. eexists r', _. split; [| split; [exact Hr | split; [| exact Hl]]].
  - cbn [scanner.set_rd scanner.set_Pos scanner.set_tokPos scanner.srcBuf
         scanner.tokPos scanner.tokEnd scanner.ch scanner.Mode
         scanner.Whitespace scanner.Pos scanner.rd].
    rewrite Hp1, Hl1. reflexivity.
  - rewrite Hp. cbn [scanner.rd scanner.set_rd scanner.set_Pos
                     scanner.set_tokPos length].
    rewrite Hp1. lia.
Qed.

Lemma lower_digit_or_sep (c : Z) :
  digit_byte c = true \/ c = 32 \/ c = 10 \/ c = 61 \/ c = 44 \/ c = 45 ->
  (scanner.lower c =? 120) = false /\ (scanner.lower c =? 111) = false
  /\ (scanner.lower c =? 98) = false /\ (scanner.lower c =? 101) = false
  /\ (scanner.lower c =? 112) = false.
Proof.
  intros [H | H].
  - assert (Hc : c = 48 \/ c = 49 \/ c = 50 \/ c = 51 \/ c = 52
                 \/ c = 53 \/ c = 54 \/ c = 55 \/ c = 56 \/ c = 57).
    { unfold digit_byte, utf8.between in H. zcases. }
    repeat (destruct Hc as [-> | Hc]; [repeat split; reflexivity |]).
    subst c. repeat split; reflexivity.
  - destruct H as [-> | [-> | [-> | [-> | ->]]]]; repeat split; reflexivity.
Qed.

Lemma digits_cond (w : list Z) :
  forallb digit_byte w = true ->
  Forall (fun b => scanner.isDecimal b || (b =? 95) = true) w.
Proof.
  intros H. apply Forall_forall. intros b Hb.
  rewrite forallb_forall in H. specialize (H b).
  rewrite <- list_elem_of_In in H. specialize (H Hb).
  unfold scanner.isDecimal. unfold digit_byte in H. rewrite H. reflexivity.
Qed.

(** [scanNumber] on a number in decimal digits that a space, a newline
    or the sign [=] ends: an [Int], read up to that byte. *)
Lemma scanNumber_bytes (s : scanner.Scanner) (c t : Z) (w rest : list Z) :
  scanner.Mode s = scanner.GoTokens ->
  scanner.lastCharLen (scanner.rd s) = 1 ->
  digit_byte c = true ->
  scanner.src (scanner.rd s) = w ++ t :: rest ->
  forallb digit_byte w = true ->
  t = 32 \/ t = 10 \/ t = 61 \/ t = 44 \/ t = 45 ->
  exists r',
    scanner.scanNumber s c false = (scanner.Int, t, scanner.set_rd s r')
    /\ scanner.src r' = rest
    /\ scanner.srcPos r'
       = scanner.srcPos (scanner.rd s) + Z.of_nat (length w) + 1
    /\ scanner.lastCharLen r' = 1.
Proof.
  intros HM Hlast Hc Hsrc Hw Ht.
  pose proof (digits_ascii w Hw) as Hascii.
  pose proof (sep_ascii t Ht) as Hta.
  assert (Hcond_t : scanner.isDecimal t || (t =? 95) = false)
    by (destruct Ht as [-> | [-> | [-> | [-> | ->]]]]; reflexivity).
  assert (Hdot : (t =? 46) = false)
    by (destruct Ht as [-> | [-> | [-> | [-> | ->]]]]; reflexivity).
  destruct (lower_digit_or_sep t (or_intror Ht)) as (_ & _ & _ & He & Hp).
  unfold scanner.scanNumber.
  destruct (has_GoTokens s HM) as (_ & _ & ->).
  destruct (Z.eqb_spec c 48) as [-> | Hc48].
  - (* a leading 0: the next byte is looked at for a base prefix *)
    destruct (head_of_rest w rest t Hascii Hta) as (c1 & rest1 & Heq & Hc1).
    rewrite Heq in Hsrc.
    destruct (next_byte s c1 rest1 Hsrc Hc1) as (r1 & E1 & Hr1 & Hp1 & Hl1).
    rewrite E1.
    assert (Hc1' : digit_byte c1 = true \/ c1 = 32 \/ c1 = 10 \/ c1 = 61 \/ c1 = 44
                   \/ c1 = 45).
    { destruct w as [| b w']; cbn in Heq; injection Heq as <- _.
      - right. exact Ht.
      - left. cbn in Hw. apply andb_true_iff in Hw. tauto. }
    destruct (lower_digit_or_sep c1 Hc1') as (-> & -> & -> & _ & _).
    unfold scanner.digits. change (8 <=? 10) with true. cbv iota.
    destruct (nextWhile_bytes (fun c => scanner.isDecimal c || (c =? 95)) w
                (scanner.fuel (scanner.set_rd s r1)) (scanner.set_rd s r1)
                c1 t rest)
      as (r' & E & Hr & Hp' & Hl).
    + cbn [scanner.rd scanner.set_rd]. rewrite Hr1. symmetry. exact Heq.
    + apply digits_cond, Hw.
    + exact Hcond_t.
    + apply Forall_app. split; [exact Hascii |]. repeat constructor; lia.
    + unfold scanner.fuel. cbn [scanner.rd scanner.set_rd]. rewrite Hr1.
      assert (Hlen : length (c1 :: rest1) = length (w ++ t :: rest))
        by (rewrite Heq; reflexivity).
      rewrite length_app in Hlen. cbn [length] in Hlen. lia.
    + exact Hl1.
    + rewrite E, Hdot. cbn [andb]. rewrite He, Hp. cbn [orb andb].
      exists r'. cbn [scanner.rd scanner.set_rd] in *.
      repeat split; auto. lia.
  - unfold scanner.digits. change (10 <=? 10) with true. cbv iota.
    destruct (nextWhile_bytes (fun c => scanner.isDecimal c || (c =? 95))
                (c :: w) (scanner.fuel s) s c t rest)
      as (r' & E & Hr & Hp' & Hl).
    + rewrite Hsrc. reflexivity.
    + constructor; [| apply digits_cond, Hw].
      unfold scanner.isDecimal. unfold digit_byte in Hc. rewrite Hc.
      reflexivity.
    + exact Hcond_t.
    + apply Forall_app. split.
      * constructor; [apply digit_byte_ascii, Hc | exact Hascii].
      * repeat constructor; lia.
    + unfold scanner.fuel. rewrite Hsrc, length_app. cbn [length]. lia.
    + exact Hlast.
    + rewrite E, Hdot. cbn [andb]. rewrite He, Hp. cbn [orb andb].
      exists r'. repeat split; auto. rewrite Hp'. cbn [length]. lia.
Qed.

Lemma digit_not_letter (x : Z) : digit_byte x = true -> letter_byte x = false.
Proof. unfold digit_byte, letter_byte, utf8.between. intros H. zcases. Qed.

(** A number: read up to the byte that ends it. *)
Lemma scanToken_number (s : scanner.Scanner) (c t : Z) (ws w rest : list Z) :
  scanner.Mode s = scanner.GoTokens ->
  scanner.Whitespace s = parse_Whitespace ->
  scanner.lastCharLen (scanner.rd s) = 1 ->
  c :: scanner.src (scanner.rd s) = ws ++ w ++ t :: rest ->
  Forall (fun b => b = 32) ws ->
  number_bytes w = true ->
  t = 32 \/ t = 10 \/ t = 61 \/ t = 44 \/ t = 45 ->
  exists r' pos',
    scanner.scanToken T s c
    = scanner.Token scanner.Int t
        (scanner.mkScanner (scanner.srcBuf s) r'
           (scanner.srcPos (scanner.rd s) + Z.of_nat (length ws) - 1)
           (scanner.tokEnd s) (scanner.ch s) (scanner.Mode s)
           (scanner.Whitespace s) pos')
    /\ scanner.src r' = rest
    /\ scanner.srcPos r'
       = scanner.srcPos (scanner.rd s) + Z.of_nat (length ws)
         + Z.of_nat (length w)
    /\ scanner.lastCharLen r' = 1.
Proof.
  intros HM HW Hlast Hsrc Hws Hw Ht.
  destruct w as [| x w']; [discriminate |]. cbn [number_bytes forallb] in Hw.
  apply andb_true_iff in Hw. destruct Hw as [Hx Hw'].
  destruct (skip_spaces s c x ws (w' ++ t :: rest))
    as (r1 & E1 & Hr1 & Hp1 & Hl1); auto.
  { rewrite Hx, orb_true_r. reflexivity. }
  unfold scanner.scanToken. rewrite E1, if_set_Pos.
  cbn [scanner.rd scanner.set_rd scanner.set_tokPos].
  rewrite (isIdentRune_ascii T x false (digit_byte_ascii x Hx)),
    (digit_not_letter x Hx), andb_false_r.
  cbn [orb]. unfold scanner.isDecimal at 1. unfold digit_byte in Hx.
  rewrite Hx. fold (digit_byte x) in Hx.
  match goal with
  | |- context [scanner.has ?s2 (Z.lor _ _)] =>
    destruct (has_GoTokens s2 HM) as (_ & -> & _);
    destruct (scanNumber_bytes s2 x t w' rest HM Hl1 Hx Hr1 Hw' Ht)
      as (r' & E & Hr & Hp & Hl)
  end.
  rewrite E. eexists r', _. split; [| split; [exact Hr | split; [| exact Hl]]].
  - cbn [scanner.set_rd scanner.set_Pos scanner.set_tokPos scanner.srcBuf
         scanner.tokPos scanner.tokEnd scanner.ch scanner.Mode
         scanner.Whitespace scanner.Pos scanner.rd].
    rewrite Hp1, Hl1. reflexivity.
  - rewrite Hp. cbn [scanner.rd scanner.set_rd scanner.set_Pos
                     scanner.set_tokPos length].
    rewrite Hp1. lia.
Qed.

(** The sign [=], the newline, the comma and the sign [-] are tokens of
    their own; the byte
    behind them, if there is one, is read as the look-ahead
    character. *)
Lemma scanToken_char (s : scanner.Scanner) (c x : Z) (ws post : list Z) :
  scanner.Whitespace s = parse_Whitespace ->
  scanner.lastCharLen (scanner.rd s) = 1 ->
  c :: scanner.src (scanner.rd s) = ws ++ x :: post ->
  Forall (fun b => b = 32) ws ->
  x = 61 \/ x = 10 \/ x = 44 \/ x = 45 ->
  match post with [] => True | t :: _ => 0 <= t < 128 end ->
  exists c' r' pos',
    scanner.scanToken T s c
    = scanner.Token x c'
        (scanner.mkScanner (scanner.srcBuf s) r'
           (scanner.srcPos (scanner.rd s) + Z.of_nat (length ws) - 1)
           (scanner.tokEnd s) (scanner.ch s) (scanner.Mode s)
           (scanner.Whitespace s) pos')
    /\ match post with
       | [] =>
         c' = scanner.EOF /\ scanner.src r' = []
         /\ scanner.srcPos r'
            = scanner.srcPos (scanner.rd s) + Z.of_nat (length ws)
         /\ scanner.lastCharLen r' = 0
       | t :: rest =>
         c' = t /\ scanner.src r' = rest
         /\ scanner.srcPos r'
            = scanner.srcPos (scanner.rd s) + Z.of_nat (length ws) + 1
         /\ scanner.lastCharLen r' = 1
       end.
Proof.
  intros HW Hlast Hsrc Hws Hx Hpost.
  destruct (skip_spaces s c x ws post) as (r1 & E1 & Hr1 & Hp1 & Hl1); auto.
  { destruct Hx as [-> | [-> | [-> | ->]]]; reflexivity. }
  unfold scanner.scanToken. rewrite E1, if_set_Pos.
  cbn [scanner.rd scanner.set_rd scanner.set_tokPos].
  assert (Hbranch :
    scanner.isIdentRune T x false = false /\ scanner.isDecimal x = false
    /\ (x =? scanner.EOF) = false /\ (x =? 34) = false /\ (x =? 39) = false
    /\ (x =? 46) = false /\ (x =? 47) = false /\ (x =? 96) = false).
  { destruct Hx as [-> | [-> | [-> | ->]]]; repeat split; reflexivity. }
  destruct Hbranch as (-> & -> & -> & -> & -> & -> & -> & ->).
  match goal with
  | |- context [scanner.next ?s2] =>
    destruct post as [| t rest];
    [ destruct (next_end s2 Hr1) as (r' & E & Hr & Hp & Hl)
    | destruct (next_byte s2 t rest Hr1 Hpost) as (r' & E & Hr & Hp & Hl) ]
  end; rewrite E; eexists _, r', _; (split; [| repeat split]); try eassumption;
    try reflexivity.
  - cbn [scanner.set_rd scanner.set_Pos scanner.set_tokPos scanner.srcBuf
         scanner.tokPos scanner.tokEnd scanner.ch scanner.Mode
         scanner.Whitespace scanner.Pos scanner.rd].
    rewrite Hp1, Hl1. reflexivity.
  - rewrite Hp. cbn [scanner.rd scanner.set_rd scanner.set_Pos
                     scanner.set_tokPos]. exact Hp1.
  - cbn [scanner.set_rd scanner.set_Pos scanner.set_tokPos scanner.srcBuf
         scanner.tokPos scanner.tokEnd scanner.ch scanner.Mode
         scanner.Whitespace scanner.Pos scanner.rd].
    rewrite Hp1, Hl1. reflexivity.
  - rewrite Hp. cbn [scanner.rd scanner.set_rd scanner.set_Pos
                     scanner.set_tokPos]. rewrite Hp1. reflexivity.
Qed.

(** At the end of the input the token is [EOF]. *)
Lemma scanToken_EOF (s : scanner.Scanner) :
  scanner.src (scanner.rd s) = [] ->
  exists s', scanner.scanToken T s scanner.EOF
             = scanner.Token scanner.EOF scanner.EOF s'.
Proof.
  intros Hsrc. unfold scanner.scanToken, scanner.fuel. rewrite Hsrc.
  cbn [length scanner.nextWhile].
  change (scanner.isWhitespace s scanner.EOF) with false. cbv iota.
  rewrite if_set_Pos.
  change (scanner.isIdentRune T scanner.EOF false) with false.
  change (scanner.isDecimal scanner.EOF) with false.
  cbv iota. change (scanner.EOF =? scanner.EOF) with true. cbv iota.
  eexists. reflexivity.
Qed.

Lemma plain_byte_facts (b : Z) :
  plain_byte b = true ->
  0 <= b < 128 /\ (b =? 34) = false /\ (b =? 10) = false
  /\ (b <? 0) = false /\ (b =? 92) = false.
Proof.
  unfold plain_byte, utf8.between. intros H.
  apply andb_true_iff in H. destruct H as [H H92].
  apply andb_true_iff in H. destruct H as [H H34].
  apply andb_true_iff in H. destruct H as [Hlo Hhi].
  apply Z.leb_le in Hlo, Hhi. apply negb_true_iff in H34, H92.
  rewrite H34, H92.
  destruct (Z.eqb_spec b 10); [lia |]. destruct (Z.ltb_spec b 0); [lia |].
  repeat split; auto; lia.
Qed.

Lemma plain_ascii (u : list Z) :
  forallb plain_byte u = true -> Forall (fun b => 0 <= b < 128) u.
Proof.
  intros H. apply Forall_forall. intros b Hb.
  rewrite forallb_forall in H. specialize (H b).
  rewrite <- list_elem_of_In in H. apply plain_byte_facts in H; tauto.
Qed.

(** The loop of [scanString] over a string without escapes: it reads to
    the closing quote. *)
Lemma scanStringLoop_bytes (u : list Z) :
  forall (k : nat) (s : scanner.Scanner) (c cnt : Z) (rest : list Z),
    c :: scanner.src (scanner.rd s) = u ++ 34 :: rest ->
    forallb plain_byte u = true ->
    (length u < k)%nat ->
    scanner.lastCharLen (scanner.rd s) = 1 ->
    exists r' cnt',
      scanner.scanStringLoop k s 34 c cnt = (cnt', scanner.set_rd s r')
      /\ scanner.src r' = rest
      /\ scanner.srcPos r'
         = scanner.srcPos (scanner.rd s) + Z.of_nat (length u)
      /\ scanner.lastCharLen r' = 1.
Proof.
  induction u as [| b u IH]; intros k s c cnt rest Hsrc Hu Hk Hlast.
  - injection Hsrc as -> Hsrc. destruct k as [| k]; [cbn in Hk; lia |].
    cbn [scanner.scanStringLoop]. change (34 =? 34) with true. cbv iota.
    exists (scanner.rd s), cnt. rewrite set_rd_rd. cbn [length].
    repeat split; auto. lia.
  - injection Hsrc as -> Hsrc. destruct k as [| k]; [cbn in Hk; lia |].
    cbn [forallb] in Hu. apply andb_true_iff in Hu. destruct Hu as [Hb Hu].
    destruct (plain_byte_facts b Hb) as (_ & Hq & Hnl & Hneg & Hbs).
    cbn [scanner.scanStringLoop]. rewrite Hq, Hnl, Hneg, Hbs.
    cbn [orb]. cbv iota.
    destruct (head_of_rest u rest 34 (plain_ascii u Hu) ltac:(lia))
      as (c1 & rest1 & Heq & Hc1).
    rewrite Heq in Hsrc.
    destruct (next_byte s c1 rest1 Hsrc Hc1) as (r1 & E1 & Hr1 & Hp1 & Hl1).
    rewrite E1.
    destruct (IH k (scanner.set_rd s r1) c1 (cnt + 1) rest)
      as (r' & cnt' & E & Hr & Hp & Hl).
    + cbn [scanner.rd scanner.set_rd]. rewrite Hr1. symmetry. exact Heq.
    + exact Hu.
    + cbn [length] in Hk. lia.
    + exact Hl1.
    + exists r', cnt'. rewrite E. cbn [scanner.rd scanner.set_rd] in *.
      repeat split; auto. rewrite Hp, Hp1. cbn [length]. lia.
Qed.

(** A string in double quotes without escapes: read to the byte behind
    the closing quote. *)
Lemma scanToken_string (s : scanner.Scanner) (c t : Z)
    (ws content rest : list Z) :
  scanner.Mode s = scanner.GoTokens ->
  scanner.Whitespace s = parse_Whitespace ->
  scanner.lastCharLen (scanner.rd s) = 1 ->
  c :: scanner.src (scanner.rd s)
  = ws ++ (34 :: content ++ [34]) ++ t :: rest ->
  Forall (fun b => b = 32) ws ->
  forallb plain_byte content = true ->
  0 <= t < 128 ->
  exists r' pos',
    scanner.scanToken T s c
    = scanner.Token scanner.String t
        (scanner.mkScanner (scanner.srcBuf s) r'
           (scanner.srcPos (scanner.rd s) + Z.of_nat (length ws) - 1)
           (scanner.tokEnd s) (scanner.ch s) (scanner.Mode s)
           (scanner.Whitespace s) pos')
    /\ scanner.src r' = rest
    /\ scanner.srcPos r'
       = scanner.srcPos (scanner.rd s) + Z.of_nat (length ws)
         + Z.of_nat (length (34 :: content ++ [34]))
    /\ scanner.lastCharLen r' = 1.
Proof.
  intros HM HW Hlast Hsrc Hws Hc Ht.
  cbn [app] in Hsrc. rewrite <- app_assoc in Hsrc. cbn [app] in Hsrc.
  destruct (skip_spaces s c 34 ws (content ++ 34 :: t :: rest))
    as (r1 & E1 & Hr1 & Hp1 & Hl1); auto.
  unfold scanner.scanToken. rewrite E1, if_set_Pos.
  cbn [scanner.rd scanner.set_rd scanner.set_tokPos].
  change (scanner.isIdentRune T 34 false) with false.
  change (scanner.isDecimal 34) with false.
  change (34 =? scanner.EOF) with false. change (34 =? 34) with true.
  cbv iota.
  match goal with
  | |- context [scanner.has ?s2 scanner.ScanStrings] =>
    replace (scanner.has s2 scanner.ScanStrings) with true
      by (unfold scanner.has; cbn [scanner.Mode scanner.set_Pos
            scanner.set_tokPos scanner.set_rd]; rewrite HM; reflexivity);
    set (s3 := s2)
  end.
  assert (Hsrc3 : scanner.src (scanner.rd s3) = content ++ 34 :: t :: rest)
    by exact Hr1.
  unfold scanner.scanString.
  destruct (head_of_rest content (t :: rest) 34 (plain_ascii content Hc)
              ltac:(lia))
    as (c1 & rest1 & Heq & Hc1).
  rewrite Heq in Hsrc3.
  destruct (next_byte s3 c1 rest1 Hsrc3 Hc1) as (r2 & E2 & Hr2 & Hp2 & Hl2).
  rewrite E2.
  destruct (scanStringLoop_bytes content
              (scanner.fuel (scanner.set_rd s3 r2)) (scanner.set_rd s3 r2)
              c1 0 (t :: rest))
    as (r3 & cnt & E3 & Hr3 & Hp3 & Hl3).
  { cbn [scanner.rd scanner.set_rd]. rewrite Hr2. symmetry. exact Heq. }
  { exact Hc. }
  { unfold scanner.fuel. cbn [scanner.rd scanner.set_rd]. rewrite Hr2.
    assert (Hlen : length (c1 :: rest1)
                   = length (content ++ 34 :: t :: rest))
      by (rewrite Heq; reflexivity).
    rewrite length_app in Hlen. cbn [length] in Hlen. lia. }
  { exact Hl2. }
  rewrite E3. cbn [snd].
  destruct (next_byte (scanner.set_rd (scanner.set_rd s3 r2) r3) t rest
              Hr3 Ht)
    as (r' & E & Hr & Hp & Hl).
  rewrite E. eexists r', _.
  split; [| split; [exact Hr | split; [| exact Hl]]].
  - subst s3.
    cbn [scanner.set_rd scanner.set_Pos scanner.set_tokPos scanner.srcBuf
         scanner.tokPos scanner.tokEnd scanner.ch scanner.Mode
         scanner.Whitespace scanner.Pos scanner.rd].
    rewrite Hp1, Hl1. reflexivity.
  - cbn [scanner.rd scanner.set_rd] in *. rewrite Hp, Hp3, Hp2.
    subst s3. cbn [scanner.rd scanner.set_rd scanner.set_Pos
                   scanner.set_tokPos length].
    rewrite Hp1, length_app. cbn [length]. lia.
Qed.

End ScanTokens.

Section ScanAhead.
Variable T : unicode.Tables.

(** The text of a token is the part of the input between its start and
    its end. *)
Lemma TokenText_slice (s : scanner.Scanner) (a w b : list Z) :
  scanner.srcBuf s = a ++ w ++ b ->
  scanner.tokPos s = Z.of_nat (length a) ->
  scanner.tokEnd s = Z.of_nat (length a) + Z.of_nat (length w) ->
  scanner.TokenText s = Go.of_bytes w.
Proof.
  intros Hbuf Hpos Hend. unfold scanner.TokenText. rewrite Hpos, Hend, Hbuf.
  destruct (Z.ltb_spec (Z.of_nat (length a)) 0); [lia |].
  destruct (Z.ltb_spec (Z.of_nat (length a) + Z.of_nat (length w))
              (Z.of_nat (length a))); [lia |].
  replace (Z.of_nat (length a) + Z.of_nat (length w) - Z.of_nat (length a))
    with (Z.of_nat (length w)) by lia.
  rewrite !Nat2Z.id.
  change (skipn (length a) (a ++ w ++ b)) with (drop (length a) (a ++ w ++ b)).
  rewrite drop_app_length.
  change (firstn (length w) (w ++ b)) with (take (length w) (w ++ b)).
  rewrite take_app_length. reflexivity.
Qed.

(** [Scan], from the token that [scanToken] finds to the state between
    this token and the next. *)
Lemma Scan_finish (s : scanner.Scanner) (done ws w post : list Z)
    (tok c' : Z) (r' : scanner.Reader) (pos' : scanner.Position) :
  scanner.srcBuf s = done ++ ws ++ w ++ post ->
  scanner.Mode s = scanner.GoTokens ->
  scanner.Whitespace s = parse_Whitespace ->
  scanner.ch s <> -2 ->
  scanner.scanToken T (scanner.set_Line (scanner.set_tokPos s (-1)) 0)
    (scanner.ch s)
  = scanner.Token tok c'
      (scanner.mkScanner (scanner.srcBuf s) r'
         (Z.of_nat (length done) + Z.of_nat (length ws))
         (scanner.tokEnd s) (scanner.ch s) (scanner.Mode s)
         (scanner.Whitespace s) pos') ->
  match post with
  | [] =>
    c' = scanner.EOF /\ scanner.src r' = []
    /\ scanner.srcPos r'
       = Z.of_nat (length done) + Z.of_nat (length ws) + Z.of_nat (length w)
    /\ scanner.lastCharLen r' = 0
  | t :: rest =>
    c' = t /\ scanner.src r' = rest
    /\ scanner.srcPos r'
       = Z.of_nat (length done) + Z.of_nat (length ws) + Z.of_nat (length w)
         + 1
    /\ scanner.lastCharLen r' = 1
  end ->
  exists s',
    scanner.Scan T s = (tok, s')
    /\ scanner.TokenText s' = Go.of_bytes w
    /\ ahead s' (done ++ ws ++ w) post.
Proof.
  intros Hbuf HM HW Hch Htok Hpost.
  unfold scanner.Scan, scanner.Peek.
  destruct (Z.eqb_spec (scanner.ch s) (-2)) as [| _]; [contradiction |].
  unfold scanner.fuel. cbn [scanner.scanLoop]. rewrite Htok.
  eexists. split; [reflexivity |].
  assert (Hend : scanner.srcPos r' - scanner.lastCharLen r'
                 = Z.of_nat (length done) + Z.of_nat (length ws)
                   + Z.of_nat (length w)).
  { destruct post; destruct Hpost as (_ & _ & -> & ->); lia. }
  split.
  - apply (TokenText_slice _ (done ++ ws) w post).
    + cbn. rewrite Hbuf, <- app_assoc. reflexivity.
    + cbn. rewrite length_app. lia.
    + cbn. rewrite Hend, length_app. lia.
  - unfold ahead. cbn [scanner.srcBuf scanner.Mode scanner.Whitespace
                       scanner.set_ch scanner.set_tokEnd scanner.ch
                       scanner.rd].
    split; [rewrite Hbuf, <- !app_assoc; reflexivity |].
    split; [exact HM |]. split; [exact HW |].
    rewrite !length_app.
    destruct post; destruct Hpost as (-> & -> & -> & ->);
      repeat split; lia.
Qed.

(** Between two tokens, with more input ahead: the look-ahead character
    and the reader. *)
Lemma ahead_more (s : scanner.Scanner) (done ws more : list Z) (x : Z) :
  ahead s done (ws ++ x :: more) ->
  Forall (fun b => b = 32) ws -> 0 <= x ->
  scanner.srcBuf s = done ++ ws ++ x :: more
  /\ scanner.Mode s = scanner.GoTokens
  /\ scanner.Whitespace s = parse_Whitespace
  /\ scanner.ch s <> -2
  /\ scanner.ch s :: scanner.src (scanner.rd s) = ws ++ x :: more
  /\ scanner.srcPos (scanner.rd s) = Z.of_nat (length done) + 1
  /\ scanner.lastCharLen (scanner.rd s) = 1.
Proof.
  intros (Hbuf & HM & HW & H) Hws Hx.
  split; [exact Hbuf |]. split; [exact HM |]. split; [exact HW |].
  destruct ws as [| b ws']; cbn [app] in *; destruct H as (Hc & Hs & Hp & Hl).
  - rewrite Hc, Hs. repeat split; auto. lia.
  - rewrite Hc, Hs. repeat split; auto. apply Forall_cons in Hws.
    destruct Hws as [-> _]. lia.
Qed.

Lemma Scan_name (s : scanner.Scanner) (done ws w rest : list Z) (t : Z) :
  ahead s done (ws ++ w ++ t :: rest) ->
  Forall (fun b => b = 32) ws ->
  name_bytes w = true ->
  t = 32 \/ t = 10 \/ t = 61 \/ t = 44 \/ t = 45 ->
  exists s',
    scanner.Scan T s = (scanner.Ident, s')
    /\ scanner.TokenText s' = Go.of_bytes w
    /\ ahead s' (done ++ ws ++ w) (t :: rest).
Proof.
  intros Ha Hws Hw Ht.
  destruct w as [| x w'] eqn:Ew; [discriminate |].
  assert (Hx : 0 <= x).
  { cbn in Hw. apply andb_true_iff in Hw. destruct Hw as [Hx _].
    apply letter_byte_ascii in Hx. lia. }
  rewrite <- Ew in *.
  assert (Ha' : ahead s done (ws ++ x :: w' ++ t :: rest))
    by (rewrite Ew in Ha; exact Ha).
  destruct (ahead_more s done ws (w' ++ t :: rest) x Ha' Hws Hx)
    as (Hbuf & HM & HW & Hch & Hsrc & Hp & Hl).
  destruct (scanToken_name T
              (scanner.set_Line (scanner.set_tokPos s (-1)) 0)
              (scanner.ch s) t ws w rest)
    as (r' & pos' & E & Hr & Hp' & Hl'); auto.
  { rewrite Ew. exact Hsrc. }
  cbn [scanner.set_Line scanner.set_Pos scanner.set_tokPos scanner.rd
       scanner.srcBuf scanner.tokEnd scanner.ch scanner.Mode
       scanner.Whitespace] in E, Hp'.
  rewrite Hp in E, Hp'.
  apply (Scan_finish s done ws w (t :: rest) scanner.Ident t r' pos');
    auto.
  - rewrite Ew. exact Hbuf.
  - rewrite E. do 3 f_equal. lia.
  - repeat split; auto. lia.
Qed.

Lemma Scan_number (s : scanner.Scanner) (done ws w rest : list Z) (t : Z) :
  ahead s done (ws ++ w ++ t :: rest) ->
  Forall (fun b => b = 32) ws ->
  number_bytes w = true ->
  t = 32 \/ t = 10 \/ t = 61 \/ t = 44 \/ t = 45 ->
  exists s',
    scanner.Scan T s = (scanner.Int, s')
    /\ scanner.TokenText s' = Go.of_bytes w
    /\ ahead s' (done ++ ws ++ w) (t :: rest).
Proof.
  intros Ha Hws Hw Ht.
  destruct w as [| x w'] eqn:Ew; [discriminate |].
  assert (Hx : 0 <= x).
  { cbn in Hw. apply andb_true_iff in Hw. destruct Hw as [Hx _].
    apply digit_byte_ascii in Hx. lia. }
  rewrite <- Ew in *.
  assert (Ha' : ahead s done (ws ++ x :: w' ++ t :: rest))
    by (rewrite Ew in Ha; exact Ha).
  destruct (ahead_more s done ws (w' ++ t :: rest) x Ha' Hws Hx)
    as (Hbuf & HM & HW & Hch & Hsrc & Hp & Hl).
  destruct (scanToken_number T
              (scanner.set_Line (scanner.set_tokPos s (-1)) 0)
              (scanner.ch s) t ws w rest)
    as (r' & pos' & E & Hr & Hp' & Hl'); auto.
  { rewrite Ew. exact Hsrc. }
  cbn [scanner.set_Line scanner.set_Pos scanner.set_tokPos scanner.rd
       scanner.srcBuf scanner.tokEnd scanner.ch scanner.Mode
       scanner.Whitespace] in E, Hp'.
  rewrite Hp in E, Hp'.
  apply (Scan_finish s done ws w (t :: rest) scanner.Int t r' pos');
    auto.
  - rewrite Ew. exact Hbuf.
  - rewrite E. do 3 f_equal. lia.
  - repeat split; auto. lia.
Qed.

Lemma Scan_char (s : scanner.Scanner) (done ws post : list Z) (x : Z) :
  ahead s done (ws ++ x :: post) ->
  Forall (fun b => b = 32) ws ->
  x = 61 \/ x = 10 \/ x = 44 \/ x = 45 ->
  match post with [] => True | t :: _ => 0 <= t < 128 end ->
  exists s',
    scanner.Scan T s = (x, s')
    /\ scanner.TokenText s' = Go.of_bytes [x]
    /\ ahead s' (done ++ ws ++ [x]) post.
Proof.
  intros Ha Hws Hx Hpost.
  assert (Hx0 : 0 <= x) by lia.
  destruct (ahead_more s done ws post x Ha Hws Hx0)
    as (Hbuf & HM & HW & Hch & Hsrc & Hp & Hl).
  destruct (scanToken_char T
              (scanner.set_Line (scanner.set_tokPos s (-1)) 0)
              (scanner.ch s) x ws post)
    as (c' & r' & pos' & E & Hr); auto.
  cbn [scanner.set_Line scanner.set_Pos scanner.set_tokPos scanner.rd
       scanner.srcBuf scanner.tokEnd scanner.ch scanner.Mode
       scanner.Whitespace] in E, Hr.
  rewrite Hp in E, Hr.
  apply (Scan_finish s done ws [x] post x c' r' pos'); auto.
  - rewrite E. do 3 f_equal. lia.
  - cbn [length]. destruct post; destruct Hr as (-> & -> & -> & ->);
      repeat split; lia.
Qed.

Lemma Scan_EOF (s : scanner.Scanner) (done : list Z) :
  ahead s done [] -> exists s', scanner.Scan T s = (scanner.EOF, s').
Proof.
  intros (_ & _ & _ & Hc & Hs & _).
  unfold scanner.Scan, scanner.Peek. rewrite Hc.
  change (scanner.EOF =? -2) with false. cbv iota.
  unfold scanner.fuel. cbn [scanner.scanLoop].
  destruct (scanToken_EOF T
              (scanner.set_Line (scanner.set_tokPos s (-1)) 0))
    as (s' & E); [exact Hs |].
  rewrite E. eexists. reflexivity.
Qed.

Lemma Scan_string (s : scanner.Scanner) (done ws content rest : list Z)
    (t : Z) :
  ahead s done (ws ++ (34 :: content ++ [34]) ++ t :: rest) ->
  Forall (fun b => b = 32) ws ->
  forallb plain_byte content = true ->
  0 <= t < 128 ->
  exists s',
    scanner.Scan T s = (scanner.String, s')
    /\ scanner.TokenText s' = Go.of_bytes (34 :: content ++ [34])
    /\ ahead s' (done ++ ws ++ 34 :: content ++ [34]) (t :: rest).
Proof.
  intros Ha Hws Hc Ht.
  assert (Ha' : ahead s done (ws ++ 34 :: (content ++ [34]) ++ t :: rest))
    by exact Ha.
  destruct (ahead_more s done ws ((content ++ [34]) ++ t :: rest) 34 Ha' Hws
              ltac:(lia))
    as (Hbuf & HM & HW & Hch & Hsrc & Hp & Hl).
  destruct (scanToken_string T
              (scanner.set_Line (scanner.set_tokPos s (-1)) 0)
              (scanner.ch s) t ws content rest)
    as (r' & pos' & E & Hr & Hp' & Hl'); auto.
  cbn [scanner.set_Line scanner.set_Pos scanner.set_tokPos scanner.rd
       scanner.srcBuf scanner.tokEnd scanner.ch scanner.Mode
       scanner.Whitespace] in E, Hp'.
  rewrite Hp in E, Hp'.
  apply (Scan_finish s done ws (34 :: content ++ [34]) (t :: rest)
           scanner.String t r' pos'); auto.
  - rewrite E. do 3 f_equal. lia.
  - repeat split; auto. lia.
Qed.

End ScanAhead.

(** ** Parsing well-formed text *)

Section ParseText.
Variable T : unicode.Tables.

Lemma next_of_Scan (p : tagsParser.t) (tok : Z) (s' : scanner.Scanner) :
  scanner.Scan T (tagsParser.scanner p) = (tok, s') ->
  tagsParser.next T p
  = tagsParser.mk (tagsParser.errors p) s' (scanner.Pos s') tok
      (scanner.TokenText s').
Proof. intros E. unfold tagsParser.next. rewrite E. reflexivity. Qed.

Lemma expect_same (p : tagsParser.t) (tok : Z) (msg : string) :
  tagsParser.tok p = tok ->
  tagsParser.expect T p tok msg = tagsParser.next T p.
Proof.
  intros H. unfold tagsParser.expect. rewrite H, Z.eqb_refl. reflexivity.
Qed.

(** What the text of a line starts with behind the name of the tag or
    the value of an attribute: a space or a newline. *)
Lemma attrs_then_newline (kvs : list (list Z * value)) (more : list Z) :
  exists t rest,
    concat (map attrText kvs) ++ 10 :: more = t :: rest
    /\ (t = 32 \/ t = 10).
Proof.
  destruct kvs as [| kv kvs']; cbn.
  - exists 10, more. auto.
  - eexists 32, _. split; [reflexivity | auto].
Qed.

(** The first byte of the text of lines that are well formed is a byte
    of ASCII. *)
Lemma linesText_head (ls : list line) :
  forallb well_formed ls = true ->
  match linesText ls with [] => True | t :: _ => 0 <= t < 128 end.
Proof.
  destruct ls as [| [name kvs] ls']; [intros _; exact I |].
  cbn [forallb]. intros H. apply andb_true_iff in H. destruct H as [H _].
  unfold well_formed in H. cbn [fst] in H.
  apply andb_true_iff in H. destruct H as [H _].
  destruct name as [| x w]; [discriminate |]. cbn in H.
  apply andb_true_iff in H. destruct H as [H _].
  cbn. apply letter_byte_ascii, H.
Qed.

Lemma linesText_cons (name : list Z) (kvs : list (list Z * value))
    (ls : list line) :
  linesText ((name, kvs) :: ls)
  = name ++ concat (map attrText kvs) ++ 10 :: linesText ls.
Proof.
  unfold linesText at 1. cbn [map concat]. unfold lineText. cbn [fst snd].
  rewrite <- !app_assoc. reflexivity.
Qed.

(** The token after the end of a line: the name of the tag of the next
    line, or [EOF]. *)
Lemma next_before_lines (p : tagsParser.t) (done : list Z) (ls : list line) :
  forallb well_formed ls = true ->
  ahead (tagsParser.scanner p) done (linesText ls) ->
  exists done',
    before_lines (tagsParser.next T p) done' ls
    /\ tagsParser.errors (tagsParser.next T p) = tagsParser.errors p.
Proof.
  intros Hwf Ha. destruct ls as [| [name kvs] ls'].
  - destruct (Scan_EOF T _ done Ha) as (s' & E).
    rewrite (next_of_Scan p _ s' E). exists done. split; reflexivity.
  - cbn [forallb] in Hwf. apply andb_true_iff in Hwf.
    destruct Hwf as [Hl _]. unfold well_formed in Hl. cbn [fst snd] in Hl.
    apply andb_true_iff in Hl. destruct Hl as [Hname _].
    rewrite linesText_cons in Ha.
    destruct (attrs_then_newline kvs (linesText ls')) as (t & rest & Et & Ht).
    rewrite Et in Ha.
    destruct (Scan_name T (tagsParser.scanner p) done [] name rest t)
      as (s' & E & Htxt & Ha'); auto.
    { destruct Ht as [-> | ->]; auto. }
    rewrite (next_of_Scan p _ s' E). exists (done ++ [] ++ name).
    split; [| reflexivity].
    cbn [before_lines tagsParser.tok tagsParser.lit tagsParser.scanner
         fst snd].
    rewrite Et. auto.
Qed.

(** The token behind the value of an attribute: the name of the next
    attribute, or the newline of the line. *)
Lemma next_before_attrs (p : tagsParser.t) (done : list Z)
    (kvs : list (list Z * value)) (more : list Z) :
  forallb (fun kv : list Z * value =>
             name_bytes kv.1 && value_ok kv.2) kvs = true ->
  match more with [] => True | t :: _ => 0 <= t < 128 end ->
  ahead (tagsParser.scanner p) done
    (concat (map attrText kvs) ++ 10 :: more) ->
  exists done',
    before_attrs (tagsParser.next T p) done' kvs more
    /\ tagsParser.errors (tagsParser.next T p) = tagsParser.errors p.
Proof.
  intros Hwf Hmore Ha. destruct kvs as [| [k v] kvs'].
  - cbn [map concat app] in Ha.
    destruct (Scan_char T (tagsParser.scanner p) done [] more 10)
      as (s' & E & _ & Ha'); auto.
    rewrite (next_of_Scan p _ s' E). eexists. split; [| reflexivity].
    split; [reflexivity | exact Ha'].
  - cbn [forallb fst snd] in Hwf. apply andb_true_iff in Hwf.
    destruct Hwf as [Hkv _]. apply andb_true_iff in Hkv.
    destruct Hkv as [Hk _].
    cbn [map concat] in Ha. unfold attrText at 1 in Ha. cbn [fst snd] in Ha.
    rewrite <- !app_assoc in Ha.
    destruct (Scan_name T (tagsParser.scanner p) done [32] k
                (valueText v ++ concat (map attrText kvs') ++ 10 :: more) 61)
      as (s' & E & Htxt & Ha'); auto.
    rewrite (next_of_Scan p _ s' E). eexists. split; [| reflexivity].
    cbn [before_attrs tagsParser.tok tagsParser.lit tagsParser.scanner
         fst snd].
    split; [reflexivity |]. split; [exact Htxt | exact Ha'].
Qed.

Lemma bytes_of_bytes (l : list Z) :
  Forall (fun b => 0 <= b < 128) l -> Go.bytes (Go.of_bytes l) = l.
Proof.
  intros H. unfold Go.bytes, Go.of_bytes.
  rewrite list_ascii_of_string_of_list_ascii, map_map.
  induction H as [| b l Hb _ IH]; [reflexivity |].
  cbn [map]. rewrite IH. f_equal.
  unfold Go.byte, Go.of_byte. rewrite N_ascii_embedding by lia. lia.
Qed.

Lemma of_bytes_app (a b : list Z) :
  Go.of_bytes (a ++ b) = Go.of_bytes a +:+ Go.of_bytes b.
Proof.
  unfold Go.of_bytes. induction a as [| x a IH]; [reflexivity |].
  cbn [app map string_of_list_ascii]. rewrite IH. reflexivity.
Qed.

Lemma append_assoc (a b c : string) : (a +:+ b) +:+ c = a +:+ b +:+ c.
Proof.
  induction a as [| x a IH]; [reflexivity |].
  change (String x ((a +:+ b) +:+ c) = String x (a +:+ b +:+ c)).
  f_equal. exact IH.
Qed.

(** [Unquote] on a string in double quotes without escapes: what is
    between the quotes. *)
Lemma ValidString_ascii (p : list Z) :
  Forall (fun b => 0 <= b < 128) p -> utf8.ValidString p = true.
Proof.
  unfold utf8.ValidString. generalize 0 at 2.
  intros i H. revert i. induction H as [| b p Hb _ IH]; intros i;
    [reflexivity |].
  cbn [utf8.runes_from]. rewrite (DecodeRune_ascii b p Hb).
  cbn [forallb fst snd Nat.pred]. rewrite IH.
  unfold utf8.RuneError. destruct (Z.eqb_spec b 65533); [lia | reflexivity].
Qed.

Lemma not_contains (u : list Z) (c : Z) :
  Forall (fun b => (b =? c) = false) u -> strconv.contains u c = false.
Proof.
  unfold strconv.contains. induction 1 as [| b u Hb _ IH]; [reflexivity |].
  cbn [existsb]. rewrite Z.eqb_sym, Hb, IH. reflexivity.
Qed.

Lemma Unquote_plain (content : list Z) :
  forallb plain_byte content = true ->
  strconv.Unquote (Go.of_bytes (34 :: content ++ [34]))
  = Some (Go.of_bytes content).
Proof.
  intros H. pose proof (plain_ascii content H) as Hascii.
  assert (Hfacts : Forall (fun b => (b =? 34) = false /\ (b =? 10) = false
                                    /\ (b =? 92) = false) content).
  { apply Forall_forall. intros b Hb. rewrite forallb_forall in H.
    specialize (H b). rewrite <- list_elem_of_In in H.
    apply plain_byte_facts in H; tauto. }
  unfold strconv.Unquote. rewrite bytes_of_bytes.
  2:{ constructor; [lia |]. apply Forall_app. split; [exact Hascii |].
      repeat constructor; lia. }
  rewrite rev_app_distr. cbn [rev app]. rewrite rev_involutive.
  change (negb (34 =? 34)) with false. cbv iota.
  change (34 =? strconv.backquote) with false. cbv iota.
  change (negb (34 =? strconv.dquote) && negb (34 =? strconv.squote))
    with false. cbv iota.
  rewrite (not_contains content 10), (not_contains content strconv.backslash),
    (not_contains content 34).
  - change (34 =? strconv.dquote) with true. cbv iota.
    rewrite (ValidString_ascii content Hascii). reflexivity.
  - eapply Forall_impl; [exact Hfacts |]. cbn. tauto.
  - eapply Forall_impl; [exact Hfacts |]. cbn. tauto.
  - eapply Forall_impl; [exact Hfacts |]. cbn. tauto.
Qed.

(** The bytes of the tokens of a list of numbers. *)
Lemma tokenText_ascii (t : intToken) (ts : list intToken) :
  int_tokens_ok (t :: ts) = true ->
  Forall (fun b => 0 <= b < 128) (tokenText t)
  /\ tokenText t <> [] /\ int_tokens_ok ts = true.
Proof.
  destruct t as [d | |]; cbn [int_tokens_ok tokenText]; intros H.
  - apply andb_true_iff in H. destruct H as [H Hts].
    apply andb_true_iff in H. destruct H as [Hd _].
    destruct d as [| x d]; [discriminate |].
    split; [apply digits_ascii, Hd |]. split; [discriminate | exact Hts].
  - split; [repeat constructor; lia |]. split; [discriminate | exact H].
  - split; [repeat constructor; lia |]. split; [discriminate | exact H].
Qed.

(** What follows a token of a list of numbers: a byte of ASCII, and one
    that ends a number if the token is a number. *)
Lemma tokens_then_rest (ts : list intToken) (t0 : Z) (rest0 : list Z) :
  int_tokens_ok ts = true -> t0 = 32 \/ t0 = 10 ->
  exists t rest,
    concat (map tokenText ts) ++ t0 :: rest0 = t :: rest
    /\ 0 <= t < 128
    /\ (match ts with Num _ :: _ => False | _ => True end ->
        t = 32 \/ t = 10 \/ t = 61 \/ t = 44 \/ t = 45).
Proof.
  intros Hok Ht0. destruct ts as [| t1 ts'].
  - exists t0, rest0. cbn. split; [reflexivity |].
    split; [lia |]. intros _. destruct Ht0 as [-> | ->]; auto.
  - destruct (tokenText_ascii t1 ts' Hok) as (Ha & Hne & _).
    cbn [map concat]. rewrite <- app_assoc.
    destruct (tokenText t1) as [| x w] eqn:E; [contradiction |].
    exists x, (w ++ concat (map tokenText ts') ++ t0 :: rest0).
    split; [reflexivity |]. apply Forall_cons in Ha.
    split; [tauto |].
    destruct t1 as [d | |]; [contradiction | |]; intros _;
      cbn in E; injection E as <- _; auto.
Qed.

(** The next token inside a list of numbers. *)
Lemma next_int_token (p : tagsParser.t) (done : list Z) (t1 : intToken)
    (ts : list intToken) (t0 : Z) (rest0 : list Z) :
  int_tokens_ok (t1 :: ts) = true -> t0 = 32 \/ t0 = 10 ->
  ahead (tagsParser.scanner p) done
    (concat (map tokenText (t1 :: ts)) ++ t0 :: rest0) ->
  exists done',
    at_int_token (tagsParser.next T p) done' t1 ts (t0 :: rest0)
    /\ tagsParser.errors (tagsParser.next T p) = tagsParser.errors p.
Proof.
  intros Hok Ht0 Ha.
  destruct (tokenText_ascii t1 ts Hok) as (_ & _ & Hts).
  destruct (tokens_then_rest ts t0 rest0 Hts Ht0)
    as (t & rest & Et & Hta & Hsep).
  cbn [map concat] in Ha. rewrite <- app_assoc, Et in Ha.
  destruct t1 as [d | |]; cbn [tokenText] in Ha.
  - cbn [int_tokens_ok] in Hok. apply andb_true_iff in Hok.
    destruct Hok as [Hok _]. apply andb_true_iff in Hok.
    destruct Hok as [Hd Hadj].
    destruct (Scan_number T (tagsParser.scanner p) done [] d rest t)
      as (s' & E & Htxt & Ha'); auto.
    { apply Hsep. destruct ts as [| [] ?]; try exact I. discriminate. }
    rewrite (next_of_Scan p _ s' E). eexists. split; [| reflexivity].
    unfold at_int_token.
    cbn [tagsParser.tok tagsParser.lit tagsParser.scanner tokenKind
         tokenText].
    rewrite Et. split; [reflexivity |]. split; [exact Htxt | exact Ha'].
  - destruct (Scan_char T (tagsParser.scanner p) done [] (t :: rest) 45)
      as (s' & E & Htxt & Ha'); auto.
    rewrite (next_of_Scan p _ s' E). eexists. split; [| reflexivity].
    unfold at_int_token.
    cbn [tagsParser.tok tagsParser.lit tagsParser.scanner tokenKind
         tokenText].
    rewrite Et. split; [reflexivity |]. split; [exact Htxt | exact Ha'].
  - destruct (Scan_char T (tagsParser.scanner p) done [] (t :: rest) 44)
      as (s' & E & Htxt & Ha'); auto.
    rewrite (next_of_Scan p _ s' E). eexists. split; [| reflexivity].
    unfold at_int_token.
    cbn [tagsParser.tok tagsParser.lit tagsParser.scanner tokenKind
         tokenText].
    rewrite Et. split; [reflexivity |]. split; [exact Htxt | exact Ha'].
Qed.

(** [parseIntList] on a list of numbers: the text of its tokens, up to
    the token behind the list. *)
Lemma parseIntList_wf (ts : list intToken) :
  forall (t : intToken) (n : nat) (p : tagsParser.t) (sb : string)
         (done : list Z) (kvs : list (list Z * value)) (more : list Z),
    int_tokens_ok (t :: ts) = true ->
    forallb (fun kv : list Z * value =>
               name_bytes kv.1 && value_ok kv.2) kvs = true ->
    match more with [] => True | t :: _ => 0 <= t < 128 end ->
    at_int_token p done t ts (concat (map attrText kvs) ++ 10 :: more) ->
    (tagsParser.measure p < n)%nat ->
    exists p' done',
      tagsParser.parseIntList T n p sb
      = Some (sb +:+ Go.of_bytes (concat (map tokenText (t :: ts))), p')
      /\ before_attrs p' done' kvs more
      /\ tagsParser.errors p' = tagsParser.errors p
      /\ (tagsParser.measure p' <= tagsParser.measure p)%nat.
Proof.
  induction ts as [| t1 ts IH];
    intros t n p sb done kvs more Hok Hwf Hmore (Htok & Hlit & Ha) Hn.
  - cbn [map concat app] in Ha.
    destruct (next_before_attrs p done kvs more Hwf Hmore Ha)
      as (done' & Hb & He).
    assert (Hne : tagsParser.tok p <> scanner.EOF)
      by (rewrite Htok; destruct t; discriminate).
    destruct (measure_next T p) as [_ Hm]. specialize (Hm Hne).
    set (p' := tagsParser.next T p) in *.
    assert (Hstop : (tagsParser.tok p' =? scanner.Int)
                    || (tagsParser.tok p' =? 44) || (tagsParser.tok p' =? 45)
                    = false).
    { destruct kvs; [destruct Hb as [-> _] | destruct Hb as (-> & _)];
        reflexivity. }
    exists p', done'. split; [| split; [exact Hb | split; [exact He | lia]]].
    destruct n as [| n]; [lia |]. cbn [tagsParser.parseIntList].
    replace ((tagsParser.tok p =? scanner.Int) || (tagsParser.tok p =? 44)
             || (tagsParser.tok p =? 45)) with true
      by (rewrite Htok; destruct t; reflexivity).
    fold p'. destruct n; cbn [tagsParser.parseIntList]; rewrite Hstop, Hlit;
      cbn [map concat]; rewrite app_nil_r; reflexivity.
  - destruct (tokenText_ascii t (t1 :: ts) Hok) as (_ & _ & Hok1).
    destruct (attrs_then_newline kvs more) as (t0 & rest0 & Et & Ht0).
    rewrite Et in Ha.
    destruct (next_int_token p done t1 ts t0 rest0 Hok1 Ht0 Ha)
      as (done1 & Hat & He).
    rewrite <- Et in Hat.
    assert (Hne : tagsParser.tok p <> scanner.EOF)
      by (rewrite Htok; destruct t; discriminate).
    destruct (measure_next T p) as [_ Hm]. specialize (Hm Hne).
    set (p1 := tagsParser.next T p) in *.
    destruct n as [| n]; [lia |].
    destruct (IH t1 n p1 (sb +:+ tagsParser.lit p) done1 kvs more Hok1 Hwf
                Hmore Hat)
      as (p' & done' & E & Hb & He' & Hm'); [lia |].
    exists p', done'.
    split; [| split; [exact Hb | split; [rewrite He'; exact He | lia]]].
    cbn [tagsParser.parseIntList].
    replace ((tagsParser.tok p =? scanner.Int) || (tagsParser.tok p =? 44)
             || (tagsParser.tok p =? 45)) with true
      by (rewrite Htok; destruct t; reflexivity).
    fold p1. rewrite E, Hlit. f_equal. f_equal.
    cbn [map concat]. rewrite (of_bytes_app (tokenText t)), append_assoc.
    reflexivity.
Qed.

Lemma value_head (v : value) (rest : list Z) :
  value_ok v = true ->
  match valueText v ++ rest with [] => True | t :: _ => 0 <= t < 128 end.
Proof.
  destruct v as [c | ts]; cbn [value_ok valueText]; intros H; [cbn; lia |].
  destruct ts as [| t1 ts]; [discriminate |].
  assert (Hok : int_tokens_ok (t1 :: ts) = true)
    by (destruct t1; [exact H | exact H | discriminate]).
  destruct (tokenText_ascii t1 ts Hok) as (Ha & Hne & _).
  cbn [map concat]. destruct (tokenText t1) as [| x w]; [contradiction |].
  apply Forall_cons in Ha. cbn. tauto.
Qed.

Lemma Peek_ahead (s : scanner.Scanner) (done rest : list Z) (t : Z) :
  ahead s done (t :: rest) -> 0 <= t -> scanner.Peek s = (t, s).
Proof.
  intros (_ & _ & _ & Hc & _) Ht. unfold scanner.Peek. rewrite Hc.
  destruct (Z.eqb_spec t (-2)); [lia | reflexivity].
Qed.

Lemma set_scanner_same (p : tagsParser.t) :
  tagsParser.set_scanner p (tagsParser.scanner p) = p.
Proof. destruct p. reflexivity. Qed.

(** The inner loop of [parse] on the attributes of a line that is well
    formed: it collects them all, in order, records no error, and ends
    at the newline of the line. *)
Lemma parseAttrs_wf (kvs : list (list Z * value)) :
  forall (n : nat) (p : tagsParser.t) (attrs : gmap string string)
         (done more : list Z),
    forallb (fun kv : list Z * value =>
               name_bytes kv.1 && value_ok kv.2) kvs = true ->
    match more with [] => True | t :: _ => 0 <= t < 128 end ->
    before_attrs p done kvs more ->
    (tagsParser.measure p < n)%nat ->
    exists p' done',
      tagsParser.parseAttrs T n p attrs
      = Some (p', fold_left setAttr kvs attrs)
      /\ tagsParser.tok p' = 10
      /\ ahead (tagsParser.scanner p') done' more
      /\ tagsParser.errors p' = tagsParser.errors p
      /\ (tagsParser.measure p' <= tagsParser.measure p)%nat.
Proof.
  induction kvs as [| [k v] kvs IH];
    intros n p attrs done more Hwf Hmore Hb Hn.
  - destruct Hb as [Htok Ha]. exists p, done.
    destruct n; cbn [tagsParser.parseAttrs]; rewrite Htok;
      change (negb (10 =? 10) && negb (10 =? scanner.EOF)) with false;
      cbv iota; cbn [fold_left]; auto.
  - destruct Hb as (Htok & Hlit & Ha). cbn [fst snd] in Hlit, Ha.
    cbn [forallb fst snd] in Hwf. apply andb_true_iff in Hwf.
    destruct Hwf as [Hkv Hwf]. apply andb_true_iff in Hkv.
    destruct Hkv as [Hk Hv].
    assert (Hne : tagsParser.tok p <> scanner.EOF)
      by (rewrite Htok; discriminate).
    (* the sign [=] *)
    destruct (Scan_char T (tagsParser.scanner p) done []
                (valueText v ++ concat (map attrText kvs) ++ 10 :: more) 61)
      as (s1 & E1 & _ & Ha1); auto.
    { apply value_head, Hv. }
    pose proof (next_of_Scan p _ s1 E1) as Hp1.
    destruct (measure_next T p) as [_ Hm1]. specialize (Hm1 Hne).
    set (p1 := tagsParser.next T p) in *.
    assert (Htok1 : tagsParser.tok p1 = 61) by (rewrite Hp1; reflexivity).
    assert (Ha1' : ahead (tagsParser.scanner p1) (done ++ [] ++ [61])
                     (valueText v ++ concat (map attrText kvs) ++ 10 :: more))
      by (rewrite Hp1; exact Ha1).
    assert (He1 : tagsParser.errors p1 = tagsParser.errors p)
      by (rewrite Hp1; reflexivity).
    assert (Hne1 : tagsParser.tok p1 <> scanner.EOF)
      by (rewrite Htok1; discriminate).
    destruct (measure_next T p1) as [_ Hm2]. specialize (Hm2 Hne1).
    destruct (attrs_then_newline kvs more) as (t & rest & Et & Ht).
    destruct n as [| n]; [lia |].
    cbn [tagsParser.parseAttrs]. rewrite Htok.
    change (negb (scanner.Ident =? 10) && negb (scanner.Ident =? scanner.EOF))
      with true.
    cbv iota.
    rewrite (expect_same p scanner.Ident _ Htok). fold p1.
    rewrite (expect_same p1 61 _ Htok1).
    destruct v as [c | ts].
    + (* a string *)
      cbn [value_ok] in Hv. cbn [valueText] in Ha1'. rewrite Et in Ha1'.
      destruct (Scan_string T (tagsParser.scanner p1) (done ++ [] ++ [61])
                  [] c rest t)
        as (s2 & E2 & Htxt2 & Ha2); auto; [lia |].
      pose proof (next_of_Scan p1 _ s2 E2) as Hp2.
      set (p2 := tagsParser.next T p1) in *.
      assert (Htok2 : tagsParser.tok p2 = scanner.String)
        by (rewrite Hp2; reflexivity).
      assert (Hlit2 : tagsParser.lit p2 = Go.of_bytes (34 :: c ++ [34]))
        by (rewrite Hp2; exact Htxt2).
      assert (Ha2' : ahead (tagsParser.scanner p2)
                       ((done ++ [] ++ [61]) ++ [] ++ 34 :: c ++ [34])
                       (concat (map attrText kvs) ++ 10 :: more))
        by (rewrite Hp2, Et; exact Ha2).
      assert (He2 : tagsParser.errors p2 = tagsParser.errors p1)
        by (rewrite Hp2; reflexivity).
      assert (Hne2 : tagsParser.tok p2 <> scanner.EOF)
        by (rewrite Htok2; discriminate).
      destruct (measure_next T p2) as [_ Hm3]. specialize (Hm3 Hne2).
      destruct (next_before_attrs p2 _ kvs more Hwf Hmore Ha2')
        as (done3 & Hb3 & He3).
      destruct (IH n (tagsParser.next T p2) (setAttr attrs (k, Str c))
                  done3 more Hwf Hmore Hb3)
        as (p' & done' & E & Htok' & Ha' & He' & Hm'); [lia |].
      exists p', done'.
      split; [| split; [exact Htok' | split; [exact Ha' | split]]].
      * rewrite Htok2. change (scanner.String =? scanner.String) with true.
        cbv iota. rewrite Hlit2, (Unquote_plain c Hv).
        rewrite Et in Ha2'.
        rewrite (Peek_ahead _ _ rest t Ha2') by lia.
        replace (t =? 34) with false
          by (destruct Ht as [-> | ->]; reflexivity).
        rewrite set_scanner_same, Hlit. exact E.
      * rewrite He', He3, He2, He1. reflexivity.
      * lia.
    + (* a list of numbers *)
      cbn [value_ok] in Hv. destruct ts as [| t1 ts]; [discriminate |].
      assert (Hok : int_tokens_ok (t1 :: ts) = true)
        by (destruct t1; [exact Hv | exact Hv | discriminate]).
      assert (Hfirst : tokenKind t1 = scanner.Int \/ tokenKind t1 = 45)
        by (destruct t1; [auto | auto | discriminate]).
      cbn [valueText] in Ha1'. rewrite Et in Ha1'.
      destruct (next_int_token p1 _ t1 ts t rest Hok Ht Ha1')
        as (done2 & Hat & He2).
      rewrite <- Et in Hat.
      set (p2 := tagsParser.next T p1) in *.
      destruct (parseIntList_wf ts t1 n p2 EmptyString done2 kvs more Hok Hwf
                  Hmore Hat)
        as (p3 & done3 & E3 & Hb3 & He3 & Hm3); [lia |].
      destruct (IH n p3 (setAttr attrs (k, Ints (t1 :: ts))) done3 more Hwf
                  Hmore Hb3)
        as (p' & done' & E & Htok' & Ha' & He' & Hm'); [lia |].
      exists p', done'.
      split; [| split; [exact Htok' | split; [exact Ha' | split]]].
      * destruct Hat as (Htok2 & _).
        replace (tagsParser.tok p2 =? scanner.String) with false
          by (rewrite Htok2; destruct Hfirst as [-> | ->]; reflexivity).
        cbv iota.
        replace ((tagsParser.tok p2 =? scanner.Int)
                 || (tagsParser.tok p2 =? 45)) with true
          by (rewrite Htok2; destruct Hfirst as [-> | ->]; reflexivity).
        cbv iota. rewrite E3, Hlit. exact E.
      * rewrite He', He3, He2, He1. reflexivity.
      * lia.
Qed.

(** The outer loop of [parse] on lines that are well formed: one tag
    per line, in order, and no error. *)
Lemma parseTags_wf (ls : list line) :
  forall (n : nat) (p : tagsParser.t) (tags : list tag.t) (done : list Z),
    forallb well_formed ls = true ->
    before_lines p done ls ->
    (tagsParser.measure p < n)%nat ->
    exists p',
      tagsParser.parseTags T n p tags = Some (tags ++ map tagOf ls, p')
      /\ tagsParser.errors p' = tagsParser.errors p.
Proof.
  induction ls as [| [name kvs] ls IH]; intros n p tags done Hwf Hb Hn.
  - cbn [before_lines] in Hb. exists p. split; [| reflexivity].
    destruct n; cbn [tagsParser.parseTags]; rewrite Hb;
      change (negb (scanner.EOF =? scanner.EOF)) with false; cbv iota;
      cbn [map]; rewrite app_nil_r; reflexivity.
  - destruct Hb as (Htok & Hlit & Ha). cbn [fst snd] in Hlit, Ha.
    cbn [forallb] in Hwf. apply andb_true_iff in Hwf.
    destruct Hwf as [Hl Hwf]. unfold well_formed in Hl. cbn [fst snd] in Hl.
    apply andb_true_iff in Hl. destruct Hl as [Hname Hkvs].
    pose proof (linesText_head ls Hwf) as Hmore.
    assert (Hne : tagsParser.tok p <> scanner.EOF)
      by (rewrite Htok; discriminate).
    (* the first token behind the name of the tag *)
    destruct (next_before_attrs p done kvs (linesText ls) Hkvs Hmore Ha)
      as (done1 & Hb1 & He1).
    destruct (measure_next T p) as [_ Hm1]. specialize (Hm1 Hne).
    set (p1 := tagsParser.next T p) in *.
    destruct n as [| n]; [lia |].
    (* the attributes *)
    destruct (parseAttrs_wf kvs n p1 ∅ done1 (linesText ls) Hkvs Hmore Hb1)
      as (p2 & done2 & E2 & Htok2 & Ha2 & He2 & Hm2); [lia |].
    (* the first token of the next line *)
    destruct (next_before_lines p2 done2 ls Hwf Ha2) as (done3 & Hb3 & He3).
    destruct (measure_next T p2) as [Hm3 _].
    destruct (IH n (tagsParser.next T p2)
                (tags ++ [tag.mk (tagsParser.lit p) (fold_left setAttr kvs ∅)])
                done3 Hwf Hb3)
      as (p' & E & He'); [lia |].
    exists p'. split.
    + cbn [tagsParser.parseTags]. rewrite Htok.
      change (negb (scanner.Ident =? scanner.EOF)) with true. cbv iota.
      rewrite (expect_same p scanner.Ident _ Htok). fold p1.
      rewrite E2, E, Hlit. cbn [map]. unfold tagOf at 2. cbn [fst snd].
      rewrite <- app_assoc. reflexivity.
    + rewrite He', He3, He2, He1. reflexivity.
Qed.

(** The text of lines that are well formed is made of bytes of ASCII. *)
Lemma linesText_ascii (ls : list line) :
  forallb well_formed ls = true ->
  Forall (fun b => 0 <= b < 128) (linesText ls).
Proof.
  assert (Hname : forall w, name_bytes w = true ->
                            Forall (fun b => 0 <= b < 128) w).
  { intros [| x w] H; [discriminate |]. cbn in H.
    apply andb_true_iff in H. destruct H as [Hx Hw].
    constructor; [apply letter_byte_ascii, Hx | apply name_rest_ascii, Hw]. }
  assert (Htoks : forall ts, int_tokens_ok ts = true ->
                    Forall (fun b => 0 <= b < 128)
                           (concat (map tokenText ts))).
  { induction ts as [| t ts IHt]; intros H; [constructor |].
    destruct (tokenText_ascii t ts H) as (Ha & _ & Hts).
    cbn [map concat]. apply Forall_app. split; [exact Ha | apply IHt, Hts]. }
  assert (Hval : forall v, value_ok v = true ->
                           Forall (fun b => 0 <= b < 128) (valueText v)).
  { intros [c | ts] H; cbn [value_ok valueText] in *.
    - constructor; [lia |]. apply Forall_app.
      split; [apply plain_ascii, H | repeat constructor; lia].
    - apply Htoks. destruct ts as [| [] ts']; try discriminate; exact H. }
  induction ls as [| [name kvs] ls IH]; intros Hwf; [constructor |].
  cbn [forallb] in Hwf. apply andb_true_iff in Hwf.
  destruct Hwf as [Hl Hwf]. unfold well_formed in Hl. cbn [fst snd] in Hl.
  apply andb_true_iff in Hl. destruct Hl as [Hn Hkvs].
  rewrite linesText_cons. apply Forall_app. split; [apply Hname, Hn |].
  apply Forall_app. split; [| constructor; [lia | apply IH, Hwf]].
  clear -Hkvs Hname Hval. induction kvs as [| [k v] kvs IHk]; [constructor |].
  cbn [forallb fst snd] in Hkvs. apply andb_true_iff in Hkvs.
  destruct Hkvs as [Hkv Hkvs]. apply andb_true_iff in Hkv.
  destruct Hkv as [Hk Hv]. cbn [map concat]. unfold attrText at 1.
  cbn [fst snd]. rewrite <- !app_assoc.
  repeat (apply Forall_app; split); auto; repeat constructor; lia.
Qed.

(** The first [next] of [parse]: the scanner reads its first character,
    and the token is the name of the tag of the first line. *)
Lemma start_before_lines (filename : string) (ls : list line) :
  forallb well_formed ls = true ->
  exists done,
    before_lines
      (tagsParser.start T filename (Go.of_bytes (linesText ls))) done ls
    /\ tagsParser.errors
         (tagsParser.start T filename (Go.of_bytes (linesText ls))) = [].
Proof.
  intros Hwf. unfold tagsParser.start.
  pose proof (linesText_ascii ls Hwf) as Hascii.
  pose proof (linesText_head ls Hwf) as Hhead.
  set (s0 := scanner.set_Whitespace _ _).
  assert (Hpeek : exists s1,
            scanner.Peek s0 = (scanner.ch s1, s1)
            /\ scanner.ch s1 <> -2
            /\ ahead s1 [] (linesText ls)).
  { assert (Hch0 : scanner.ch s0 = -2) by reflexivity.
    assert (Hsrc : scanner.src (scanner.rd s0) = linesText ls)
      by (cbn; apply bytes_of_bytes, Hascii).
    assert (Hbuf : scanner.srcBuf s0 = linesText ls)
      by (cbn; apply bytes_of_bytes, Hascii).
    assert (HM : scanner.Mode s0 = scanner.GoTokens) by reflexivity.
    assert (HW : scanner.Whitespace s0 = parse_Whitespace) by reflexivity.
    assert (Hp0 : scanner.srcPos (scanner.rd s0) = 0) by reflexivity.
    clearbody s0. unfold scanner.Peek. rewrite Hch0. cbn [Z.eqb Pos.eqb].
    destruct (linesText ls) as [| t rest] eqn:El.
    - destruct (next_end s0 Hsrc) as (r' & E & Hr & Hp & Hl).
      rewrite E. change (scanner.EOF =? 65279) with false. cbv iota.
      exists (scanner.set_ch (scanner.set_rd s0 r') scanner.EOF).
      split; [reflexivity |]. split; [discriminate |].
      unfold ahead.
      cbn [scanner.set_ch scanner.set_rd scanner.srcBuf scanner.Mode
           scanner.Whitespace scanner.ch scanner.rd length app].
      rewrite Hp, Hp0. repeat split; auto.
    - destruct (next_byte s0 t rest Hsrc Hhead) as (r' & E & Hr & Hp & Hl).
      rewrite E. destruct (Z.eqb_spec t 65279); [lia |].
      exists (scanner.set_ch (scanner.set_rd s0 r') t).
      split; [reflexivity |]. split; [cbn; lia |].
      unfold ahead.
      cbn [scanner.set_ch scanner.set_rd scanner.srcBuf scanner.Mode
           scanner.Whitespace scanner.ch scanner.rd length app].
      rewrite Hp, Hp0. repeat split; auto. }
  destruct Hpeek as (s1 & Hpeek & Hch & Ha).
  assert (HScan : scanner.Scan T s0 = scanner.Scan T s1).
  { unfold scanner.Scan. rewrite Hpeek. unfold scanner.Peek.
    destruct (Z.eqb_spec (scanner.ch s1) (-2)); [contradiction |].
    reflexivity. }
  set (p0 := tagsParser.mk [] s0 _ 0 EmptyString).
  assert (Hnext : tagsParser.next T p0
                  = tagsParser.next T (tagsParser.set_scanner p0 s1)).
  { unfold tagsParser.next. cbn [tagsParser.scanner tagsParser.set_scanner
                                 tagsParser.errors p0].
    rewrite HScan. reflexivity. }
  rewrite Hnext.
  destruct (next_before_lines (tagsParser.set_scanner p0 s1) [] ls Hwf Ha)
    as (done' & Hb & He).
  exists done'. split; [exact Hb | exact He].
Qed.

End ParseText.

Section ParseTextExtras.
Variable T : unicode.Tables.

(** X24.  A descriptor text of well-formed lines is parsed without an
    error into one tag per line, in the order of the lines, with the
    name of the line and its attributes; and [parseControlData] returns
    the descriptor built from these tags.  A well-formed line is a tag
    name, then attributes [name=value], each after one space, then a
    newline; names are made of ASCII letters, digits and underscores; a
    value is a string in double quotes without escapes, stored without
    the quotes, or a list of numbers in decimal digits with signs [-]
    and commas, stored as it is written.  Of two attributes of a line
    with the same name the later one is kept. *)
Theorem well_formed_text_is_parsed_into_its_tags
    (filename : string) (ls : list line) :
  forallb well_formed ls = true ->
  tagsParser.parse T filename (Go.of_bytes (linesText ls))
  = Some (map tagOf ls, None)
  /\ parseControlData T filename (Go.of_bytes (linesText ls))
     = Some (Some (buildTags (map tagOf ls)), None).
Proof.
  intros Hwf.
  destruct (start_before_lines T filename ls Hwf) as (done & Hb & He).
  destruct (parseTags_wf T ls
              (tagsParser.rounds (Go.of_bytes (linesText ls)))
              (tagsParser.start T filename (Go.of_bytes (linesText ls)))
              [] done Hwf Hb)
    as (p' & E & He'); [apply measure_start |].
  assert (Hparse : tagsParser.parse T filename (Go.of_bytes (linesText ls))
                   = Some (map tagOf ls, None)).
  { unfold tagsParser.parse, tagsParser.run. rewrite E, He', He.
    reflexivity. }
  split; [exact Hparse |].
  unfold parseControlData. rewrite Hparse. reflexivity.
Qed.

End ParseTextExtras.

Lemma well_formed_text_is_parsed_into_its_tags_witness :
  tagsParser.parse Sample.tables "bmfont"
    (Go.of_bytes (linesText Sample.four_lines))
  = Some (map tagOf Sample.four_lines, None)
  /\ parseControlData Sample.tables "bmfont"
       (Go.of_bytes (linesText Sample.four_lines))
     = Some (Some (buildTags (map tagOf Sample.four_lines)), None).
Proof.
  apply (well_formed_text_is_parsed_into_its_tags Sample.tables "bmfont"
           Sample.four_lines).
  vm_compute. reflexivity.
Defined.
